(** * UltimateKalman: the sequential Paige-Saunders engine, its step log and
    the associative smoother

    A shallow embedding of [src/c/ultimatekalman.c] (the sequential engine),
    of the associative smoother ([kalman_smooth_associative] and its helpers)
    and of [evolve] in [src/matlab/UltimateKalman.m].

    - A C [double] is a primitive binary64 [float]; [NaN] is [0.0 / 0.0] as in
      the source.
    - A [kalman_matrix_t*] held by the caller is an [option matrix_t] ([None]
      is [NULL]).  A pointer field of a step is a [slot]: it can also be
      dangling, because [matrix_free(step->Rdiag)] releases the matrix and
      leaves the field as it was.
    - The [step_t] structures live in a heap ([list (option step_t)], a cell
      is [None] once [step_free] released it); the step log and
      [kalman->current] hold addresses, so that the aliasing between
      [kalman->current] and the last element of the log is kept.
    - [assert] failures and undefined behaviour are explicit: every operation
      returns an [outcome].
    - The BLAS/LAPACK routines behind the matrix kernel are opaque: they are
      the fields of the class [Lapack]. *)

From Stdlib Require Import ZArith List Lia Bool Ascii.
From Stdlib Require Import Floats.PrimFloat.
From stdpp Require Import base option list.

Open Scope Z_scope.

(** ** Outcomes of a C call *)

Inductive fault : Type :=
| AssertionFailed   (* an [assert] of the source does not hold *)
| NullPointer       (* a NULL matrix or step is dereferenced *)
| DanglingPointer   (* a released matrix or step is used or released again *)
| OutOfRange.       (* the step log is read outside its window *)

Inductive outcome (A : Type) : Type :=
| Ok (a : A)
| Fault (f : fault).

Arguments Ok {A} a.
Arguments Fault {A} f.

#[global] Instance outcome_ret : MRet outcome := fun A a => Ok a.

#[global] Instance outcome_bind : MBind outcome :=
  fun A B k m => match m with Ok a => k a | Fault f => Fault f end.

Definition assert (c : bool) : outcome unit :=
  if c then Ok tt else Fault AssertionFailed.

(** [matrix_t* p] used where the callee reads it: NULL is a fault. *)
Definition nonnull {A : Type} (p : option A) : outcome A :=
  match p with Some a => Ok a | None => Fault NullPointer end.

(** ** The matrix kernel

    The kernel ([kalman.h] and the file that implements it) is not part of
    the sources at hand; the engine uses it through the calls below. *)

Record matrix_t : Type := {
  row_dim : Z;
  col_dim : Z;
  elements : Z -> Z -> float
}.

Definition NaN : float := (0.0 / 0.0)%float.

Definition matrix_rows (A : matrix_t) : Z := row_dim A.
Definition matrix_cols (A : matrix_t) : Z := col_dim A.
Definition matrix_get (A : matrix_t) (i j : Z) : float := elements A i j.

(** Modelled from the spec: [matrix_create_constant] is absent; "matrix
    create" with every entry equal to [v]. *)
Definition matrix_create_constant (rows cols : Z) (v : float) : matrix_t :=
  {| row_dim := rows; col_dim := cols; elements := fun _ _ => v |}.

(** Modelled from the spec: [matrix_create] is absent; the entries of a fresh
    matrix are not initialised, the callers overwrite them before any read. *)
Definition matrix_create (rows cols : Z) : matrix_t :=
  matrix_create_constant rows cols 0%float.

(** Modelled from the spec: [matrix_create_copy] is absent; "copies are
    explicit".  The callers pass NULL (the absent blocks of step 0) and test
    the result against NULL, so a NULL argument gives NULL. *)
Definition matrix_create_copy (A : option matrix_t) : option matrix_t := A.

(** Modelled from the spec: [matrix_create_sub] is absent; the block of
    [rows] by [cols] entries of [A] that starts at ([first_row],[first_col]). *)
Definition matrix_create_sub (A : matrix_t) (first_row rows first_col cols : Z)
  : matrix_t :=
  {| row_dim := rows; col_dim := cols;
     elements := fun i j => elements A (first_row + i) (first_col + j) |}.

(** Modelled from the spec: [matrix_create_vconcat] is absent; "vertical
    concatenation".  The callers pass NULL blocks and test the result:
    "we got some rows from at least one of the two blocks". *)
Definition matrix_create_vconcat (A B : option matrix_t) : option matrix_t :=
  match A, B with
  | None, None => None
  | Some a, None => Some a
  | None, Some b => Some b
  | Some a, Some b =>
      Some {| row_dim := row_dim a + row_dim b; col_dim := col_dim a;
              elements := fun i j =>
                if i <? row_dim a then elements a i j
                else elements b (i - row_dim a) j |}
  end.

(** Modelled from the spec: [matrix_mutate_chop] is absent; "purely a
    dimension reduction that discards trailing rows/columns but keeps the
    storage intact". *)
Definition matrix_mutate_chop (A : matrix_t) (rows cols : Z) : matrix_t :=
  {| row_dim := rows; col_dim := cols; elements := elements A |}.

(** Modelled from the spec: [matrix_mutate_triu] is absent; "triu masking",
    the "strict lower part is masked to zero". *)
Definition matrix_mutate_triu (A : matrix_t) : matrix_t :=
  {| row_dim := row_dim A; col_dim := col_dim A;
     elements := fun i j => if j <? i then 0%float else elements A i j |}.

(** Modelled from the spec: [matrix_mutate_scale] is absent; every entry is
    multiplied by [s]. *)
Definition matrix_mutate_scale (A : matrix_t) (s : float) : matrix_t :=
  {| row_dim := row_dim A; col_dim := col_dim A;
     elements := fun i j => (s * elements A i j)%float |}.

(** An in-place mutator keeps the dimensions of the matrix it overwrites and
    replaces its entries. *)
Definition in_place (C contents : matrix_t) : matrix_t :=
  {| row_dim := row_dim C; col_dim := col_dim C; elements := elements contents |}.

(** Modelled from the spec: [matrix_mutate_copy] is absent; the entries of
    [A] are written over those of [C]. *)
Definition matrix_mutate_copy (C A : matrix_t) : matrix_t := in_place C A.

(** The dense BLAS/LAPACK routines, opaque to the engine: "the core calls
    these as opaque operations".  Each field gives the contents the routine
    leaves in the matrix it overwrites. *)
Class Lapack : Type := {
  (* QR factor in place: the factored A (R above the reflectors) and TAU *)
  dgeqrf : matrix_t -> matrix_t * matrix_t;
  (* apply Q^T, held as (A, TAU), to B *)
  dormqr : matrix_t -> matrix_t -> matrix_t -> matrix_t;
  (* solve R X = B with R upper triangular *)
  dtrtrs : matrix_t -> matrix_t -> matrix_t;
  (* alpha * A * B + beta * C *)
  dgemm : float -> matrix_t -> matrix_t -> float -> matrix_t -> matrix_t
}.

Section Kernel.
Context {LA : Lapack}.

(** Modelled from the spec: [matrix_create_mutate_qr] is absent; "QR
    factor-in-place": [A] is overwritten, TAU is returned. *)
Definition matrix_create_mutate_qr (A : matrix_t) : matrix_t * matrix_t :=
  (in_place A (fst (dgeqrf A)), snd (dgeqrf A)).

(** Modelled from the spec: [matrix_mutate_apply_qt] is absent;
    "apply-Q^T-in-place". *)
Definition matrix_mutate_apply_qt (A TAU B : matrix_t) : matrix_t :=
  in_place B (dormqr A TAU B).

(** Modelled from the spec: [matrix_mutate_trisolve] is absent; "triangular
    solve", the right-hand side is overwritten by the solution. *)
Definition matrix_mutate_trisolve (R b : matrix_t) : matrix_t :=
  in_place b (dtrtrs R b).

(** Modelled from the spec: [matrix_create_trisolve] is absent; as the code
    it replaced in [kalman_observe] did, it copies the right-hand side and
    solves in the copy. *)
Definition matrix_create_trisolve (R b : matrix_t) : matrix_t :=
  matrix_mutate_trisolve R b.

(** Modelled from the spec: [matrix_mutate_gemm] is absent; "GEMM-like
    mutate-multiply-accumulate": C <- alpha A B + beta C. *)
Definition matrix_mutate_gemm (alpha : float) (A B : matrix_t) (beta : float)
  (C : matrix_t) : matrix_t :=
  in_place C (dgemm alpha A B beta C).

(** [cov_weigh] of [ultimatekalman.c]. *)
Definition cov_weigh (cov : option matrix_t) (cov_type : ascii)
  (A : option matrix_t) : outcome matrix_t :=
  _ ← assert (bool_decide (is_Some A));
  _ ← assert (bool_decide (is_Some cov));
  A ← nonnull A;
  cov ← nonnull cov;
  if Ascii.eqb cov_type "W" then
    _ ← assert (matrix_cols cov =? matrix_rows A);
    let WA := matrix_create_constant (matrix_rows A) (matrix_cols A) 0%float in
    Ok (in_place WA (dgemm 1%float cov A 0%float WA))
  else if Ascii.eqb cov_type "U" || Ascii.eqb cov_type "F" then
    Ok (matrix_create_trisolve cov A)
  else if Ascii.eqb cov_type "w" then
    _ ← assert (matrix_rows cov =? matrix_rows A);
    Ok {| row_dim := matrix_rows A; col_dim := matrix_cols A;
          elements := fun i j => (matrix_get cov i 0 * matrix_get A i j)%float |}
  else
    Fault AssertionFailed.

End Kernel.

(** ** The sequential engine ([ultimatekalman.c]) *)

Module Ultimate.

(** A matrix pointer stored in a step.  [matrix_free] releases the matrix
    and does not reset the field, which then dangles. *)
Inductive slot : Type :=
| Null
| Live (m : matrix_t)
| Freed.

Definition is_null (s : slot) : bool :=
  match s with Null => true | _ => false end.

(** The callee reads the matrix. *)
Definition deref (s : slot) : outcome matrix_t :=
  match s with
  | Null => Fault NullPointer
  | Live m => Ok m
  | Freed => Fault DanglingPointer
  end.

(** The pointer is handed to a callee that accepts NULL. *)
Definition arg (s : slot) : outcome (option matrix_t) :=
  match s with
  | Null => Ok None
  | Live m => Ok (Some m)
  | Freed => Fault DanglingPointer
  end.

Definition to_slot (p : option matrix_t) : slot :=
  match p with None => Null | Some m => Live m end.

(** [matrix_free(p)]: NULL is accepted (the source frees NULL temporaries);
    what the field holds afterwards. *)
Definition matrix_free (s : slot) : outcome slot :=
  match s with
  | Null => Ok Null
  | Live _ => Ok Freed
  | Freed => Fault DanglingPointer
  end.

Record step_t : Type := {
  step : Z;          (* logical step number *)
  dimension : Z;
  Rdiag : slot;
  Rsupdiag : slot;
  y : slot;
  Rbar : slot;
  ybar : slot;
  state : slot;
  covariance : slot
}.

Definition step_create : step_t :=
  {| step := -1; dimension := -1;
     Rdiag := Null; Rsupdiag := Null; y := Null;
     Rbar := Null; ybar := Null;
     state := Null; covariance := Null |}.

Definition set_step (v : Z) (s : step_t) : step_t :=
  {| step := v; dimension := dimension s; Rdiag := Rdiag s;
     Rsupdiag := Rsupdiag s; y := y s; Rbar := Rbar s; ybar := ybar s;
     state := state s; covariance := covariance s |}.

Definition set_dimension (v : Z) (s : step_t) : step_t :=
  {| step := step s; dimension := v; Rdiag := Rdiag s;
     Rsupdiag := Rsupdiag s; y := y s; Rbar := Rbar s; ybar := ybar s;
     state := state s; covariance := covariance s |}.

Definition set_Rdiag (v : slot) (s : step_t) : step_t :=
  {| step := step s; dimension := dimension s; Rdiag := v;
     Rsupdiag := Rsupdiag s; y := y s; Rbar := Rbar s; ybar := ybar s;
     state := state s; covariance := covariance s |}.

Definition set_Rsupdiag (v : slot) (s : step_t) : step_t :=
  {| step := step s; dimension := dimension s; Rdiag := Rdiag s;
     Rsupdiag := v; y := y s; Rbar := Rbar s; ybar := ybar s;
     state := state s; covariance := covariance s |}.

Definition set_y (v : slot) (s : step_t) : step_t :=
  {| step := step s; dimension := dimension s; Rdiag := Rdiag s;
     Rsupdiag := Rsupdiag s; y := v; Rbar := Rbar s; ybar := ybar s;
     state := state s; covariance := covariance s |}.

Definition set_Rbar (v : slot) (s : step_t) : step_t :=
  {| step := step s; dimension := dimension s; Rdiag := Rdiag s;
     Rsupdiag := Rsupdiag s; y := y s; Rbar := v; ybar := ybar s;
     state := state s; covariance := covariance s |}.

Definition set_ybar (v : slot) (s : step_t) : step_t :=
  {| step := step s; dimension := dimension s; Rdiag := Rdiag s;
     Rsupdiag := Rsupdiag s; y := y s; Rbar := Rbar s; ybar := v;
     state := state s; covariance := covariance s |}.

Definition set_state (v : slot) (s : step_t) : step_t :=
  {| step := step s; dimension := dimension s; Rdiag := Rdiag s;
     Rsupdiag := Rsupdiag s; y := y s; Rbar := Rbar s; ybar := ybar s;
     state := v; covariance := covariance s |}.

Definition set_covariance (v : slot) (s : step_t) : step_t :=
  {| step := step s; dimension := dimension s; Rdiag := Rdiag s;
     Rsupdiag := Rsupdiag s; y := y s; Rbar := Rbar s; ybar := ybar s;
     state := state s; covariance := v |}.

(** *** The heap of steps *)

Abbreviation addr := nat.
Abbreviation heap_t := (list (option step_t)).

(** [p->field] for a [step_t* p]. *)
Definition load (p : addr) (h : heap_t) : outcome step_t :=
  match h !! p with
  | Some (Some s) => Ok s
  | _ => Fault DanglingPointer
  end.

Definition store (p : addr) (s : step_t) (h : heap_t) : heap_t :=
  <[p := Some s]> h.

(** [step_free]: the seven matrices, then the structure itself. *)
Definition step_free (p : addr) (h : heap_t) : outcome heap_t :=
  s ← load p h;
  _ ← matrix_free (covariance s);
  _ ← matrix_free (state s);
  _ ← matrix_free (Rdiag s);
  _ ← matrix_free (Rsupdiag s);
  _ ← matrix_free (y s);
  _ ← matrix_free (Rbar s);
  _ ← matrix_free (ybar s);
  Ok (<[p := None]> h).

(** *** The step log

    Modelled from the spec: [farray_t] and its operations are absent.
    "Append-only random-access buffer with a sliding window.  Externally
    addressed by logical step index s; internally by s - earliest.
    [drop_first] advances the base; [drop_last] shrinks the tail." *)
Record farray_t : Type := {
  first : Z;
  elems : list addr
}.

Definition farray_create : farray_t := {| first := 0; elems := [] |}.

Definition farray_size (a : farray_t) : Z := Z.of_nat (length (elems a)).

Definition farray_first_index (a : farray_t) : Z := first a.

Definition farray_last_index (a : farray_t) : Z := first a + farray_size a - 1.

Definition farray_get (a : farray_t) (i : Z) : outcome addr :=
  if (i <? first a) || (farray_last_index a <? i) then Fault OutOfRange
  else match elems a !! Z.to_nat (i - first a) with
       | Some p => Ok p
       | None => Fault OutOfRange
       end.

Definition farray_get_first (a : farray_t) : outcome addr :=
  farray_get a (farray_first_index a).

Definition farray_get_last (a : farray_t) : outcome addr :=
  farray_get a (farray_last_index a).

Definition farray_append (a : farray_t) (p : addr) : farray_t :=
  {| first := first a; elems := elems a ++ [p] |}.

Definition farray_drop_first (a : farray_t) : outcome (addr * farray_t) :=
  match elems a with
  | [] => Fault OutOfRange
  | p :: rest => Ok (p, {| first := first a + 1; elems := rest |})
  end.

Definition farray_drop_last (a : farray_t) : outcome (addr * farray_t) :=
  match last (elems a) with
  | None => Fault OutOfRange
  | Some p => Ok (p, {| first := first a; elems := removelast (elems a) |})
  end.

(** *** The filter *)

Record kalman_t : Type := {
  heap : heap_t;             (* the step_t structures [steps] and [current] point to *)
  steps : farray_t;
  current : option addr
}.

Definition kalman_create : kalman_t :=
  {| heap := []; steps := farray_create; current := None |}.

Definition kalman_earliest (kalman : kalman_t) : outcome Z :=
  if farray_size (steps kalman) =? 0 then Ok (-1)
  else
    p ← farray_get_first (steps kalman);
    s ← load p (heap kalman);
    Ok (step s).

Definition kalman_latest (kalman : kalman_t) : outcome Z :=
  if farray_size (steps kalman) =? 0 then Ok (-1)
  else
    p ← farray_get_last (steps kalman);
    s ← load p (heap kalman);
    Ok (step s).

Section Engine.
Context {LA : Lapack}.

(** [kalman_evolve] *)
Definition kalman_evolve (kalman : kalman_t) (n_i : Z)
  (H_i F_i c_i K_i : option matrix_t) (K_type : ascii) : outcome kalman_t :=
  (* kalman->current = kalman_current = step_create() *)
  let kalman_current : addr := length (heap kalman) in
  let cur := set_dimension n_i step_create in
  let h := heap kalman ++ [Some cur] in
  if farray_size (steps kalman) =? 0 then
    Ok {| heap := store kalman_current (set_step 0 cur) h;
          steps := steps kalman;
          current := Some kalman_current |}
  else
    imo ← farray_get_last (steps kalman);
    imo_s ← load imo h;
    let cur := set_step (step imo_s + 1) cur in
    _ ← assert (bool_decide (is_Some H_i));
    _ ← assert (bool_decide (is_Some F_i));
    _ ← assert (bool_decide (is_Some c_i));
    V_i_H_i ← cov_weigh K_i K_type H_i;
    V_i_F_i ← cov_weigh K_i K_type F_i;
    V_i_c_i ← cov_weigh K_i K_type c_i;
    let V_i_F_i := matrix_mutate_scale V_i_F_i (-1)%float in
    '(A, B, y0) ←
      (if negb (is_null (Rdiag imo_s)) then
         Rd ← deref (Rdiag imo_s);
         imo_y ← arg (y imo_s);
         let z_i := matrix_rows Rd in
         Ok (matrix_create_vconcat (Some Rd) (Some V_i_F_i),
             matrix_create_vconcat
               (Some (matrix_create_constant z_i n_i 0%float)) (Some V_i_H_i),
             matrix_create_vconcat imo_y (Some V_i_c_i))
       else
         Ok (matrix_create_copy (Some V_i_F_i),
             matrix_create_copy (Some V_i_H_i),
             matrix_create_copy (Some V_i_c_i)));
    A ← nonnull A;
    B ← nonnull B;
    y0 ← nonnull y0;
    let '(A, TAU) := matrix_create_mutate_qr A in
    let B := matrix_mutate_apply_qt A TAU B in
    let y0 := matrix_mutate_apply_qt A TAU y0 in
    let n_imo := dimension imo_s in
    let cur :=
      if n_imo <? matrix_rows B then
        set_ybar
          (Live (matrix_create_sub y0 n_imo (matrix_rows y0 - n_imo)
                   0 (matrix_cols y0)))
          (set_Rbar
             (Live (matrix_create_sub B n_imo (matrix_rows B - n_imo)
                      0 (matrix_cols B)))
             cur)
      else cur in
    (* free imo's Rdiag and y, if they are set *)
    _ ← (if negb (is_null (Rdiag imo_s)) then matrix_free (Rdiag imo_s)
         else Ok (Rdiag imo_s));
    _ ← (if negb (is_null (y imo_s)) then matrix_free (y imo_s)
         else Ok (y imo_s));
    let A := matrix_mutate_chop A (Z.min (matrix_rows A) n_imo) (matrix_cols A) in
    let B := matrix_mutate_chop B (Z.min (matrix_rows B) n_imo) (matrix_cols B) in
    let y0 := matrix_mutate_chop y0 (Z.min (matrix_rows y0) n_imo) (matrix_cols y0) in
    let imo_s :=
      set_Rdiag (Live (matrix_mutate_triu A))
        (set_y (Live y0) (set_Rsupdiag (Live B) imo_s)) in
    Ok {| heap := store imo imo_s (store kalman_current cur h);
          steps := steps kalman;
          current := Some kalman_current |}.

(** [kalman_observe] *)
Definition kalman_observe (kalman : kalman_t)
  (G_i o_i C_i : option matrix_t) (C_type : ascii) : outcome kalman_t :=
  (* assert(kalman->current != NULL) *)
  kalman_current ←
    (match current kalman with
     | Some p => Ok p
     | None => Fault AssertionFailed
     end);
  cur ← load kalman_current (heap kalman);
  let n_i := dimension cur in
  '(W_i_G_i, W_i_o_i) ←
    (if bool_decide (is_Some o_i) then
       WG ← cov_weigh C_i C_type G_i;
       Wo ← cov_weigh C_i C_type o_i;
       Ok (Some WG, Some Wo)
     else Ok (None, None));
  Rbar_p ← arg (Rbar cur);
  ybar_p ← arg (ybar cur);
  let A := matrix_create_vconcat Rbar_p W_i_G_i in
  let y0 := matrix_create_vconcat ybar_p W_i_o_i in
  cur ←
    (match A with
     | Some A =>
         (* we got some rows from at least one of the two blocks *)
         '(Rd, y1) ←
           (if matrix_cols A <=? matrix_rows A then
              y1 ← nonnull y0;
              let '(A, TAU) := matrix_create_mutate_qr A in
              let y1 := matrix_mutate_apply_qt A TAU y1 in
              let A :=
                matrix_mutate_chop A (Z.min (matrix_rows A) n_i) (matrix_cols A) in
              let y1 :=
                matrix_mutate_chop y1 (Z.min (matrix_rows y1) n_i) (matrix_cols y1) in
              Ok (matrix_mutate_triu A, Some y1)
            else
              (* A is flat, no need to factor *)
              Ok (A, y0));
         state ←
           (if matrix_rows Rd =? n_i then
              y1 ← nonnull y1;
              Ok (matrix_create_trisolve Rd y1)
            else Ok (matrix_create_constant n_i 1 NaN));
         Ok (set_covariance (to_slot (matrix_create_copy (Some Rd)))
               (set_state (Live state)
                  (set_y (to_slot y1) (set_Rdiag (Live Rd) cur))))
     | None => Ok cur
     end);
  (* matrix_free(W_i_G_i); matrix_free(W_i_o_i): temporaries *)
  Ok {| heap := store kalman_current cur (heap kalman);
        steps := farray_append (steps kalman) kalman_current;
        current := current kalman |}.

(** [kalman_estimate] *)
Definition kalman_estimate (kalman : kalman_t) (si : Z)
  : outcome (option matrix_t) :=
  if farray_size (steps kalman) =? 0 then Ok None
  else
    let si := if si <? 0 then farray_last_index (steps kalman) else si in
    p ← farray_get (steps kalman) si;
    s ← load p (heap kalman);
    if is_null (state s) then
      Ok (Some (matrix_create_constant (dimension s) 1 NaN))
    else
      st ← deref (state s);
      Ok (matrix_create_copy (Some st)).

(** The state pass of [kalman_smooth]: [n] iterations remain, [si] is the
    loop variable, [prev_state] points into the step whose state it is. *)
Fixpoint smooth_states (n : nat) (si last : Z) (steps : farray_t)
  (prev_state : option addr) (h : heap_t) : outcome heap_t :=
  match n with
  | O => Ok h
  | S n' =>
      i ← farray_get steps si;
      s ← load i h;
      s ← (if is_null (state s) then
             yv ← deref (y s);
             Ok (set_state (Live (matrix_create (matrix_rows yv) 1)) s)
           else Ok s);
      st ← deref (state s);
      yv ← deref (y s);
      let s := set_state (Live (matrix_mutate_copy st yv)) s in
      let h := store i s h in
      s ← (if si <? last then
             Rs ← deref (Rsupdiag s);
             prev ← nonnull prev_state;
             prev_s ← load prev h;
             pv ← deref (state prev_s);
             st ← deref (state s);
             Ok (set_state (Live (matrix_mutate_gemm (-1)%float Rs pv 1%float st)) s)
           else Ok s);
      Rd ← deref (Rdiag s);
      st ← deref (state s);
      let s := set_state (Live (matrix_mutate_trisolve Rd st)) s in
      smooth_states n' (si - 1) last steps (Some i) (store i s h)
  end.

(** What the pointer [R] of the covariance pass refers to. *)
Inductive R_ref : Type :=
| Rdiag_of (p : addr)
| covariance_of (p : addr).

Definition read_R (R : R_ref) (h : heap_t) : outcome matrix_t :=
  match R with
  | Rdiag_of p => s ← load p h; deref (Rdiag s)
  | covariance_of p => s ← load p h; deref (covariance s)
  end.

(** The covariance pass of [kalman_smooth]. *)
Fixpoint smooth_covariances (n : nat) (si last : Z) (steps : farray_t)
  (R : option R_ref) (n_ipo : Z) (h : heap_t) : outcome heap_t :=
  match n with
  | O => Ok h
  | S n' =>
      i ← farray_get steps si;
      s ← load i h;
      if si =? last then
        Rd ← deref (Rdiag s);
        smooth_covariances n' (si - 1) last steps (Some (Rdiag_of i))
          (matrix_rows Rd) h
      else
        c ← matrix_free (covariance s);
        let s := set_covariance c s in
        let h := store i s h in
        Rd ← deref (Rdiag s);
        let n_i := matrix_rows Rd in
        Rsup ← arg (Rsupdiag s);
        R ← nonnull R;
        Rv ← read_R R h;
        A ← nonnull (matrix_create_vconcat Rsup (Some Rv));
        S ← nonnull (matrix_create_vconcat (Some Rd)
                       (Some (matrix_create_constant (matrix_rows Rv)
                                (matrix_cols Rd) 0%float)));
        let '(A, TAU) := matrix_create_mutate_qr A in
        let S := matrix_mutate_apply_qt A TAU S in
        let s := set_covariance (Live (matrix_create_sub S n_ipo n_i 0 n_i)) s in
        smooth_covariances n' (si - 1) last steps (Some (covariance_of i))
          n_i (store i s h)
  end.

(** [kalman_smooth] *)
Definition kalman_smooth (kalman : kalman_t) : outcome kalman_t :=
  if farray_size (steps kalman) =? 0 then Ok kalman
  else
    let last := farray_last_index (steps kalman) in
    let first := farray_first_index (steps kalman) in
    let n := Z.to_nat (last - first + 1) in
    h ← smooth_states n last last (steps kalman) None (heap kalman);
    h ← smooth_covariances n last last (steps kalman) None 0 h;
    Ok {| heap := h; steps := steps kalman; current := current kalman |}.

Definition kalman_covariance_type (kalman : kalman_t) (si : Z) : ascii := "W".

(** [kalman_covariance] *)
Definition kalman_covariance (kalman : kalman_t) (si : Z)
  : outcome (option matrix_t) :=
  if farray_size (steps kalman) =? 0 then Ok None
  else
    let si := if si <? 0 then farray_last_index (steps kalman) else si in
    p ← farray_get (steps kalman) si;
    s ← load p (heap kalman);
    let n_i := dimension s in
    if negb (is_null (Rdiag s)) then
      Rd ← deref (Rdiag s);
      if matrix_rows Rd =? n_i then
        c ← arg (covariance s);
        Ok (matrix_create_copy c)
      else Ok (Some (matrix_create_constant n_i n_i NaN))
    else Ok (Some (matrix_create_constant n_i n_i NaN)).

(** The loop of [kalman_forget]; [fuel] is the number of steps in the log. *)
Fixpoint forget_loop (fuel : nat) (si : Z) (steps : farray_t) (h : heap_t)
  : outcome (farray_t * heap_t) :=
  if farray_first_index steps <=? si then
    match fuel with
    | O => Fault OutOfRange
    | S fuel' =>
        '(p, steps) ← farray_drop_first steps;
        h ← step_free p h;
        forget_loop fuel' si steps h
    end
  else Ok (steps, h).

(** [kalman_forget] *)
Definition kalman_forget (kalman : kalman_t) (si : Z) : outcome kalman_t :=
  if farray_size (steps kalman) =? 0 then Ok kalman
  else
    let si := if si <? 0 then farray_last_index (steps kalman) - 1 else si in
    if farray_last_index (steps kalman) - 1 <? si then Ok kalman (* don't delete last step *)
    else if si <? farray_first_index (steps kalman) then Ok kalman (* nothing to delete *)
    else
      '(steps', h) ← forget_loop (length (elems (steps kalman))) si
                       (steps kalman) (heap kalman);
      Ok {| heap := h; steps := steps'; current := current kalman |}.

(** The [do ... while] of [kalman_rollback]; [fuel] is the number of steps in
    the log. *)
Fixpoint rollback_loop (fuel : nat) (si : Z) (kalman : kalman_t)
  : outcome kalman_t :=
  match fuel with
  | O => Fault OutOfRange
  | S fuel' =>
      '(p, steps') ← farray_drop_last (steps kalman);
      s ← load p (heap kalman);
      kalman ←
        (if step s =? si then
           c1 ← matrix_free (Rdiag s);
           c2 ← matrix_free (Rsupdiag s);
           c3 ← matrix_free (y s);
           c4 ← matrix_free (state s);
           c5 ← matrix_free (covariance s);
           let s := set_covariance c5 (set_state c4 (set_y c3
                      (set_Rsupdiag c2 (set_Rdiag c1 s)))) in
           Ok {| heap := store p s (heap kalman); steps := steps';
                 current := Some p |}
         else
           Ok {| heap := heap kalman; steps := steps';
                 current := current kalman |});
      if si <? step s then rollback_loop fuel' si kalman else Ok kalman
  end.

(** [kalman_rollback] *)
Definition kalman_rollback (kalman : kalman_t) (si : Z) : outcome kalman_t :=
  if farray_size (steps kalman) =? 0 then Ok kalman
  else if farray_last_index (steps kalman) <? si then Ok kalman
  else if si <? farray_first_index (steps kalman) then Ok kalman
  else rollback_loop (S (length (elems (steps kalman)))) si kalman.

End Engine.

(** The loop of [kalman_free]; [fuel] is the number of steps in the log. *)
Fixpoint free_loop (fuel : nat) (steps : farray_t) (h : heap_t)
  : outcome heap_t :=
  if 0 <? farray_size steps then
    match fuel with
    | O => Fault OutOfRange
    | S fuel' =>
        '(i, steps) ← farray_drop_last steps;
        h ← step_free i h;
        free_loop fuel' steps h
    end
  else Ok h.

(** [kalman_free]: the steps of the log are released one by one from the
    last, then the log and the filter; the result is what is left of the
    heap of steps.  [step_free(kalman->current)] is commented out in the
    source. *)
Definition kalman_free (kalman : kalman_t) : outcome heap_t :=
  free_loop (length (elems (steps kalman))) (steps kalman) (heap kalman).

End Ultimate.

(** ** The associative smoother *)

(** The dense kernel of the associative smoother.  The routines are absent
    from the sources at hand and take matrix pointers that may be NULL (an
    element without observation has [e = J = NULL]); they stay opaque. *)
Class Dense : Type := {
  kalman_covariance_matrix_weigh :
    option matrix_t -> ascii -> option matrix_t -> option matrix_t;
  kalman_covariance_matrix_explicit : option matrix_t -> ascii -> option matrix_t;
  matrix_create_transpose : option matrix_t -> option matrix_t;
  matrix_create_inverse : option matrix_t -> option matrix_t;
  matrix_create_multiply : option matrix_t -> option matrix_t -> option matrix_t;
  matrix_create_add : option matrix_t -> option matrix_t -> option matrix_t;
  matrix_create_subtract : option matrix_t -> option matrix_t -> option matrix_t;
  matrix_create_mldivide : option matrix_t -> option matrix_t -> option matrix_t;
  (* QR factor in place: the factored matrix and the reflectors *)
  matrix_create_mutate_qr' : option matrix_t -> option matrix_t * option matrix_t;
  matrix_mutate_apply_qt' :
    option matrix_t -> option matrix_t -> option matrix_t -> option matrix_t;
  matrix_mutate_triu' : option matrix_t -> option matrix_t;
  (* matrix_create_trisolve("U", R, b) *)
  matrix_create_trisolve' : option matrix_t -> option matrix_t -> option matrix_t
}.

(** Modelled from the spec: the declaration of [kalman_step_equations_t]
    ([kalman.h]) is absent; "a pre-built contiguous array of step equations
    (H, F, c, K, K_type, G, o, C, C_type per step)" into which the smoother
    writes [state], [covariance] and [covariance_type]. *)
Module StepEquations.

Record kalman_step_equations_t : Type := {
  step : Z;
  dimension : Z;
  H : option matrix_t;
  F : option matrix_t;
  c : option matrix_t;
  K : option matrix_t;
  K_type : ascii;
  G : option matrix_t;
  o : option matrix_t;
  C : option matrix_t;
  C_type : ascii;
  state : option matrix_t;
  covariance : option matrix_t;
  covariance_type : ascii
}.

(** [equation->state = s; equation->covariance = c;
    equation->covariance_type = t]. *)
Definition set_estimate (s cv : option matrix_t) (t : ascii)
  (q : kalman_step_equations_t) : kalman_step_equations_t :=
  {| step := step q; dimension := dimension q; H := H q; F := F q; c := c q;
     K := K q; K_type := K_type q; G := G q; o := o q; C := C q;
     C_type := C_type q; state := s; covariance := cv; covariance_type := t |}.

End StepEquations.

Module Associative.

Abbreviation equations_t := StepEquations.kalman_step_equations_t.

(** [a[i]] and [a[i] = x] for a C array held as a list. *)
Definition get {T : Type} (a : list T) (i : Z) : outcome T :=
  if i <? 0 then Fault OutOfRange
  else match a !! Z.to_nat i with
       | Some x => Ok x
       | None => Fault OutOfRange
       end.

Definition put {T : Type} (a : list T) (i : Z) (x : T) : list T :=
  <[Z.to_nat i := x]> a.

(** The field [Z] of the source is [Z_] here: [Z] is the type of integers. *)
Record step_t : Type := {
  step : Z;
  dimension : Z;
  C_type : ascii;
  K_type : ascii;
  H : option matrix_t;
  F : option matrix_t;
  K : option matrix_t;
  c : option matrix_t;
  G : option matrix_t;
  o : option matrix_t;
  C : option matrix_t;
  Z_ : option matrix_t;
  A : option matrix_t;
  b : option matrix_t;
  e : option matrix_t;
  J : option matrix_t;
  E : option matrix_t;
  g : option matrix_t;
  L : option matrix_t;
  state : option matrix_t;
  covariance : option matrix_t
}.

Definition set_dimension (v : Z) (s : step_t) : step_t :=
  {| step := step s; dimension := v; C_type := C_type s; K_type := K_type s;
     H := H s; F := F s; K := K s; c := c s; G := G s; o := o s; C := C s;
     Z_ := Z_ s; A := A s; b := b s; e := e s; J := J s; E := E s; g := g s;
     L := L s; state := state s; covariance := covariance s |}.

Definition set_F (v : option matrix_t) (s : step_t) : step_t :=
  {| step := step s; dimension := dimension s; C_type := C_type s;
     K_type := K_type s; H := H s; F := v; K := K s; c := c s; G := G s;
     o := o s; C := C s; Z_ := Z_ s; A := A s; b := b s; e := e s; J := J s;
     E := E s; g := g s; L := L s; state := state s; covariance := covariance s
     |}.

Definition set_K (v : option matrix_t) (s : step_t) : step_t :=
  {| step := step s; dimension := dimension s; C_type := C_type s;
     K_type := K_type s; H := H s; F := F s; K := v; c := c s; G := G s;
     o := o s; C := C s; Z_ := Z_ s; A := A s; b := b s; e := e s; J := J s;
     E := E s; g := g s; L := L s; state := state s; covariance := covariance s
     |}.

Definition set_c (v : option matrix_t) (s : step_t) : step_t :=
  {| step := step s; dimension := dimension s; C_type := C_type s;
     K_type := K_type s; H := H s; F := F s; K := K s; c := v; G := G s;
     o := o s; C := C s; Z_ := Z_ s; A := A s; b := b s; e := e s; J := J s;
     E := E s; g := g s; L := L s; state := state s; covariance := covariance s
     |}.

Definition set_K_type (v : ascii) (s : step_t) : step_t :=
  {| step := step s; dimension := dimension s; C_type := C_type s;
     K_type := v; H := H s; F := F s; K := K s; c := c s; G := G s; o := o s;
     C := C s; Z_ := Z_ s; A := A s; b := b s; e := e s; J := J s; E := E s;
     g := g s; L := L s; state := state s; covariance := covariance s |}.

Definition set_Z (v : option matrix_t) (s : step_t) : step_t :=
  {| step := step s; dimension := dimension s; C_type := C_type s;
     K_type := K_type s; H := H s; F := F s; K := K s; c := c s; G := G s;
     o := o s; C := C s; Z_ := v; A := A s; b := b s; e := e s; J := J s;
     E := E s; g := g s; L := L s; state := state s; covariance := covariance s
     |}.

Definition set_A (v : option matrix_t) (s : step_t) : step_t :=
  {| step := step s; dimension := dimension s; C_type := C_type s;
     K_type := K_type s; H := H s; F := F s; K := K s; c := c s; G := G s;
     o := o s; C := C s; Z_ := Z_ s; A := v; b := b s; e := e s; J := J s;
     E := E s; g := g s; L := L s; state := state s; covariance := covariance s
     |}.

Definition set_b (v : option matrix_t) (s : step_t) : step_t :=
  {| step := step s; dimension := dimension s; C_type := C_type s;
     K_type := K_type s; H := H s; F := F s; K := K s; c := c s; G := G s;
     o := o s; C := C s; Z_ := Z_ s; A := A s; b := v; e := e s; J := J s;
     E := E s; g := g s; L := L s; state := state s; covariance := covariance s
     |}.

Definition set_e (v : option matrix_t) (s : step_t) : step_t :=
  {| step := step s; dimension := dimension s; C_type := C_type s;
     K_type := K_type s; H := H s; F := F s; K := K s; c := c s; G := G s;
     o := o s; C := C s; Z_ := Z_ s; A := A s; b := b s; e := v; J := J s;
     E := E s; g := g s; L := L s; state := state s; covariance := covariance s
     |}.

Definition set_J (v : option matrix_t) (s : step_t) : step_t :=
  {| step := step s; dimension := dimension s; C_type := C_type s;
     K_type := K_type s; H := H s; F := F s; K := K s; c := c s; G := G s;
     o := o s; C := C s; Z_ := Z_ s; A := A s; b := b s; e := e s; J := v;
     E := E s; g := g s; L := L s; state := state s; covariance := covariance s
     |}.

Definition set_E (v : option matrix_t) (s : step_t) : step_t :=
  {| step := step s; dimension := dimension s; C_type := C_type s;
     K_type := K_type s; H := H s; F := F s; K := K s; c := c s; G := G s;
     o := o s; C := C s; Z_ := Z_ s; A := A s; b := b s; e := e s; J := J s;
     E := v; g := g s; L := L s; state := state s; covariance := covariance s
     |}.

Definition set_g (v : option matrix_t) (s : step_t) : step_t :=
  {| step := step s; dimension := dimension s; C_type := C_type s;
     K_type := K_type s; H := H s; F := F s; K := K s; c := c s; G := G s;
     o := o s; C := C s; Z_ := Z_ s; A := A s; b := b s; e := e s; J := J s;
     E := E s; g := v; L := L s; state := state s; covariance := covariance s
     |}.

Definition set_L (v : option matrix_t) (s : step_t) : step_t :=
  {| step := step s; dimension := dimension s; C_type := C_type s;
     K_type := K_type s; H := H s; F := F s; K := K s; c := c s; G := G s;
     o := o s; C := C s; Z_ := Z_ s; A := A s; b := b s; e := e s; J := J s;
     E := E s; g := g s; L := v; state := state s; covariance := covariance s
     |}.

Definition set_state (v : option matrix_t) (s : step_t) : step_t :=
  {| step := step s; dimension := dimension s; C_type := C_type s;
     K_type := K_type s; H := H s; F := F s; K := K s; c := c s; G := G s;
     o := o s; C := C s; Z_ := Z_ s; A := A s; b := b s; e := e s; J := J s;
     E := E s; g := g s; L := L s; state := v; covariance := covariance s |}.

Definition set_covariance (v : option matrix_t) (s : step_t) : step_t :=
  {| step := step s; dimension := dimension s; C_type := C_type s;
     K_type := K_type s; H := H s; F := F s; K := K s; c := c s; G := G s;
     o := o s; C := C s; Z_ := Z_ s; A := A s; b := b s; e := e s; J := J s;
     E := E s; g := g s; L := L s; state := state s; covariance := v |}.

Definition step_create : step_t :=
  {| step := -1; dimension := -1; C_type := Ascii.zero; K_type := Ascii.zero;
     H := None; F := None; K := None; c := None; G := None; o := None;
     C := None; Z_ := None; A := None; b := None; e := None; J := None;
     E := None; g := None; L := None; state := None; covariance := None |}.

(** The structure [elements_init] leaves in [elements[j]]. *)
Definition element_init (j : Z) : step_t :=
  {| step := j; dimension := -1; C_type := Ascii.zero; K_type := Ascii.zero;
     H := None; F := None; K := None; c := None; G := None; o := None;
     C := None; Z_ := None; A := None; b := None; e := None; J := None;
     E := None; g := None; L := None; state := None; covariance := None |}.

(** Modelled from the spec: [matrix_create_identity] is absent. *)
Definition matrix_create_identity (rows cols : Z) : matrix_t :=
  {| row_dim := rows; col_dim := cols;
     elements := fun i j => if i =? j then 1%float else 0%float |}.

Section Smoother.
Context {DK : Dense}.

(** [build_filtering_element_new] *)
Definition build_filtering_element_new (equations : list equations_t)
  (elements : list step_t) (i : Z) : outcome (list step_t) :=
  equation ← get equations i;
  element ← get elements i;
  let n_i := StepEquations.dimension equation in
  let element := set_dimension n_i element in
  (* we need F, c, K later *)
  let element := set_F (matrix_create_copy (StepEquations.F equation)) element in
  let element := set_c (matrix_create_copy (StepEquations.c equation)) element in
  let element := set_K (matrix_create_copy (StepEquations.K equation)) element in
  let element := set_K_type (StepEquations.K_type equation) element in
  let elements := put elements i element in
  if i =? 0 then Ok elements
  else
    elements ←
      (if i =? 1 then
         step_0 ← get equations 0;
         let G_i := StepEquations.G step_0 in
         let o_i := StepEquations.o step_0 in
         let C_i := StepEquations.C step_0 in
         let C_type := StepEquations.C_type step_0 in
         let W_i_G_i := kalman_covariance_matrix_weigh C_i C_type G_i in
         let W_i_o_i := kalman_covariance_matrix_weigh C_i C_type o_i in
         let R := matrix_create_copy W_i_G_i in
         let '(R, Q) := matrix_create_mutate_qr' R in
         let W_i_o_i := matrix_mutate_apply_qt' R Q W_i_o_i in
         let R := matrix_mutate_triu' R in
         let m0 := matrix_create_trisolve' R W_i_o_i in
         let RT := matrix_create_transpose R in
         let RTR := matrix_create_multiply RT R in
         let P0 := matrix_create_inverse RTR in
         e0 ← get elements 0;
         Ok (put elements 0 (set_covariance P0 (set_state m0 e0)))
       else Ok elements);
    let F_i := StepEquations.F equation in
    let c_i := StepEquations.c equation in
    let K_i := kalman_covariance_matrix_explicit (StepEquations.K equation)
                 (StepEquations.K_type equation) in
    K_i ←
      (if i =? 1 then
         e0 ← get elements 0;
         let F_iT := matrix_create_transpose F_i in
         let P0 := covariance e0 in
         let FP0 := matrix_create_multiply F_i P0 in
         let FPFT := matrix_create_multiply FP0 F_iT in
         Ok (matrix_create_add K_i FPFT)
       else Ok K_i);
    element ← get elements i;
    element ←
      (if bool_decide (StepEquations.o equation = None :> option matrix_t) then
         let element := set_Z K_i element in
         element ←
           (if i =? 1 then
              let element :=
                set_A (Some (matrix_create_constant n_i n_i 0%float)) element in
              e0 ← get elements 0;
              let m0 := state e0 in
              Ok (set_b (matrix_create_add m0 c_i) element)
            else
              Ok (set_b (matrix_create_copy c_i)
                    (set_A (matrix_create_copy F_i) element)));
         Ok (set_J None (set_e None element))
       else
         (* there are observations *)
         let G_i := StepEquations.G equation in
         let o_i := StepEquations.o equation in
         let C_i := kalman_covariance_matrix_explicit (StepEquations.C equation)
                      (StepEquations.C_type equation) in
         let G_iT := matrix_create_transpose G_i in
         let KGT := matrix_create_multiply K_i G_iT in
         let GKGT := matrix_create_multiply G_i KGT in
         let S := matrix_create_add GKGT C_i in
         let ST := matrix_create_transpose S in
         let G_i_trans_inv_S_T := matrix_create_mldivide ST G_i in
         let G_i_trans_inv_S := matrix_create_transpose G_i_trans_inv_S_T in
         let K := matrix_create_multiply K_i G_i_trans_inv_S in
         element ←
           (if i =? 1 then
              let element :=
                set_A (Some (matrix_create_constant n_i n_i 0%float)) element in
              e0 ← get elements 0;
              let m0 := state e0 in
              let F_im := matrix_create_multiply F_i m0 in
              let m1 := matrix_create_add F_im c_i in
              let G_im := matrix_create_multiply G_i m1 in
              let o_G_im := matrix_create_subtract o_i G_im in
              let K_o_G_im := matrix_create_multiply K o_G_im in
              let element := set_b (matrix_create_add m1 K_o_G_im) element in
              let KS := matrix_create_multiply K S in
              let KT := matrix_create_transpose K in
              let KSKT := matrix_create_multiply KS KT in
              Ok (set_Z (matrix_create_subtract K_i KSKT) element)
            else
              let GF := matrix_create_multiply G_i F_i in
              let KGF := matrix_create_multiply K GF in
              let element := set_A (matrix_create_subtract F_i KGF) element in
              let G_ic := matrix_create_multiply G_i c_i in
              let o_G_ic := matrix_create_subtract o_i G_ic in
              let K_o_G_ic := matrix_create_multiply K o_G_ic in
              let element := set_b (matrix_create_add c_i K_o_G_ic) element in
              let KG := matrix_create_multiply K G_i in
              let KGK_i := matrix_create_multiply KG K_i in
              Ok (set_Z (matrix_create_subtract K_i KGK_i) element));
         let G_ic := matrix_create_multiply G_i c_i in
         let o_G_ic := matrix_create_subtract o_i G_ic in
         let FT := matrix_create_transpose F_i in
         let FTG := matrix_create_multiply FT G_i_trans_inv_S in
         let element := set_e (matrix_create_multiply FTG o_G_ic) element in
         let GF := matrix_create_multiply G_i F_i in
         Ok (set_J (matrix_create_multiply FTG GF) element));
    Ok (put elements i element).

(** [build_smoothing_element_new] *)
Definition build_smoothing_element_new (elements : list step_t)
  (n i : Z) : outcome (list step_t) :=
  step_i ← get elements i;
  if i =? n - 1 then
    let ni := dimension step_i in
    let step_i := set_E (Some (matrix_create_constant ni ni 0%float)) step_i in
    let step_i := set_g (matrix_create_copy (state step_i)) step_i in
    let step_i := set_L (matrix_create_copy (covariance step_i)) step_i in
    Ok (put elements i step_i)
  else
    let x := state step_i in
    let P := kalman_covariance_matrix_explicit (covariance step_i) "C" in
    step_ip1 ← get elements (i + 1);
    let F := F step_ip1 in
    let Q := kalman_covariance_matrix_explicit (K step_ip1) (K_type step_ip1) in
    let c := c step_ip1 in
    let FT := matrix_create_transpose F in
    let PFT := matrix_create_multiply P FT in
    let FPFT := matrix_create_multiply F PFT in
    let FPFT_Q := matrix_create_add FPFT Q in
    let PFT_T := matrix_create_transpose PFT in
    let FPFT_Q_T := matrix_create_transpose FPFT_Q in
    let E_T := matrix_create_mldivide FPFT_Q_T PFT_T in
    let E := matrix_create_transpose E_T in
    let step_i := set_E E step_i in
    let Fx := matrix_create_multiply F x in
    let Fx_c := matrix_create_add Fx c in
    let E_Fx_c := matrix_create_multiply E Fx_c in
    let step_i := set_g (matrix_create_subtract x E_Fx_c) step_i in
    let EF := matrix_create_multiply E F in
    let EFP := matrix_create_multiply EF P in
    let step_i := set_L (matrix_create_subtract P EFP) step_i in
    Ok (put elements i step_i).

(** The loop [for (j = start; j < end; j++) body(j)], [n] iterations. *)
Fixpoint for_range {S : Type} (body : S -> Z -> outcome S) (n : nat)
  (j : Z) (s : S) : outcome S :=
  match n with
  | O => Ok s
  | S n' => s ← body s j; for_range body n' (j + 1) s
  end.

(** [build_filtering_elements_new] *)
Definition build_filtering_elements_new (equations : list equations_t)
  (elements : list step_t) (l start end_ : Z) : outcome (list step_t) :=
  for_range (build_filtering_element_new equations) (Z.to_nat (end_ - start))
    start elements.

(** [build_smoothing_elements_new] *)
Definition build_smoothing_elements_new (elements : list step_t)
  (l start end_ : Z) : outcome (list step_t) :=
  for_range (fun elements j => build_smoothing_element_new elements l j)
    (Z.to_nat (end_ - start)) start elements.

(** [elements_init] over the whole range. *)
Definition elements_init (l : Z) : list step_t :=
  map (fun j => element_init (Z.of_nat j)) (seq 0 (Z.to_nat l)).

(** [filteringAssociativeOperation] *)
Definition filteringAssociativeOperation (si sj : option step_t)
  : outcome (option step_t) :=
  match si, sj with
  | None, _ => Ok sj
  | _, None => Ok si
  | Some si, Some sj =>
      sib ← nonnull (b si);
      let ni := matrix_rows sib in
      let eye_ni := Some (matrix_create_identity ni ni) in
      let siZ_sjJ := matrix_create_multiply (Z_ si) (J sj) in
      let eye_ni_plus_siZ_sjJ := matrix_create_add eye_ni siZ_sjJ in
      let AT := matrix_create_transpose (A sj) in
      let other_T := matrix_create_transpose eye_ni_plus_siZ_sjJ in
      let XT := matrix_create_mldivide other_T AT in
      let X := matrix_create_transpose XT in
      let sjJ_siZ := matrix_create_multiply (J sj) (Z_ si) in
      let eye_ni_plus_sjJ_siZ := matrix_create_add eye_ni sjJ_siZ in
      let other_T := matrix_create_transpose eye_ni_plus_sjJ_siZ in
      let YT := matrix_create_mldivide other_T (A si) in
      let Y := matrix_create_transpose YT in
      let sij := step_create in
      let sij := set_A (matrix_create_multiply X (A si)) sij in
      let siZ_sj_e := matrix_create_multiply (Z_ si) (e sj) in
      let siZ_sj_e_plus_si_b := matrix_create_add siZ_sj_e (b si) in
      let X_siZ_sj_e_plus_si_b := matrix_create_multiply X siZ_sj_e_plus_si_b in
      let sij := set_b (matrix_create_add X_siZ_sj_e_plus_si_b (b sj)) sij in
      let X_siZ := matrix_create_multiply X (Z_ si) in
      let A_jT := matrix_create_transpose (A sj) in
      let X_siZ_AT := matrix_create_multiply X_siZ A_jT in
      let sij := set_Z (matrix_create_add X_siZ_AT (Z_ sj)) sij in
      let sjJ_si_b := matrix_create_multiply (J sj) (b si) in
      let sj_e_minus_sjJ_si_b := matrix_create_subtract (e sj) sjJ_si_b in
      let Y_sj_e_minus_sjJ_si_b := matrix_create_multiply Y sj_e_minus_sjJ_si_b in
      let sij := set_e (matrix_create_add Y_sj_e_minus_sjJ_si_b (e si)) sij in
      let sjJ_siA := matrix_create_multiply (J sj) (A si) in
      let Y_sjJ_siA := matrix_create_multiply Y sjJ_siA in
      let sij := set_J (matrix_create_add Y_sjJ_siA (J si)) sij in
      Ok (Some sij)
  end.

(** [smoothingAssociativeOperation] *)
Definition smoothingAssociativeOperation (si sj : option step_t)
  : outcome (option step_t) :=
  match si, sj with
  | None, _ => Ok sj
  | _, None => Ok si
  | Some si, Some sj =>
      let sij := step_create in
      let sij := set_E (matrix_create_multiply (E sj) (E si)) sij in
      let Eg := matrix_create_multiply (E sj) (g si) in
      let sij := set_g (matrix_create_add Eg (g sj)) sij in
      let ET := matrix_create_transpose (E sj) in
      let EL := matrix_create_multiply (E sj) (L si) in
      let ELT := matrix_create_multiply EL ET in
      let sij := set_L (matrix_create_add ELT (L sj)) sij in
      Ok (Some sij)
  end.

(** Modelled from the spec: [prefix_sums_pointers] is absent; "inclusive
    scan with stride in {+1, -1}": output position [k] is the left fold of
    the first [k + 1] inputs taken in the direction of the stride, started
    from the null identity.  The sums are structures of their own, except
    the first one, which is the first input itself; the smoother only reads
    from it fields that it does not write afterwards. *)
Fixpoint scan_from (f : option step_t -> option step_t -> outcome (option step_t))
  (sum : option step_t) (input : list step_t) : outcome (list (option step_t)) :=
  match input with
  | [] => Ok []
  | x :: input =>
      sum ← f sum (Some x);
      sums ← scan_from f sum input;
      Ok (sum :: sums)
  end.

Definition prefix_sums_pointers
  (f : option step_t -> option step_t -> outcome (option step_t))
  (input : list step_t) (length stride : Z)
  : outcome (list (option step_t)) :=
  let input := take (Z.to_nat length) input in
  scan_from f None (if stride =? -1 then rev input else input).

(** [filtered_to_state_new] *)
Definition filtered_to_state_new (elements : list step_t)
  (filtered : list (option step_t)) (l start end_ : Z)
  : outcome (list step_t) :=
  for_range
    (fun elements j =>
       (* i runs from start beside j, which runs from start + 1 *)
       let i := j - 1 in
       step_j ← get elements j;
       filtered_i ← get filtered i;
       filtered_i ← nonnull filtered_i;
       let step_j := set_state (matrix_create_copy (b filtered_i)) step_j in
       let step_j := set_covariance (matrix_create_copy (Z_ filtered_i)) step_j in
       Ok (put elements j step_j))
    (Z.to_nat (end_ + 1 - (start + 1))) (start + 1) elements.

(** [smoothed_to_state_new] *)
Definition smoothed_to_state_new (equations : list equations_t)
  (smoothed : list (option step_t)) (l start end_ : Z)
  : outcome (list equations_t) :=
  for_range
    (fun equations j =>
       let i := l - 2 - j + 1 in
       equation ← get equations j;
       smoothed_i ← get smoothed i;
       smoothed_i ← nonnull smoothed_i;
       Ok (put equations j
             (StepEquations.set_estimate
                (matrix_create_copy (g smoothed_i))
                (matrix_create_copy (L smoothed_i)) "C" equation)))
    (Z.to_nat (end_ - start)) start equations.

(** [kalman_smooth_associative]; the serial [foreach_in_range] and
    [foreach_in_range_two] call their body once, on the whole range. *)
Definition kalman_smooth_associative (equations : list equations_t)
  (l : Z) : outcome (list equations_t) :=
  let elements := elements_init l in
  elements ← build_filtering_elements_new equations elements l 0 l;
  filtered ← prefix_sums_pointers filteringAssociativeOperation
               (drop 1 elements) (l - 1) 1;
  elements ← filtered_to_state_new elements filtered l 0 (l - 1);
  (* in the last step, the smoothed estimate is simply the filtered one,
     so copy now. *)
  last_equation ← get equations (l - 1);
  last_filtered ← get filtered (l - 2);
  last_filtered ← nonnull last_filtered;
  let equations :=
    put equations (l - 1)
      (StepEquations.set_estimate
         (matrix_create_copy (b last_filtered))
         (matrix_create_copy (L last_filtered)) "C" last_equation) in
  elements ← build_smoothing_elements_new elements l 0 l;
  smoothed ← prefix_sums_pointers smoothingAssociativeOperation elements l (-1);
  smoothed_to_state_new equations smoothed l 0 (l - 1).

End Smoother.

End Associative.

(** ** [evolve] of the MATLAB implementation ([UltimateKalman.m]) *)

(** The operators of MATLAB and of the class [CovarianceMatrix] (absent)
    that [evolve] applies to its blocks; they stay opaque. *)
Class MatlabOps : Type := {
  CovarianceMatrix : Type;
  weigh : CovarianceMatrix -> matrix_t -> matrix_t;   (* K_i.weigh(A) *)
  qr : matrix_t -> matrix_t * matrix_t;               (* [Q,R] = qr(A) *)
  mtimes : matrix_t -> matrix_t -> matrix_t;          (* A * B *)
  ctranspose : matrix_t -> matrix_t;                  (* A' *)
  vertcat : matrix_t -> matrix_t -> matrix_t          (* [A ; B] *)
}.

Module Matlab.

(** A struct of the cell array [kalman.steps]; a field that [isfield] does
    not find is [None]. *)
Record step_t : Type := {
  dimension : Z;
  step : Z;
  Rdiag : option matrix_t;
  Rsupdiag : option matrix_t;
  y : option matrix_t;
  Rbar : option matrix_t;
  ybar : option matrix_t;
  estimatedState : option matrix_t;
  estimatedCovariance : option matrix_t
}.

Record kalman_t : Type := {
  steps : list step_t;
  current : option step_t
}.

(** [[]] *)
Definition empty : matrix_t := matrix_create_constant 0 0 0%float.

Definition size (A : matrix_t) (dim : Z) : Z :=
  if dim =? 1 then row_dim A else col_dim A.

Definition isempty (A : matrix_t) : bool :=
  (row_dim A =? 0) || (col_dim A =? 0).

(** [length(v)]: the largest dimension, 0 for an empty array. *)
Definition length (A : matrix_t) : Z :=
  if isempty A then 0 else Z.max (row_dim A) (col_dim A).

Definition eye (n : Z) : matrix_t :=
  {| row_dim := Z.max 0 n; col_dim := Z.max 0 n;
     elements := fun i j => if i =? j then 1%float else 0%float |}.

Definition zeros (m n : Z) : matrix_t :=
  matrix_create_constant (Z.max 0 m) (Z.max 0 n) 0%float.

(** [[A B]] for blocks with as many rows. *)
Definition horzcat (A B : matrix_t) : matrix_t :=
  {| row_dim := row_dim A; col_dim := col_dim A + col_dim B;
     elements := fun i j =>
       if j <? col_dim A then elements A i j else elements B i (j - col_dim A) |}.

Definition uminus (A : matrix_t) : matrix_t :=
  {| row_dim := row_dim A; col_dim := col_dim A;
     elements := fun i j => (- elements A i j)%float |}.

(** [A(r1:r2,:)] and [A(r1:r2,1)], indices from 1. *)
Definition rows_of (A : matrix_t) (r1 r2 : Z) : matrix_t :=
  matrix_create_sub A (r1 - 1) (Z.max 0 (r2 - r1 + 1)) 0 (col_dim A).

Definition rows_of_column1 (A : matrix_t) (r1 r2 : Z) : matrix_t :=
  matrix_create_sub A (r1 - 1) (Z.max 0 (r2 - r1 + 1)) 0 1.

(** The block that [evolve] substitutes for an [H_i] whose row count is not
    that of [F_i]. *)
Definition default_H (l_i n_i : Z) : matrix_t :=
  if l_i =? n_i then eye l_i
  else horzcat (eye l_i) (zeros l_i (n_i - l_i)).

Section Evolve.
Context {MO : MatlabOps}.

(** [evolve(kalman,n_i,H_i,F_i,c_i,K_i)] *)
Definition evolve (kalman : kalman_t) (n_i : Z) (H_i F_i c_i : matrix_t)
  (K_i : CovarianceMatrix) : outcome kalman_t :=
  let cur :=
    {| dimension := n_i; step := 0; Rdiag := None; Rsupdiag := None;
       y := None; Rbar := None; ybar := None;
       estimatedState := None; estimatedCovariance := None |} in
  match last (steps kalman) with
  | None =>
      (* starting the first step *)
      Ok {| steps := steps kalman; current := Some cur |}
  | Some imo =>
      let cur :=
        {| dimension := n_i; step := step imo + 1; Rdiag := None;
           Rsupdiag := None; y := None; Rbar := None; ybar := None;
           estimatedState := None; estimatedCovariance := None |} in
      let n_imo := dimension imo in
      let l_i := size F_i 1 in
      let H_i :=
        if negb (size H_i 1 =? l_i) then
          (* this allows the user to pass [] for H *)
          (if l_i =? n_i then eye l_i
           else horzcat (eye l_i) (zeros l_i (n_i - l_i)))
        else H_i in
      let V_i_F_i := uminus (weigh K_i F_i) in
      let V_i_c_i := weigh K_i c_i in
      let V_i_H_i := weigh K_i H_i in
      '(A, B, y0) ←
        (match Rdiag imo with
         | Some Rd =>
             if negb (isempty Rd) then
               let z_i := size Rd 1 in
               imo_y ← nonnull (y imo);
               Ok (vertcat Rd V_i_F_i,
                   vertcat (zeros z_i n_i) V_i_H_i,
                   vertcat imo_y V_i_c_i)
             else Ok (V_i_F_i, V_i_H_i, V_i_c_i)
         | None => Ok (V_i_F_i, V_i_H_i, V_i_c_i)
         end);
      let '(Q, R) := qr A in
      let B := mtimes (ctranspose Q) B in
      let y0 := mtimes (ctranspose Q) y0 in
      let imo :=
        {| dimension := dimension imo; step := step imo;
           Rdiag := Some (rows_of R 1 (Z.min (size A 1) n_imo));
           Rsupdiag := Some (rows_of B 1 (Z.min (size B 1) n_imo));
           y := Some (rows_of_column1 y0 1 (Z.min (length y0) n_imo));
           Rbar := Rbar imo; ybar := ybar imo;
           estimatedState := estimatedState imo;
           estimatedCovariance := estimatedCovariance imo |} in
      (* block row i-1 is now sealed *)
      let cur :=
        if n_imo <? size B 1 then
          (* we have leftover rows that go into the Rbar *)
          {| dimension := dimension cur; step := step cur;
             Rdiag := None; Rsupdiag := None; y := None;
             Rbar := Some (rows_of B (n_imo + 1) (size B 1));
             ybar := Some (rows_of_column1 y0 (n_imo + 1) (size y0 1));
             estimatedState := None; estimatedCovariance := None |}
        else cur in
      Ok {| steps := removelast (steps kalman) ++ [imo]; current := Some cur |}
  end.

End Evolve.

(** [c{i}] for a cell array [c], indices from 1; an index outside the array
    is an error. *)
Definition cell {T : Type} (c : list T) (i : Z) : outcome T :=
  if i <? 1 then Fault OutOfRange
  else match c !! Z.to_nat (i - 1) with
       | Some x => Ok x
       | None => Fault OutOfRange
       end.

(** [{ c{a:b} }]: the empty cell array when the range [a:b] is empty, and
    otherwise the cells of the range, which must all exist. *)
Definition cells {T : Type} (c : list T) (a b : Z) : outcome (list T) :=
  if b <? a then Ok []
  else if (a <? 1) || (Z.of_nat (List.length c) <? b) then Fault OutOfRange
  else Ok (take (Z.to_nat (b - a + 1)) (drop (Z.to_nat (a - 1)) c)).

(** [UltimateKalman()]: the filter with no step; the property [current] has
    no value yet. *)
Definition UltimateKalman : kalman_t := {| steps := []; current := None |}.

(** [earliest(kalman)] *)
Definition earliest (kalman : kalman_t) : outcome Z :=
  match steps kalman with
  | [] => Ok (-1)
  | _ => s ← cell (steps kalman) 1; Ok (step s)
  end.

(** [latest(kalman)] *)
Definition latest (kalman : kalman_t) : outcome Z :=
  match steps kalman with
  | [] => Ok (-1)
  | _ => s ← cell (steps kalman) (Z.of_nat (List.length (steps kalman)));
         Ok (step s)
  end.

(** [forget(kalman,s)]; [s] is [None] when the argument is omitted
    ([nargin<2]). *)
Definition forget (kalman : kalman_t) (s : option Z) : outcome kalman_t :=
  let l := Z.of_nat (List.length (steps kalman)) in
  first ← cell (steps kalman) 1;
  let earliest := step first in
  let ptr_s :=
    match s with
    | None => l - 1
    | Some s => s - earliest + 1
    end in
  kept ← cells (steps kalman) (ptr_s + 1) l;
  Ok {| steps := kept; current := current kalman |}.

(** [rollback(kalman,s)]; reading a field that the struct does not have is
    an error. *)
Definition rollback (kalman : kalman_t) (s : Z) : outcome kalman_t :=
  let l := Z.of_nat (List.length (steps kalman)) in
  first ← cell (steps kalman) 1;
  let earliest := step first in
  let ptr_s := s - earliest + 1 in
  if (l <? ptr_s) || (ptr_s <? 1) then
    (* warning('cannot roll back to this state (too old or future') *)
    Ok kalman
  else
    st ← cell (steps kalman) ptr_s;
    Rbar_s ← nonnull (Rbar st);
    ybar_s ← nonnull (ybar st);
    let cur :=
      {| dimension := dimension st; step := step st; Rdiag := None;
         Rsupdiag := None; y := None; Rbar := Some Rbar_s; ybar := Some ybar_s;
         estimatedState := None; estimatedCovariance := None |} in
    kept ← cells (steps kalman) 1 (ptr_s - 1);
    Ok {| steps := kept; current := Some cur |}.

(** The operators of [observe] that [evolve] does not use; as the others,
    they stay opaque. *)
Class ObserveOps : Type := {
  qr_econ : matrix_t -> matrix_t * matrix_t;          (* [Q,R] = qr(A,0) *)
  mldivide : matrix_t -> matrix_t -> matrix_t         (* A \ B *)
}.

(** [A(1:r,1:c)]: an index beyond the rows or the columns of [A] is an
    error. *)
Definition leading (A : matrix_t) (r c : Z) : outcome matrix_t :=
  if (row_dim A <? r) || (col_dim A <? c) then Fault OutOfRange
  else Ok (matrix_create_sub A 0 (Z.max 0 r) 0 (Z.max 0 c)).

Section Observe.
Context {MO : MatlabOps} {OO : ObserveOps}.

(** [observe(kalman,G_i,o_i,C_i)]; [args] is [None] when the call has fewer
    than four arguments ([nargin<4]).  [kalman.current] is a struct: reading
    a field that it does not have is an error.  The object
    [CovarianceMatrix(R,'W')] is kept as the factor [R] that it wraps. *)
Definition observe (kalman : kalman_t)
  (args : option (matrix_t * matrix_t * CovarianceMatrix)) : outcome kalman_t :=
  cur ← nonnull (current kalman);
  let n_i := dimension cur in
  let observations :=
    match args with
    | Some (G_i, o_i, C_i) => if isempty o_i then None else Some (G_i, o_i, C_i)
    | None => None
    end in
  let Rbar_rows :=
    match Rbar cur with
    | Some Rb => if negb (isempty Rb) then Some Rb else None
    | None => None
    end in
  '(Rdiag_i, y_i) ←
    (match observations with
     | None =>
         (* no observations, pass [] *)
         match Rbar_rows with
         | Some Rb =>
             let '(Q, R) := qr Rb in
             ybar_i ← nonnull (ybar cur);
             Ok (Some R, Some (mtimes (ctranspose Q) ybar_i))
         | None => Ok (Rdiag cur, y cur)
         end
     | Some (G_i, o_i, C_i) =>
         let W_i_G_i := weigh C_i G_i in
         let W_i_o_i := weigh C_i o_i in
         match Rbar_rows with
         | Some Rb =>
             let '(Q, R) := qr_econ (vertcat Rb W_i_G_i) in   (* thin QR *)
             ybar_i ← nonnull (ybar cur);
             Ok (Some R, Some (mtimes (ctranspose Q) (vertcat ybar_i W_i_o_i)))
         | None =>
             (* no Rdiag yet *)
             let RdiagRowDim := Z.min n_i (size W_i_G_i 1) in
             let '(Q, R) := qr W_i_G_i in
             Rd ← leading R RdiagRowDim n_i;
             let y0 := mtimes (ctranspose Q) W_i_o_i in
             y1 ← leading y0 RdiagRowDim 1;
             Ok (Some Rd, Some y1)
         end
     end);
  Rd ← nonnull Rdiag_i;
  '(estimatedState_i, estimatedCovariance_i) ←
    (if size Rd 1 =? dimension cur then
       yv ← nonnull y_i;
       Ok (Some (mldivide Rd yv), Some Rd)
     else Ok (estimatedState cur, estimatedCovariance cur));
  let cur :=
    {| dimension := dimension cur; step := step cur;
       Rdiag := Rdiag_i; Rsupdiag := Rsupdiag cur; y := y_i;
       Rbar := Rbar cur; ybar := ybar cur;
       estimatedState := estimatedState_i;
       estimatedCovariance := estimatedCovariance_i |} in
  Ok {| steps := steps kalman ++ [cur]; current := Some cur |}.

End Observe.

(** The steps in memory carry consecutive numbers. *)
Definition consecutive (c : list step_t) : Prop :=
  forall (i : nat) (s0 s : step_t),
    c !! 0%nat = Some s0 -> c !! i = Some s -> step s = step s0 + Z.of_nat i.

Fixpoint consecutive_from (e : Z) (c : list step_t) : bool :=
  match c with
  | [] => true
  | s :: c => (step s =? e) && consecutive_from (e + 1) c
  end.

(** A call of [observe] that brings no observations: fewer than four
    arguments, or an empty [o_i]. *)
Definition unobserved `{MO : MatlabOps}
  (args : option (matrix_t * matrix_t * CovarianceMatrix)) : Prop :=
  match args with
  | None => True
  | Some (_, o_i, _) => isempty o_i = true
  end.

End Matlab.

(** ** A reference kernel for blocks that are already upper triangular

    On a block whose part below the diagonal is zero LAPACK's [dgeqrf] finds
    nothing to eliminate: every reflector is the identity (tau = 0), R is
    the block itself and Q^T leaves its argument alone.  [dgemm] and
    [dtrtrs] are the textbook loops over binary64 numbers.  The concrete
    runs below only factor such blocks. *)

Definition sum_range (f : Z -> float) (lo : Z) (n : nat) : float :=
  fold_left (fun acc l => (acc + f (lo + Z.of_nat l)%Z)%float) (seq 0 n) 0%float.

Definition gemm_loops (alpha : float) (A B : matrix_t) (beta : float)
  (C : matrix_t) : matrix_t :=
  {| row_dim := row_dim C; col_dim := col_dim C;
     elements := fun i j =>
       let ab := sum_range (fun l => (elements A i l * elements B l j)%float)
                   0 (Z.to_nat (col_dim A)) in
       if (beta =? 0)%float then (alpha * ab)%float
       else (alpha * ab + beta * elements C i j)%float |}.

(** Rows [k-1], ..., [0] of the solution of R x = b, the rows below being
    in [x] already. *)
Fixpoint back_substitute (R : matrix_t) (b : Z -> float) (N : Z) (k : nat)
  (x : Z -> float) : Z -> float :=
  match k with
  | O => x
  | S k' =>
      let i := Z.of_nat k' in
      let s := sum_range (fun l => (elements R i l * x l)%float)
                 (i + 1)%Z (Z.to_nat (N - i - 1)) in
      let xi := ((b i - s) / elements R i i)%float in
      back_substitute R b N k' (fun r => if r =? i then xi else x r)
  end.

Definition trisolve_loops (R B : matrix_t) : matrix_t :=
  {| row_dim := row_dim B; col_dim := col_dim B;
     elements := fun i j =>
       back_substitute R (fun r => elements B r j) (col_dim R)
         (Z.to_nat (col_dim R)) (fun _ => 0%float) i |}.

Definition upper_lapack : Lapack := {|
  dgeqrf := fun A =>
    (A, matrix_create_constant (Z.min (row_dim A) (col_dim A)) 1 0%float);
  dormqr := fun _ _ B => B;
  dtrtrs := trisolve_loops;
  dgemm := gemm_loops
|}.

(** A reference kernel of the associative smoother for diagonal systems:
    the inverse and the left division are those of a diagonal matrix, and an
    operation on a NULL matrix gives NULL. *)

Definition lift2 (f : matrix_t -> matrix_t -> matrix_t)
  (A B : option matrix_t) : option matrix_t :=
  match A, B with
  | Some a, Some b => Some (f a b)
  | _, _ => None
  end.

Definition transpose_loops (A : matrix_t) : matrix_t :=
  {| row_dim := col_dim A; col_dim := row_dim A;
     elements := fun i j => elements A j i |}.

Definition multiply_loops (A B : matrix_t) : matrix_t :=
  gemm_loops 1%float A B 0%float
    (matrix_create_constant (row_dim A) (col_dim B) 0%float).

Definition add_loops (A B : matrix_t) : matrix_t :=
  {| row_dim := row_dim A; col_dim := col_dim A;
     elements := fun i j => (elements A i j + elements B i j)%float |}.

Definition subtract_loops (A B : matrix_t) : matrix_t :=
  {| row_dim := row_dim A; col_dim := col_dim A;
     elements := fun i j => (elements A i j - elements B i j)%float |}.

Definition diagonal_inverse (A : matrix_t) : matrix_t :=
  {| row_dim := row_dim A; col_dim := col_dim A;
     elements := fun i j =>
       if i =? j then (1 / elements A i i)%float else 0%float |}.

Definition diagonal_mldivide (A B : matrix_t) : matrix_t :=
  {| row_dim := col_dim A; col_dim := col_dim B;
     elements := fun i j => (elements B i j / elements A i i)%float |}.

Definition diagonal_explicit (K : option matrix_t) (K_type : ascii)
  : option matrix_t :=
  if Ascii.eqb K_type "C" then K
  else if Ascii.eqb K_type "W" then
    option_map (fun K => diagonal_inverse (multiply_loops (transpose_loops K) K)) K
  else None.

Definition diagonal_weigh (K : option matrix_t) (K_type : ascii)
  (A : option matrix_t) : option matrix_t :=
  if Ascii.eqb K_type "W" then lift2 multiply_loops K A
  else if Ascii.eqb K_type "C" then
    lift2 (fun K A =>
             {| row_dim := row_dim A; col_dim := col_dim A;
                elements := fun i j =>
                  (elements A i j / sqrt (elements K i i))%float |}) K A
  else None.

Definition diagonal_dense : Dense := {|
  kalman_covariance_matrix_weigh := diagonal_weigh;
  kalman_covariance_matrix_explicit := diagonal_explicit;
  matrix_create_transpose := option_map transpose_loops;
  matrix_create_inverse := option_map diagonal_inverse;
  matrix_create_multiply := lift2 multiply_loops;
  matrix_create_add := lift2 add_loops;
  matrix_create_subtract := lift2 subtract_loops;
  matrix_create_mldivide := lift2 diagonal_mldivide;
  matrix_create_mutate_qr' := fun A =>
    (A, option_map
          (fun A => matrix_create_constant (Z.min (row_dim A) (col_dim A)) 1 0%float)
          A);
  matrix_mutate_apply_qt' := fun _ _ B => B;
  matrix_mutate_triu' := option_map matrix_mutate_triu;
  matrix_create_trisolve' := lift2 trisolve_loops
|}.

(** The MATLAB operators on blocks that are already upper triangular, a
    covariance being given by its weight matrix. *)
Definition upper_matlab : MatlabOps := {|
  CovarianceMatrix := matrix_t;
  weigh := multiply_loops;
  qr := fun A =>
    ({| row_dim := row_dim A; col_dim := row_dim A;
        elements := fun i j => if i =? j then 1%float else 0%float |}, A);
  mtimes := multiply_loops;
  ctranspose := transpose_loops;
  vertcat := fun A B =>
    {| row_dim := row_dim A + row_dim B; col_dim := col_dim B;
       elements := fun i j =>
         if i <? row_dim A then elements A i j else elements B (i - row_dim A) j |}
|}.

(** ** Driving the filter *)

Module Driver.
Import Ultimate.

Inductive call : Type :=
| Evolve (n_i : Z) (H_i F_i c_i K_i : option matrix_t) (K_type : ascii)
| Observe (G_i o_i C_i : option matrix_t) (C_type : ascii)
| Smooth
| Forget (si : Z)
| Rollback (si : Z).

Definition do_call `{LA : Lapack} (c : call) (kalman : kalman_t)
  : outcome kalman_t :=
  match c with
  | Evolve n_i H_i F_i c_i K_i K_type =>
      kalman_evolve kalman n_i H_i F_i c_i K_i K_type
  | Observe G_i o_i C_i C_type => kalman_observe kalman G_i o_i C_i C_type
  | Smooth => kalman_smooth kalman
  | Forget si => kalman_forget kalman si
  | Rollback si => kalman_rollback kalman si
  end.

Fixpoint run `{LA : Lapack} (cs : list call) (kalman : kalman_t)
  : outcome kalman_t :=
  match cs with
  | [] => Ok kalman
  | c :: cs => kalman ← do_call c kalman; run cs kalman
  end.

(** One-dimensional blocks. *)
Definition scalar (v : float) : option matrix_t :=
  Some (matrix_create_constant 1 1 v).

(** A one-dimensional step that does not depend on the previous state:
    u_i = c + noise (H = 1, F = 0), unit diagonal weight. *)
Definition evolve1 (c : float) : call :=
  Evolve 1 (scalar 1) (scalar 0) (scalar c) (scalar 1) "w".

(** An observation o = u_i + noise with unit diagonal weight. *)
Definition observe1 (o : float) : call :=
  Observe (scalar 1) (scalar o) (scalar 1) "w".

Definition observe_nothing : call := Observe None None None "w".

End Driver.

(** ** Properties of engine states *)

Module Props.
Import Ultimate.

(** The step log is consistent: the element at position [j] is a live step
    whose logical index is [first + j]. *)
Definition indexed (kalman : kalman_t) : Prop :=
  forall (j : nat) (p : addr),
    elems (steps kalman) !! j = Some p ->
    exists s, heap kalman !! p = Some (Some s) /\
              step s = first (steps kalman) + Z.of_nat j.

(** The step that the log holds under the logical index [si]. *)
Definition step_at (kalman : kalman_t) (si : Z) : option step_t :=
  match farray_get (steps kalman) si with
  | Ok p => match heap kalman !! p with
            | Some (Some s) => Some s
            | _ => None
            end
  | Fault _ => None
  end.

Definition is_live (s : slot) : bool :=
  match s with Live _ => true | _ => false end.

Definition is_freed (s : slot) : bool :=
  match s with Freed => true | _ => false end.

(** None of the blocks that [kalman_rollback] releases dangles. *)
Definition releasable (s : step_t) : Prop :=
  is_freed (Rdiag s) = false /\ is_freed (Rsupdiag s) = false /\
  is_freed (y s) = false /\ is_freed (state s) = false /\
  is_freed (covariance s) = false.

(** No block of the step dangles: [step_free] can release it. *)
Definition freeable (s : step_t) : Prop :=
  releasable s /\ is_freed (Rbar s) = false /\ is_freed (ybar s) = false.

(** A step that holds none of the blocks [kalman_observe] and the next
    [kalman_evolve] seal, as after its own [kalman_evolve]. *)
Definition unsealed (s : step_t) : Prop :=
  is_live (Rdiag s) = false /\ is_live (Rsupdiag s) = false /\
  is_live (y s) = false /\ is_live (state s) = false /\
  is_live (covariance s) = false.




(** What [kalman_rollback] makes of the step it rolls back to. *)
Definition rolled_back (s : step_t) : outcome step_t :=
  c1 ← matrix_free (Rdiag s);
  c2 ← matrix_free (Rsupdiag s);
  c3 ← matrix_free (y s);
  c4 ← matrix_free (state s);
  c5 ← matrix_free (covariance s);
  Ok (set_covariance c5 (set_state c4 (set_y c3 (set_Rsupdiag c2 (set_Rdiag c1 s))))).

(** The matrix that the state pass of [kalman_smooth] overwrites in a step:
    the state the step holds, or the one the pass creates. *)
Definition state_buffer (s : step_t) (yv : matrix_t) : matrix_t :=
  match state s with
  | Live st => st
  | _ => matrix_create (matrix_rows yv) 1
  end.

(** A step that [kalman_smooth] can process: its sealed blocks are there
    and nothing it releases or overwrites dangles. *)
Definition smoothable (is_last : bool) (s : step_t) : Prop :=
  is_live (Rdiag s) = true /\ is_live (y s) = true /\
  is_freed (state s) = false /\
  (is_last = false ->
   is_live (Rsupdiag s) = true /\ is_freed (covariance s) = false).

(** The state of the step has the shape of its right-hand side [y]. *)
Definition state_fits (s : step_t) : Prop :=
  forall yv, y s = Live yv ->
    row_dim (state_buffer s yv) = row_dim yv /\
    col_dim (state_buffer s yv) = col_dim yv.

Section Smoothing.
Context {LA : Lapack}.

(** The state that the state pass leaves in a step with blocks [Rd] and
    [yv]; [next] is [None] for the latest step and otherwise holds the
    block [Rsupdiag] of the step and the new state of the step after it. *)
Definition smoothed_state (s : step_t) (Rd yv : matrix_t)
  (next : option (matrix_t * matrix_t)) : matrix_t :=
  let st := matrix_mutate_copy (state_buffer s yv) yv in
  matrix_mutate_trisolve Rd
    (match next with
     | None => st
     | Some (Rs, pv) => matrix_mutate_gemm (-1)%float Rs pv 1%float st
     end).

(** The factor that the covariance pass leaves in a step before the latest:
    [Rv] is the running factor R and [n_ipo] the row count of the diagonal
    block of the step after it. *)
Definition smoothed_covariance (Rsup : matrix_t) (Rv Rd : matrix_t)
  (n_ipo : Z) : matrix_t :=
  let A := {| row_dim := row_dim Rsup + row_dim Rv; col_dim := col_dim Rsup;
              elements := fun i j =>
                if i <? row_dim Rsup then elements Rsup i j
                else elements Rv (i - row_dim Rsup) j |} in
  let S := {| row_dim := row_dim Rd + matrix_rows Rv; col_dim := col_dim Rd;
              elements := fun i j =>
                if i <? row_dim Rd then elements Rd i j else 0%float |} in
  let A' := (matrix_create_mutate_qr A).1 in
  let TAU := (matrix_create_mutate_qr A).2 in
  matrix_create_sub (matrix_mutate_apply_qt A' TAU S) n_ipo (matrix_rows Rd)
    0 (matrix_rows Rd).

(** How the state pass links a step to the one after it: [next] is [None]
    for the latest step of the log [l], and otherwise pairs the block
    [Rsupdiag] of the step with the state that the heap [h'] holds for the
    following step. *)
Definition next_of (l : list addr) (h' : heap_t) (j : nat) (s : step_t)
  (next : option (matrix_t * matrix_t)) : Prop :=
  match l !! S j with
  | None => next = None
  | Some p1 =>
      exists Rs s1 pv,
        Rsupdiag s = Live Rs /\ h' !! p1 = Some (Some s1) /\
        state s1 = Live pv /\ next = Some (Rs, pv)
  end.

(** The covariance slot [c] that the covariance pass leaves in the step at
    position [j]: untouched for the latest step, and otherwise computed
    from the step after it as the heap [h'] holds it. *)
Definition cov_of (l : list addr) (h' : heap_t) (j : nat) (s : step_t)
  (c : slot) : Prop :=
  match l !! S j with
  | None => c = covariance s
  | Some p1 =>
      exists Rd Rs s1 Rd1 Rv,
        Rdiag s = Live Rd /\ Rsupdiag s = Live Rs /\
        h' !! p1 = Some (Some s1) /\ Rdiag s1 = Live Rd1 /\
        match l !! S (S j) with
        | None => Rv = Rd1
        | Some _ => covariance s1 = Live Rv
        end /\
        c = Live (smoothed_covariance Rs Rv Rd (matrix_rows Rd1))
  end.

End Smoothing.

(** The state a run of calls leaves, when every call returns. *)
Definition after `{LA : Lapack} (cs : list Driver.call) : kalman_t :=
  match Driver.run cs kalman_create with
  | Ok kalman => kalman
  | Fault _ => kalman_create
  end.

(** [indexed], as a check on a given state. *)
Definition indexedb (kalman : kalman_t) : bool :=
  forallb
    (fun jp : nat * addr =>
       match heap kalman !! jp.2 with
       | Some (Some s) => step s =? first (steps kalman) + Z.of_nat jp.1
       | _ => false
       end)
    (imap pair (elems (steps kalman))).

(** A check of every step of the log, with its logical index. *)
Definition steps_check (kalman : kalman_t) (chk : Z -> step_t -> bool) : bool :=
  forallb
    (fun jp : nat * addr =>
       match heap kalman !! jp.2 with
       | Some (Some s) => chk (first (steps kalman) + Z.of_nat jp.1) s
       | _ => true
       end)
    (imap pair (elems (steps kalman))).

Definition smoothableb (is_last : bool) (s : step_t) : bool :=
  is_live (Rdiag s) && is_live (y s) && negb (is_freed (state s)) &&
  (is_last || (is_live (Rsupdiag s) && negb (is_freed (covariance s)))).

Definition state_fitsb (s : step_t) : bool :=
  match y s with
  | Live yv => (row_dim (state_buffer s yv) =? row_dim yv) &&
               (col_dim (state_buffer s yv) =? col_dim yv)
  | _ => true
  end.

Definition freeableb (s : step_t) : bool :=
  negb (is_freed (Rdiag s)) && negb (is_freed (Rsupdiag s)) &&
  negb (is_freed (y s)) && negb (is_freed (state s)) &&
  negb (is_freed (covariance s)) && negb (is_freed (Rbar s)) &&
  negb (is_freed (ybar s)).

(** The step of index [si], for a log that holds it. *)
Definition step_of (kalman : kalman_t) (si : Z) : step_t :=
  match step_at kalman si with
  | Some s => s
  | None => step_create
  end.

(** The matrix a live slot holds. *)
Definition block (c : slot) : matrix_t :=
  match c with
  | Live m => m
  | _ => matrix_create 0 0
  end.

End Props.

(** ** Concrete runs

    One-dimensional filters whose blocks stay upper triangular: step 0 is
    observed, the later steps do not depend on the step before them (F = 0)
    and are not observed. *)

Module Runs.
Import Ultimate Driver Props.

Definition first_evolve : list call := [Evolve 1 None None None None "w"].

Definition one_step : list call := first_evolve ++ [observe1 3].

Definition two_steps : list call := one_step ++ [evolve1 1; observe_nothing].

Definition three_steps : list call := two_steps ++ [evolve1 2; observe_nothing].

(** The states these runs leave with the reference kernel. *)
Definition evolved : kalman_t := @after upper_lapack first_evolve.
Definition one : kalman_t := @after upper_lapack one_step.
Definition two : kalman_t := @after upper_lapack two_steps.
Definition three : kalman_t := @after upper_lapack three_steps.

(** A two-dimensional step 0 that is evolved and not yet observed. *)
Definition evolved2 : kalman_t :=
  @after upper_lapack [Evolve 2 None None None None "w"].

(** Three steps, then a rollback to step 1, then an observation of it. *)
Definition reopened : kalman_t := @after upper_lapack (three_steps ++ [Rollback 1]).

Definition resealed : kalman_t :=
  @after upper_lapack (three_steps ++ [Rollback 1; observe_nothing]).






(** Two one-dimensional step equations for the associative smoother, each
    with an observation. *)
Definition equation0 : StepEquations.kalman_step_equations_t :=
  {| StepEquations.step := 0; StepEquations.dimension := 1;
     StepEquations.H := None; StepEquations.F := None;
     StepEquations.c := None; StepEquations.K := None;
     StepEquations.K_type := "W";
     StepEquations.G := scalar 1; StepEquations.o := scalar 3;
     StepEquations.C := scalar 1; StepEquations.C_type := "W";
     StepEquations.state := None; StepEquations.covariance := None;
     StepEquations.covariance_type := Ascii.zero |}.

Definition equation1 : StepEquations.kalman_step_equations_t :=
  {| StepEquations.step := 1; StepEquations.dimension := 1;
     StepEquations.H := scalar 1; StepEquations.F := scalar 1;
     StepEquations.c := scalar 0; StepEquations.K := scalar 1;
     StepEquations.K_type := "W";
     StepEquations.G := scalar 1; StepEquations.o := scalar 5;
     StepEquations.C := scalar 1; StepEquations.C_type := "W";
     StepEquations.state := None; StepEquations.covariance := None;
     StepEquations.covariance_type := Ascii.zero |}.

Definition equations2 : list StepEquations.kalman_step_equations_t :=
  [equation0; equation1].

(** What the associative smoother returns for them. *)
Definition smoothed2 : list StepEquations.kalman_step_equations_t :=
  match @Associative.kalman_smooth_associative diagonal_dense equations2 2 with
  | Ok r => r
  | Fault _ => []
  end.

(** A MATLAB filter that holds one step. *)
Definition matlab_one : Matlab.kalman_t :=
  {| Matlab.steps :=
       [{| Matlab.dimension := 1; Matlab.step := 0;
           Matlab.Rdiag := None; Matlab.Rsupdiag := None; Matlab.y := None;
           Matlab.Rbar := None; Matlab.ybar := None;
           Matlab.estimatedState := None;
           Matlab.estimatedCovariance := None |}];
     Matlab.current := None |}.

End Runs.

(** The array [filtered] of [kalman_smooth_associative]: the forward scan of
    the filtering elements. *)
Definition filtered_elements `{DK : Dense}
  (equations : list StepEquations.kalman_step_equations_t) (l : Z)
  : outcome (list (option Associative.step_t)) :=
  elements ← Associative.build_filtering_elements_new equations
                (Associative.elements_init l) l 0 l;
  Associative.prefix_sums_pointers Associative.filteringAssociativeOperation
    (drop 1 elements) (l - 1) 1.

(** An element whose smoothing covariance [L] was never assigned. *)
Definition no_L (s : Associative.step_t) : Prop := Associative.L s = None.

(** The array [smoothed] of [kalman_smooth_associative]: the backward scan
    of the smoothing elements. *)
Definition smoothed_elements `{DK : Dense}
  (equations : list StepEquations.kalman_step_equations_t) (l : Z)
  : outcome (list (option Associative.step_t)) :=
  elements ← Associative.build_filtering_elements_new equations
                (Associative.elements_init l) l 0 l;
  filtered ← Associative.prefix_sums_pointers
               Associative.filteringAssociativeOperation (drop 1 elements) (l - 1) 1;
  elements ← Associative.filtered_to_state_new elements filtered l 0 (l - 1);
  elements ← Associative.build_smoothing_elements_new elements l 0 l;
  Associative.prefix_sums_pointers Associative.smoothingAssociativeOperation
    elements l (-1).

(** What [kalman_observe] makes of the current step [cur]: the part of the
    function between the load of [kalman->current] and the append. *)
Definition sealed_by `{LA : Lapack} (cur : Ultimate.step_t)
  (G_i o_i C_i : option matrix_t) (C_type : ascii) : outcome Ultimate.step_t :=
  let n_i := Ultimate.dimension cur in
  '(W_i_G_i, W_i_o_i) ←
    (if bool_decide (is_Some o_i) then
       WG ← cov_weigh C_i C_type G_i;
       Wo ← cov_weigh C_i C_type o_i;
       Ok (Some WG, Some Wo)
     else Ok (None, None));
  Rbar_p ← Ultimate.arg (Ultimate.Rbar cur);
  ybar_p ← Ultimate.arg (Ultimate.ybar cur);
  let A := matrix_create_vconcat Rbar_p W_i_G_i in
  let y0 := matrix_create_vconcat ybar_p W_i_o_i in
  match A with
  | Some A =>
      '(Rd, y1) ←
        (if matrix_cols A <=? matrix_rows A then
           y1 ← nonnull y0;
           let '(A, TAU) := matrix_create_mutate_qr A in
           let y1 := matrix_mutate_apply_qt A TAU y1 in
           let A :=
             matrix_mutate_chop A (Z.min (matrix_rows A) n_i) (matrix_cols A) in
           let y1 :=
             matrix_mutate_chop y1 (Z.min (matrix_rows y1) n_i) (matrix_cols y1) in
           Ok (matrix_mutate_triu A, Some y1)
         else Ok (A, y0));
      state ←
        (if matrix_rows Rd =? n_i then
           y1 ← nonnull y1;
           Ok (matrix_create_trisolve Rd y1)
         else Ok (matrix_create_constant n_i 1 NaN));
      Ok (Ultimate.set_covariance (Ultimate.to_slot (matrix_create_copy (Some Rd)))
            (Ultimate.set_state (Ultimate.Live state)
               (Ultimate.set_y (Ultimate.to_slot y1)
                  (Ultimate.set_Rdiag (Ultimate.Live Rd) cur))))
  | None => Ok cur
  end.

(** Two versions of a step that differ at most in the blocks that the next
    [kalman_evolve] seals again ([Rdiag], [Rsupdiag] and [y]). *)
Definition resealed_from (c c' : Ultimate.step_t) : Prop :=
  Ultimate.step c' = Ultimate.step c /\
  Ultimate.dimension c' = Ultimate.dimension c /\
  Ultimate.state c' = Ultimate.state c /\
  Ultimate.covariance c' = Ultimate.covariance c /\
  Ultimate.Rbar c' = Ultimate.Rbar c /\
  Ultimate.ybar c' = Ultimate.ybar c.

(** Two versions of a step that differ at most in its state and its
    covariance. *)
Definition same_blocks (c c' : Ultimate.step_t) : Prop :=
  Ultimate.step c' = Ultimate.step c /\
  Ultimate.dimension c' = Ultimate.dimension c /\
  Ultimate.Rdiag c' = Ultimate.Rdiag c /\
  Ultimate.Rsupdiag c' = Ultimate.Rsupdiag c /\
  Ultimate.y c' = Ultimate.y c /\
  Ultimate.Rbar c' = Ultimate.Rbar c /\
  Ultimate.ybar c' = Ultimate.ybar c.

(** The heap [h'] holds the steps of [h], at the same addresses, with at
    most their states and covariances changed. *)
Definition only_estimates_differ (h h' : Ultimate.heap_t) : Prop :=
  length h' = length h /\
  forall p : Ultimate.addr,
    match h !! p with
    | Some (Some c) => exists c', h' !! p = Some (Some c') /\ same_blocks c c'
    | _ => h' !! p = h !! p
    end.

(** ** Sessions of the driver

    The calls in the groups in which the example program makes them: a step
    is a [kalman_evolve] followed by its [kalman_observe]; a step that was
    only predicted is observed again after a [kalman_rollback]. *)
Module Session.
Import Ultimate Driver.

Inductive op : Type :=
| Advance (n_i : Z) (H_i F_i c_i K_i : option matrix_t) (K_type : ascii)
    (G_i o_i C_i : option matrix_t) (C_type : ascii)
| Reobserve (si : Z) (G_i o_i C_i : option matrix_t) (C_type : ascii)
| Smoothing
| Forgetting (si : Z).

Definition calls (o : op) : list call :=
  match o with
  | Advance n_i H_i F_i c_i K_i K_type G_i o_i C_i C_type =>
      [Evolve n_i H_i F_i c_i K_i K_type; Observe G_i o_i C_i C_type]
  | Reobserve si G_i o_i C_i C_type => [Rollback si; Observe G_i o_i C_i C_type]
  | Smoothing => [Smooth]
  | Forgetting si => [Forget si]
  end.

Definition session (ops : list op) : list call := concat (map calls ops).

(** The window (earliest, latest) of the log after an operation, from the
    window before it; (-1, -1) stands for the empty log.  A step can only be
    observed again when it is in the window. *)
Definition track (w : Z * Z) (o : op) : option (Z * Z) :=
  let '(e, l) := w in
  match o with
  | Advance _ _ _ _ _ _ _ _ _ _ =>
      Some (if l =? -1 then (0, 0) else (e, l + 1))
  | Reobserve si _ _ _ _ =>
      if (0 <=? l) && (e <=? si) && (si <=? l) then Some (e, si) else None
  | Smoothing => Some w
  | Forgetting si =>
      Some (if l =? -1 then w
            else if si <? 0 then (l, l)
            else if (e <=? si) && (si <? l) then (si + 1, l)
            else w)
  end.

(** The steps that only advance the filter. *)
Definition is_advance (o : op) : bool :=
  match o with
  | Advance _ _ _ _ _ _ _ _ _ _ => true
  | _ => false
  end.

Fixpoint windows (w : Z * Z) (ops : list op) : option (Z * Z) :=
  match ops with
  | [] => Some w
  | o :: ops =>
      match track w o with
      | Some w => windows w ops
      | None => None
      end
  end.

End Session.

(** ** The example program ([main], the rotation example) *)
Module Rotation.

(** A C string: the characters before its terminating NUL. *)
Definition c_string : Type := list ascii.

Definition is_c_string (s : c_string) : Prop := Ascii.zero ∉ s.

Definition strlen (s : c_string) : Z := Z.of_nat (length s).

(** [strncmp(s1, s2, n)]: the difference of the first two characters that
    differ among the first [n], the end of a string counting as NUL; only
    its sign is fixed by the C standard. *)
Fixpoint strncmp (s1 s2 : c_string) (n : nat) : Z :=
  match n with
  | O => 0
  | S n' =>
      match s1, s2 with
      | [], [] => 0
      | [], c2 :: _ => - Z.of_N (N_of_ascii c2)
      | c1 :: _, [] => Z.of_N (N_of_ascii c1)
      | c1 :: r1, c2 :: r2 =>
          if Ascii.eqb c1 c2 then strncmp r1 r2 n'
          else Z.of_N (N_of_ascii c1) - Z.of_N (N_of_ascii c2)
      end
  end.

(** [streq]; its [printf] calls are left out. *)
Definition streq (constant value : c_string) : Z :=
  let l := strlen constant in
  if (strncmp constant value (Z.to_nat l) =? 0) && (strlen value =? l) then 1
  else 0.

(** Modelled from the spec: the header that declares [kalman_options_t] is
    absent; "algorithm in {ULTIMATE, CONVENTIONAL, ODDEVEN, ASSOCIATIVE}". *)
Inductive kalman_options_t : Type :=
| KALMAN_ALGORITHM_ULTIMATE
| KALMAN_ALGORITHM_CONVENTIONAL
| KALMAN_ALGORITHM_ODDEVEN
| KALMAN_ALGORITHM_ASSOCIATIVE.

Definition ultimate_name : c_string :=
  ["u"; "l"; "t"; "i"; "m"; "a"; "t"; "e"]%char.
Definition conventional_name : c_string :=
  ["c"; "o"; "n"; "v"; "e"; "n"; "t"; "i"; "o"; "n"; "a"; "l"]%char.
Definition oddeven_name : c_string :=
  ["o"; "d"; "d"; "e"; "v"; "e"; "n"]%char.
Definition associative_name : c_string :=
  ["a"; "s"; "s"; "o"; "c"; "i"; "a"; "t"; "i"; "v"; "e"]%char.

(** The choice of [options] in [main], from the value of the parameter
    [algorithm]. *)
Definition options_of (algorithm : c_string) : kalman_options_t :=
  let options := KALMAN_ALGORITHM_ULTIMATE in
  let options :=
    if negb (streq ultimate_name algorithm =? 0)
    then KALMAN_ALGORITHM_ULTIMATE else options in
  let options :=
    if negb (streq conventional_name algorithm =? 0)
    then KALMAN_ALGORITHM_CONVENTIONAL else options in
  let options :=
    if negb (streq oddeven_name algorithm =? 0)
    then KALMAN_ALGORITHM_ODDEVEN else options in
  let options :=
    if negb (streq associative_name algorithm =? 0)
    then KALMAN_ALGORITHM_ASSOCIATIVE else options in
  options.

End Rotation.

(** The current step of a filter, for a filter that has one. *)
Definition open_step (kalman : Ultimate.kalman_t) : Ultimate.step_t :=
  match Ultimate.current kalman with
  | Some p =>
      match Ultimate.heap kalman !! p with
      | Some (Some s) => s
      | _ => Ultimate.step_create
      end
  | None => Ultimate.step_create
  end.

(** A name that is none of the four, and the check that a string holds no
    NUL. *)
Definition misspelt_name : Rotation.c_string :=
  ["u"; "l"; "t"; "i"; "m"; "a"; "t"]%char.

Definition is_c_stringb (s : Rotation.c_string) : bool :=
  forallb (fun c => negb (Ascii.eqb c Ascii.zero)) s.

(** ** Concrete runs of the MATLAB filter

    The thin factorization and the solve of the reference kernel, for
    blocks that are already upper triangular. *)
Definition upper_observe : Matlab.ObserveOps := {|
  Matlab.qr_econ := fun A =>
    let r := Z.min (row_dim A) (col_dim A) in
    ({| row_dim := row_dim A; col_dim := r;
        elements := fun i j => if i =? j then 1%float else 0%float |},
     matrix_create_sub A 0 r 0 (col_dim A));
  Matlab.mldivide := trisolve_loops
|}.

Module MatlabRuns.

Definition block1 (v : float) : matrix_t := matrix_create_constant 1 1 v.

(** Step 0, observed: o = u_0 + noise, unit weight. *)
Definition evolved : Matlab.kalman_t :=
  match Matlab.evolve (MO := upper_matlab) Matlab.UltimateKalman 1
          Matlab.empty Matlab.empty Matlab.empty (block1 1) with
  | Ok k => k
  | Fault _ => Matlab.UltimateKalman
  end.

Definition one : Matlab.kalman_t :=
  match Matlab.observe (MO := upper_matlab) (OO := upper_observe) evolved
          (Some (block1 1, block1 3, block1 1)) with
  | Ok k => k
  | Fault _ => Matlab.UltimateKalman
  end.

(** Step 1, u_1 = 5 + noise (H = 1, F = 0), not observed. *)
Definition two : Matlab.kalman_t :=
  match Matlab.evolve (MO := upper_matlab) one 1
          (block1 1) (block1 0) (block1 5) (block1 1) with
  | Ok k1 =>
      match Matlab.observe (MO := upper_matlab) (OO := upper_observe) k1 None with
      | Ok k2 => k2
      | Fault _ => Matlab.UltimateKalman
      end
  | Fault _ => Matlab.UltimateKalman
  end.

End MatlabRuns.

(** * Properties of the engines *)

Import Ultimate Driver Props.

(** ** The step log and [kalman_rollback] *)

Lemma bind_Ok {A B : Type} (m : outcome A) (k : A -> outcome B) (r : B) :
  (x ← m; k x) = Ok r -> exists a, m = Ok a /\ k a = Ok r.
Proof. destruct m as [a|f]; simpl; [eauto | discriminate]. Qed.

Ltac obind H :=
  let a := fresh "a" in
  let E := fresh "E" in
  apply bind_Ok in H; destruct H as (a & E & H).

Lemma farray_get_lookup (a : farray_t) (j : nat) (p : addr) :
  elems a !! j = Some p -> farray_get a (first a + Z.of_nat j) = Ok p.
Proof.
  intros Hj. unfold farray_get, farray_last_index, farray_size.
  pose proof (lookup_lt_Some _ _ _ Hj) as Hlt.
  destruct (_ <? first a) eqn:E1; [apply Z.ltb_lt in E1; lia|].
  destruct (_ <? _) eqn:E2 in |- *; [apply Z.ltb_lt in E2; lia|].
  simpl. replace (Z.to_nat (first a + Z.of_nat j - first a)) with j by lia.
  now rewrite Hj.
Qed.

Lemma farray_get_inv (a : farray_t) (i : Z) (p : addr) :
  farray_get a i = Ok p ->
  first a <= i <= farray_last_index a /\ elems a !! Z.to_nat (i - first a) = Some p.
Proof.
  unfold farray_get. intros H.
  destruct (i <? first a) eqn:E1; [discriminate|].
  destruct (farray_last_index a <? i) eqn:E2; [discriminate|]. simpl in H.
  apply Z.ltb_ge in E1, E2.
  destruct (elems a !! Z.to_nat (i - first a)) eqn:E3; [|discriminate].
  inversion H; subst. auto.
Qed.

Lemma indexed_inj (k : kalman_t) (j1 j2 : nat) (p : addr) :
  indexed k -> elems (steps k) !! j1 = Some p -> elems (steps k) !! j2 = Some p -> j1 = j2.
Proof.
  intros Hi H1 H2. destruct (Hi _ _ H1) as (s1 & Hs1 & E1).
  destruct (Hi _ _ H2) as (s2 & Hs2 & E2). rewrite Hs1 in Hs2. inversion Hs2; subst. lia.
Qed.

Lemma farray_drop_last_snoc (f : Z) (l : list addr) (p : addr) :
  farray_drop_last {| first := f; elems := l ++ [p] |} = Ok (p, {| first := f; elems := l |}).
Proof.
  unfold farray_drop_last. simpl. rewrite last_snoc. now rewrite removelast_last.
Qed.

Lemma rollback_loop_reduces (si : Z) (h : heap_t) (f : Z) (cur : option addr)
  (pre post : list addr) (p : addr) (s : step_t) :
  h !! p = Some (Some s) -> step s = si ->
  (forall q, q ∈ post -> exists sq, h !! q = Some (Some sq) /\ si < step sq) ->
  rollback_loop (S (length (pre ++ p :: post))) si
    {| heap := h; steps := {| first := f; elems := pre ++ p :: post |}; current := cur |}
  = (s' ← rolled_back s;
     Ok {| heap := store p s' h; steps := {| first := f; elems := pre |};
           current := Some p |}).
Proof.
  intros Hp Hs. revert cur. induction post as [|q post IH] using rev_ind; intros cur Hpost.
  - cbn [rollback_loop]. cbn [steps heap].
    rewrite farray_drop_last_snoc. simpl.
    unfold load. rewrite Hp. simpl. rewrite Hs, Z.eqb_refl, Z.ltb_irrefl.
    unfold rolled_back.
    destruct (matrix_free (Rdiag s)); simpl; [|reflexivity].
    destruct (matrix_free (Rsupdiag s)); simpl; [|reflexivity].
    destruct (matrix_free (y s)); simpl; [|reflexivity].
    destruct (matrix_free (state s)); simpl; [|reflexivity].
    destruct (matrix_free (covariance s)); simpl; reflexivity.
  - destruct (Hpost q) as (sq & Hq & Hlt); [apply elem_of_app; right; apply list_elem_of_singleton; reflexivity|].
    replace (pre ++ p :: post ++ [q]) with ((pre ++ p :: post) ++ [q]) by (now rewrite <- app_assoc).
    rewrite length_app. simpl length. rewrite Nat.add_1_r.
    cbn [rollback_loop]. cbn [steps heap].
    rewrite farray_drop_last_snoc. simpl.
    unfold load. rewrite Hq. simpl.
    replace (step sq =? si) with false by (symmetry; apply Z.eqb_neq; lia).
    simpl. replace (si <? step sq) with true by (symmetry; apply Z.ltb_lt; lia).
    apply IH. intros q' Hq'. apply Hpost. apply elem_of_app. now left.
Qed.

Lemma rollback_result (k : kalman_t) (si : Z) :
  indexed k ->
  farray_first_index (steps k) <= si <= farray_last_index (steps k) ->
  exists p s,
    elems (steps k) !! Z.to_nat (si - first (steps k)) = Some p /\
    heap k !! p = Some (Some s) /\ step s = si /\
    kalman_rollback k si =
      (s' ← rolled_back s;
       Ok {| heap := store p s' (heap k);
             steps := {| first := first (steps k);
                         elems := take (Z.to_nat (si - first (steps k))) (elems (steps k)) |};
             current := Some p |}).
Proof.
  intros Hi Hr. destruct k as [h [f l] cur]. unfold indexed in Hi. simpl in *.
  unfold farray_first_index, farray_last_index, farray_size in Hr. simpl in Hr.
  set (n := Z.to_nat (si - f)).
  assert (Hn : (n < length l)%nat) by lia.
  destruct (lookup_lt_is_Some_2 l n Hn) as [p Hp].
  destruct (Hi _ _ Hp) as (s & Hs & Hstep).
  exists p, s. repeat split; auto; [lia|].
  unfold kalman_rollback, farray_size, farray_last_index, farray_first_index, farray_size.
  simpl.
  destruct (Z.of_nat (length l) =? 0) eqn:E0; [apply Z.eqb_eq in E0; lia|].
  destruct (_ <? si) eqn:E1; [apply Z.ltb_lt in E1; lia|].
  destruct (si <? f) eqn:E2; [apply Z.ltb_lt in E2; lia|].
  assert (Hl : take n l ++ p :: drop (S n) l = l) by (apply take_drop_middle; exact Hp).
  transitivity (rollback_loop (S (length (take n l ++ p :: drop (S n) l))) si
    {| heap := h; steps := {| first := f; elems := take n l ++ p :: drop (S n) l |};
       current := cur |}); [now rewrite Hl|].
  apply rollback_loop_reduces; auto; [lia|].
  intros q Hq. apply list_elem_of_lookup in Hq. destruct Hq as [j Hj].
  rewrite lookup_drop in Hj. destruct (Hi _ _ Hj) as (sq & Hsq & Hstq).
  exists sq. split; auto. lia.
Qed.

Lemma matrix_free_not_live (c c' : slot) : matrix_free c = Ok c' -> is_live c' = false.
Proof. destruct c; simpl; intros H; inversion H; reflexivity. Qed.

Lemma matrix_free_releasable (c : slot) : is_freed c = false -> exists c', matrix_free c = Ok c'.
Proof. destruct c; simpl; intros H; try discriminate; eauto. Qed.

Lemma rolled_back_inv (s s' : step_t) :
  rolled_back s = Ok s' ->
  step s' = step s /\ dimension s' = dimension s /\ Rbar s' = Rbar s /\
  ybar s' = ybar s /\ unsealed s'.
Proof.
  unfold rolled_back. intros H. repeat obind H. inversion H; subst; clear H. simpl.
  unfold unsealed; simpl.
  repeat split; eauto using matrix_free_not_live.
Qed.

Lemma rolled_back_releasable (s : step_t) : releasable s -> exists s', rolled_back s = Ok s'.
Proof.
  intros (H1 & H2 & H3 & H4 & H5). unfold rolled_back.
  destruct (matrix_free_releasable _ H1) as [c1 ->].
  destruct (matrix_free_releasable _ H2) as [c2 ->].
  destruct (matrix_free_releasable _ H3) as [c3 ->].
  destruct (matrix_free_releasable _ H4) as [c4 ->].
  destruct (matrix_free_releasable _ H5) as [c5 ->]. simpl. eauto.
Qed.

Lemma step_at_lookup (k : kalman_t) (j : nat) (p : addr) (s : step_t) :
  elems (steps k) !! j = Some p -> heap k !! p = Some (Some s) ->
  step_at k (first (steps k) + Z.of_nat j) = Some s.
Proof.
  intros Hj Hp. unfold step_at. rewrite (farray_get_lookup _ _ _ Hj). now rewrite Hp.
Qed.

Lemma step_at_outside (k : kalman_t) (si : Z) :
  si < first (steps k) \/ farray_last_index (steps k) < si -> step_at k si = None.
Proof.
  intros H. unfold step_at, farray_get.
  destruct (si <? first (steps k)) eqn:E1; [reflexivity|].
  destruct (farray_last_index (steps k) <? si) eqn:E2; [reflexivity|].
  apply Z.ltb_ge in E1, E2. lia.
Qed.

Lemma store_lookup_ne (p q : addr) (s : step_t) (h : heap_t) :
  q <> p -> store p s h !! q = h !! q.
Proof. intros H. unfold store. apply list_lookup_insert_ne. congruence. Qed.

Lemma store_lookup_eq (p : addr) (s : step_t) (s0 : option step_t) (h : heap_t) :
  h !! p = Some s0 -> store p s h !! p = Some (Some s).
Proof.
  intros H. unfold store. apply list_lookup_insert_eq. eapply lookup_lt_Some; eauto.
Qed.

(** For every [si] with earliest <= si <= latest whose released blocks do
    not dangle, [kalman_rollback k si] returns; the log keeps exactly the
    steps before [si] (no step with index [si] or more is left in it, every
    step with a smaller index is the one it was, with all its sealed blocks),
    step [si] becomes the current step, keeps its index, dimension, [Rbar]
    and [ybar], and holds none of [Rdiag], [Rsupdiag], [y], [state],
    [covariance] any more (the released pointers stay in the step); no other
    cell of the heap changes. *)
Theorem rollback_returns_to_evolved (k : kalman_t) (si : Z) :
  indexed k ->
  farray_first_index (steps k) <= si <= farray_last_index (steps k) ->
  (forall s, step_at k si = Some s -> releasable s) ->
  exists k' p s s',
    kalman_rollback k si = Ok k' /\
    step_at k si = Some s /\
    first (steps k') = first (steps k) /\
    elems (steps k') = take (Z.to_nat (si - first (steps k))) (elems (steps k)) /\
    (forall sj, si <= sj -> step_at k' sj = None) /\
    (forall sj, sj < si -> step_at k' sj = step_at k sj) /\
    current k' = Some p /\
    heap k' !! p = Some (Some s') /\
    step s' = si /\ dimension s' = dimension s /\
    Rbar s' = Rbar s /\ ybar s' = ybar s /\ unsealed s' /\
    (forall q, q <> p -> heap k' !! q = heap k !! q).
Proof.
  intros Hi Hr Hrel.
  destruct (rollback_result k si Hi Hr) as (p & s & Hp & Hs & Hst & Heq).
  assert (Hat : step_at k si = Some s).
  { replace si with (first (steps k) + Z.of_nat (Z.to_nat (si - first (steps k))))
      by (unfold farray_first_index in Hr; lia).
    eapply step_at_lookup; eauto. }
  destruct (rolled_back_releasable s (Hrel s Hat)) as [s' Hs'].
  rewrite Hs' in Heq. simpl in Heq.
  destruct (rolled_back_inv _ _ Hs') as (E1 & E2 & E3 & E4 & E5).
  eexists _, p, s, s'. split; [exact Heq|]. simpl.
  unfold farray_first_index, farray_last_index, farray_size in Hr.
  split; [exact Hat|]. split; [reflexivity|]. split; [reflexivity|].
  split.
  { intros sj Hsj. apply step_at_outside. right.
    unfold farray_last_index, farray_size. simpl. rewrite length_take. lia. }
  split.
  { intros sj Hsj. destruct (Z_lt_dec sj (first (steps k))) as [Hlt|Hge].
    - rewrite !step_at_outside; auto.
    - unfold step_at, farray_get, farray_last_index, farray_size. simpl.
      rewrite length_take.
      destruct (sj <? first (steps k)) eqn:E6; [apply Z.ltb_lt in E6; lia|].
      destruct (_ <? sj) eqn:E7; [apply Z.ltb_lt in E7; lia|].
      destruct (_ <? sj) eqn:E8 in |- *; [apply Z.ltb_lt in E8; lia|]. simpl.
      rewrite lookup_take_lt by lia.
      destruct (elems (steps k) !! Z.to_nat (sj - first (steps k))) as [q|] eqn:Eq; [|reflexivity].
      rewrite store_lookup_ne; [reflexivity|].
      intros ->. pose proof (indexed_inj k _ _ _ Hi Eq Hp). lia. }
  split; [reflexivity|].
  split; [eapply store_lookup_eq; eauto|].
  split; [congruence|]. split; [exact E2|]. split; [exact E3|]. split; [exact E4|].
  split; [exact E5|].
  intros q Hq. now apply store_lookup_ne.
Qed.

(** ** [kalman_observe] *)

Lemma load_inv (p : addr) (h : heap_t) (s : step_t) :
  load p h = Ok s -> h !! p = Some (Some s).
Proof.
  unfold load. destruct (h !! p) as [[s0|]|]; intros H; inversion H; reflexivity.
Qed.

Lemma arg_Null_inv (c : slot) : arg c = Ok None -> c = Null.
Proof. destruct c; simpl; intros H; inversion H; reflexivity. Qed.

Lemma vconcat_None (a b : option matrix_t) :
  matrix_create_vconcat a b = None -> a = None /\ b = None.
Proof. destruct a, b; simpl; intros H; try discriminate; auto. Qed.

(** What [kalman_observe] does to the log: the current step, with the index
    it had, is appended. *)
Lemma kalman_observe_appends `{LA : Lapack} (k k' : kalman_t)
  (G_i o_i C_i : option matrix_t) (C_type : ascii) :
  kalman_observe k G_i o_i C_i C_type = Ok k' ->
  exists p cur cur',
    current k = Some p /\ heap k !! p = Some (Some cur) /\
    heap k' = store p cur' (heap k) /\
    steps k' = farray_append (steps k) p /\
    step cur' = step cur.
Proof.
  unfold kalman_observe. intros H.
  destruct (current k) as [p|] eqn:Ecur; [|discriminate]. simpl in H.
  obind H. rename a into cur. apply load_inv in E.
  obind H. destruct a as [W_i_G_i W_i_o_i].
  obind H. rename a into Rbar_p. obind H. rename a into ybar_p.
  obind H. rename a into cur'. inversion H; subst; clear H. simpl.
  exists p, cur, cur'. split; [reflexivity|]. split; [exact E|].
  split; [reflexivity|]. split; [reflexivity|].
  destruct (matrix_create_vconcat Rbar_p W_i_G_i) as [A|].
  - obind E3. destruct a as [Rd y1]. obind E3.
    inversion E3; subst; clear E3. reflexivity.
  - inversion E3; subst; reflexivity.
Qed.

(** C1, amended: every [kalman_observe] that returns appends the current
    step to the log and leaves the covariance type 'W'.  When the step has
    neither predicted rows ([Rbar]) nor an observation, nothing else
    happens: [Rdiag], [state] and [covariance] stay as they were (NULL
    after [kalman_evolve]), the state is not a vector of NaN.  Otherwise
    [Rdiag] is sealed and [covariance] is a copy of it; the state is the
    triangular solve of [Rdiag] against [y] when [Rdiag] has exactly n_i
    rows, and an n_i-by-1 matrix of NaN when it has not. *)
Theorem observe_seals_step `{LA : Lapack} (k k' : kalman_t)
  (G_i o_i C_i : option matrix_t) (C_type : ascii) :
  kalman_observe k G_i o_i C_i C_type = Ok k' ->
  exists p cur cur',
    current k = Some p /\ heap k !! p = Some (Some cur) /\
    heap k' = store p cur' (heap k) /\
    steps k' = farray_append (steps k) p /\
    current k' = current k /\
    step cur' = step cur /\ dimension cur' = dimension cur /\
    Rbar cur' = Rbar cur /\ ybar cur' = ybar cur /\ Rsupdiag cur' = Rsupdiag cur /\
    kalman_covariance_type k' (step cur') = "W"%char /\
    ((Rbar cur = Null /\ o_i = None /\ cur' = cur) \/
     ((Rbar cur <> Null \/ o_i <> None) /\
      exists Rd,
        Rdiag cur' = Live Rd /\ covariance cur' = Live Rd /\
        ((matrix_rows Rd = dimension cur /\
          exists yv, y cur' = Live yv /\
                     state cur' = Live (matrix_create_trisolve Rd yv)) \/
         (matrix_rows Rd <> dimension cur /\
          state cur' = Live (matrix_create_constant (dimension cur) 1 NaN))))).
Proof.
  unfold kalman_observe. intros H.
  destruct (current k) as [p|] eqn:Ecur; [|discriminate]. simpl in H.
  obind H. rename a into cur. apply load_inv in E.
  obind H. destruct a as [W_i_G_i W_i_o_i].
  obind H. rename a into Rbar_p. obind H. rename a into ybar_p.
  obind H. rename a into cur'. inversion H; subst; clear H. simpl.
  exists p, cur, cur'. split; [reflexivity|]. split; [exact E|].
  split; [reflexivity|]. split; [reflexivity|]. split; [reflexivity|].
  assert (HW : W_i_G_i = None -> o_i = None).
  { intros ->. destruct o_i; [|reflexivity]. simpl in E0.
    repeat obind E0. inversion E0. }
  assert (HW' : o_i = None -> W_i_G_i = None).
  { intros ->. simpl in E0. now inversion E0. }
  destruct (matrix_create_vconcat Rbar_p W_i_G_i) as [A|] eqn:EA.
  - obind E3. destruct a as [Rd y1]. obind E3. rename a into st.
    inversion E3; subst; clear E3. simpl.
    repeat (split; [reflexivity|]).
    right. split.
    { destruct (Rbar cur) eqn:ER; [|left; congruence|left; congruence].
      right. intros ->. simpl in E1. inversion E1; subst.
      rewrite HW' in EA by reflexivity. discriminate. }
    exists Rd. split; [reflexivity|]. split; [reflexivity|].
    destruct (matrix_rows Rd =? dimension cur) eqn:Erows.
    + left. apply Z.eqb_eq in Erows. split; [exact Erows|].
      destruct y1 as [yv|]; simpl in E5; [|discriminate].
      inversion E5; subst. exists yv. split; reflexivity.
    + right. apply Z.eqb_neq in Erows. split; [exact Erows|].
      inversion E5; subst. reflexivity.
  - inversion E3; subst; clear E3.
    repeat (split; [reflexivity|]).
    left. apply vconcat_None in EA. destruct EA as [-> ->].
    split; [now apply arg_Null_inv|]. split; [now apply HW|reflexivity].
Qed.

(** ** The indices the log reports *)

Lemma load_lookup (p : addr) (h : heap_t) (s : step_t) :
  h !! p = Some (Some s) -> load p h = Ok s.
Proof. unfold load. now intros ->. Qed.

Lemma kalman_latest_empty (k : kalman_t) :
  elems (steps k) = [] -> kalman_latest k = Ok (-1).
Proof. intros H. unfold kalman_latest, farray_size. now rewrite H. Qed.

Lemma kalman_earliest_empty (k : kalman_t) :
  elems (steps k) = [] -> kalman_earliest k = Ok (-1).
Proof. intros H. unfold kalman_earliest, farray_size. now rewrite H. Qed.

Lemma kalman_latest_snoc (k : kalman_t) (l : list addr) (p : addr) (s : step_t) :
  elems (steps k) = l ++ [p] -> heap k !! p = Some (Some s) ->
  kalman_latest k = Ok (step s).
Proof.
  intros Hl Hp. unfold kalman_latest, farray_size. rewrite Hl, length_app. simpl.
  destruct (_ =? 0) eqn:E0; [apply Z.eqb_eq in E0; lia|].
  unfold farray_get_last.
  replace (farray_last_index (steps k)) with (first (steps k) + Z.of_nat (length l)).
  2:{ unfold farray_last_index, farray_size. rewrite Hl, length_app. simpl. lia. }
  rewrite (farray_get_lookup _ (length l) p).
  2:{ rewrite Hl. rewrite lookup_app_r by lia. now rewrite Nat.sub_diag. }
  simpl. now rewrite (load_lookup _ _ _ Hp).
Qed.

Lemma kalman_latest_indexed (k : kalman_t) :
  indexed k -> elems (steps k) <> [] ->
  kalman_latest k = Ok (farray_last_index (steps k)).
Proof.
  intros Hi Hne. destruct (elems (steps k)) as [|x l] eqn:El using rev_ind; [congruence|].
  clear IHl.
  destruct (Hi (length l) x) as (s & Hs & Hst).
  { rewrite El. rewrite lookup_app_r by lia. now rewrite Nat.sub_diag. }
  rewrite (kalman_latest_snoc k l x s El Hs). f_equal.
  unfold farray_last_index, farray_size. rewrite El, length_app. simpl. lia.
Qed.

Lemma kalman_earliest_indexed (k : kalman_t) :
  indexed k -> elems (steps k) <> [] ->
  kalman_earliest k = Ok (farray_first_index (steps k)).
Proof.
  intros Hi Hne. destruct (elems (steps k)) as [|x l] eqn:El; [congruence|].
  destruct (Hi O x) as (s & Hs & Hst); [now rewrite El|].
  unfold kalman_earliest, farray_size. rewrite El. simpl length.
  destruct (_ =? 0) eqn:E0; [apply Z.eqb_eq in E0; lia|].
  unfold farray_get_first, farray_first_index.
  assert (Hg : elems (steps k) !! O = Some x) by (now rewrite El).
  apply farray_get_lookup in Hg. simpl in Hg. rewrite Z.add_0_r in Hg. rewrite Hg.
  simpl. rewrite (load_lookup _ _ _ Hs). simpl. f_equal. lia.
Qed.

(** C10: once [kalman_rollback k si] has returned [k'] for earliest <= si <=
    latest, [kalman_latest k'] is [si - 1], and both [kalman_latest k'] and
    [kalman_earliest k'] are -1 when [si] was the earliest step; no step of
    the log of [k'] has index [si] or more; step [si] is the current step,
    outside the log, and every [kalman_observe] that returns puts it back
    at the end of the log, so that [kalman_latest] is [si] again. *)
Theorem rollback_reopens_step `{LA : Lapack} (k k' : kalman_t) (si : Z) :
  indexed k ->
  farray_first_index (steps k) <= si <= farray_last_index (steps k) ->
  kalman_rollback k si = Ok k' ->
  kalman_latest k' = Ok (if si =? farray_first_index (steps k) then -1 else si - 1) /\
  (si = farray_first_index (steps k) -> kalman_earliest k' = Ok (-1)) /\
  (forall sj, step_at k' sj <> None -> sj < si) /\
  exists p s',
    current k' = Some p /\ (p ∉ elems (steps k')) /\
    heap k' !! p = Some (Some s') /\ step s' = si /\
    forall G_i o_i C_i C_type k'',
      kalman_observe k' G_i o_i C_i C_type = Ok k'' ->
      elems (steps k'') = elems (steps k') ++ [p] /\
      kalman_latest k'' = Ok si.
Proof.
  intros Hi Hr Hk'.
  destruct (rollback_result k si Hi Hr) as (p & s & Hp & Hs & Hst & Heq).
  rewrite Heq in Hk'. obind Hk'. rename a into s'.
  destruct (rolled_back_inv _ _ E) as (E1 & E2 & E3 & E4 & E5).
  inversion Hk'; subst k'; clear Hk'.
  unfold farray_first_index, farray_last_index, farray_size in *.
  set (n := Z.to_nat (si - first (steps k))) in *.
  assert (Hn : (n < length (elems (steps k)))%nat) by (eapply lookup_lt_Some; eauto).
  assert (Hnotin : p ∉ take n (elems (steps k))).
  { intros Hin. apply list_elem_of_lookup in Hin. destruct Hin as [j Hj].
    pose proof (lookup_lt_Some _ _ _ Hj) as Hjl. rewrite length_take in Hjl.
    rewrite lookup_take_lt in Hj by lia.
    pose proof (indexed_inj k _ _ _ Hi Hj Hp). lia. }
  assert (Hp' : store p s' (heap k) !! p = Some (Some s')) by (eapply store_lookup_eq; eauto).
  split.
  { destruct (si =? first (steps k)) eqn:E0.
    - apply Z.eqb_eq in E0. apply kalman_latest_empty. simpl.
      replace n with O by lia. reflexivity.
    - apply Z.eqb_neq in E0.
      assert (Hn1 : (n - 1 < length (elems (steps k)))%nat) by lia.
      destruct (lookup_lt_is_Some_2 _ _ Hn1) as [q Hq].
      destruct (Hi _ _ Hq) as (sq & Hsq & Hstq).
      rewrite (kalman_latest_snoc _ (take (n - 1) (elems (steps k))) q sq).
      + f_equal. lia.
      + simpl. rewrite <- (take_S_r _ _ _ Hq). f_equal. lia.
      + simpl. rewrite store_lookup_ne; [exact Hsq|].
        intros ->. pose proof (indexed_inj k _ _ _ Hi Hq Hp). lia. }
  split.
  { intros ->. apply kalman_earliest_empty. simpl. replace n with O by lia. reflexivity. }
  split.
  { intros sj Hsj. destruct (Z_lt_dec sj si) as [|Hge]; [assumption|]. exfalso. apply Hsj.
    apply step_at_outside. right. unfold farray_last_index, farray_size. simpl.
    rewrite length_take. lia. }
  exists p, s'. split; [reflexivity|]. split; [exact Hnotin|].
  split; [exact Hp'|]. split; [congruence|].
  intros G_i o_i C_i C_type k'' Hobs.
  destruct (kalman_observe_appends _ _ _ _ _ _ Hobs)
    as (p0 & cur & cur' & Hc & Hcur & Hheap & Hsteps & Hstep).
  simpl in Hc. inversion Hc; subst p0. simpl in Hcur, Hheap, Hsteps.
  rewrite Hp' in Hcur. inversion Hcur; subst cur.
  split; [now rewrite Hsteps|].
  rewrite (kalman_latest_snoc k'' (take n (elems (steps k))) p cur').
  - f_equal. congruence.
  - now rewrite Hsteps.
  - rewrite Hheap. eapply store_lookup_eq; eauto.
Qed.

(** ** [kalman_forget] *)

Lemma step_free_freeable (q : addr) (h : heap_t) (s : step_t) :
  h !! q = Some (Some s) -> freeable s -> step_free q h = Ok (<[q := None]> h).
Proof.
  intros Hq ((H1 & H2 & H3 & H4 & H5) & H6 & H7). unfold step_free.
  rewrite (load_lookup _ _ _ Hq). simpl.
  destruct (matrix_free_releasable _ H5) as [c5 ->].
  destruct (matrix_free_releasable _ H4) as [c4 ->].
  destruct (matrix_free_releasable _ H1) as [c1 ->].
  destruct (matrix_free_releasable _ H2) as [c2 ->].
  destruct (matrix_free_releasable _ H3) as [c3 ->].
  destruct (matrix_free_releasable _ H6) as [c6 ->].
  destruct (matrix_free_releasable _ H7) as [c7 ->]. reflexivity.
Qed.

Lemma forget_loop_spec (si : Z) (dropped kept : list addr) :
  forall (fuel : nat) (f : Z) (h : heap_t),
    (length dropped <= fuel)%nat ->
    NoDup dropped ->
    (forall q, q ∈ dropped -> exists s, h !! q = Some (Some s) /\ freeable s) ->
    f + Z.of_nat (length dropped) - 1 <= si < f + Z.of_nat (length dropped) ->
    exists h',
      forget_loop fuel si {| first := f; elems := dropped ++ kept |} h
      = Ok ({| first := f + Z.of_nat (length dropped); elems := kept |}, h') /\
      (forall q, q ∈ dropped -> h' !! q = Some None) /\
      (forall q, q ∉ dropped -> h' !! q = h !! q).
Proof.
  induction dropped as [|q d IH]; intros fuel f h Hfuel Hnd Hlive Hr.
  - exists h. simpl in *. split; [|split].
    + destruct fuel; simpl; unfold farray_first_index; simpl;
        (destruct (f <=? si) eqn:E; [apply Z.leb_le in E; lia|]);
        now rewrite Z.add_0_r.
    + intros q Hq. inversion Hq.
    + reflexivity.
  - simpl length in *. destruct fuel as [|fuel]; [lia|].
    cbn [forget_loop]. unfold farray_first_index. cbn [first].
    destruct (f <=? si) eqn:E; [|apply Z.leb_gt in E; lia].
    simpl.
    destruct (Hlive q) as (s & Hq & Hfree); [left|].
    rewrite (step_free_freeable _ _ _ Hq Hfree). simpl.
    apply NoDup_cons in Hnd. destruct Hnd as [Hnotin Hnd].
    destruct (IH fuel (f + 1) (<[q := None]> h)) as (h' & Heq & Hd & Hk); [lia|assumption| |lia|].
    { intros q' Hq'. destruct (Hlive q') as (s' & Hs' & Hf'); [now right|].
      exists s'. split; [|assumption].
      rewrite list_lookup_insert_ne; [assumption|]. intros ->. contradiction. }
    exists h'. split; [|split].
    + rewrite Heq. do 3 f_equal. lia.
    + intros q' Hq'. apply elem_of_cons in Hq'. destruct Hq' as [->|Hq'].
      * rewrite Hk by assumption. apply list_lookup_insert_eq. eapply lookup_lt_Some; eauto.
      * now apply Hd.
    + intros q' Hq'. apply not_elem_of_cons in Hq'. destruct Hq' as [Hne Hq'].
      rewrite Hk by assumption. now apply list_lookup_insert_ne.
Qed.

Lemma indexed_NoDup (k : kalman_t) : indexed k -> NoDup (elems (steps k)).
Proof.
  intros Hi. apply NoDup_alt. intros i j x H1 H2. eapply indexed_inj; eauto.
Qed.

Lemma heap_eq_of_lookup (h h' : heap_t) (l : list addr) :
  l = [] -> (forall q, q ∉ l -> h' !! q = h !! q) -> h' = h.
Proof.
  intros -> H. apply list_eq. intros i. apply H. intros Hin. inversion Hin.
Qed.

(** C4, amended: on a non-empty log whose steps can be released,
    [kalman_forget k si] always returns and leaves at least one step.  With
    a negative [si] it drops every step but the last; with
    earliest <= si < latest it drops exactly the steps of index at most
    [si]; in every other case (below earliest, or latest and above) it
    changes nothing.  The dropped steps are released, the others and the
    current step are untouched. *)
Theorem forget_releases_old_steps (k : kalman_t) (si : Z) :
  indexed k ->
  (forall sj s, step_at k sj = Some s -> freeable s) ->
  elems (steps k) <> [] ->
  let f0 := farray_first_index (steps k) in
  let l0 := farray_last_index (steps k) in
  let n :=
    if si <? 0 then Z.to_nat (l0 - f0)
    else if (f0 <=? si) && (si <? l0) then Z.to_nat (si - f0 + 1)
    else O in
  exists k',
    kalman_forget k si = Ok k' /\
    first (steps k') = f0 + Z.of_nat n /\
    elems (steps k') = drop n (elems (steps k)) /\
    elems (steps k') <> [] /\
    current k' = current k /\
    (forall q, q ∈ take n (elems (steps k)) -> heap k' !! q = Some None) /\
    (forall q, q ∉ take n (elems (steps k)) -> heap k' !! q = heap k !! q) /\
    (n = O -> k' = k).
Proof.
  destruct k as [h [f l] cur].
  unfold farray_first_index, farray_last_index, farray_size. cbn [steps first elems heap current].
  intros Hi Hfree Hne. cbv zeta.
  assert (Hlen : (0 < length l)%nat) by (destruct l; [congruence|simpl; lia]).
  set (l0 := f + Z.of_nat (length l) - 1).
  set (n := if si <? 0 then Z.to_nat (l0 - f)
            else if (f <=? si) && (si <? l0) then Z.to_nat (si - f + 1) else O).
  set (si' := if si <? 0 then l0 - 1 else si).
  assert (Hn : n = if (l0 - 1 <? si') || (si' <? f) then O else Z.to_nat (si' - f + 1)).
  { unfold n, si'. destruct (si <? 0) eqn:E0.
    - destruct (l0 - 1 <? l0 - 1) eqn:E1; [apply Z.ltb_lt in E1; lia|].
      destruct (l0 - 1 <? f) eqn:E2; simpl.
      + apply Z.ltb_lt in E2. lia.
      + f_equal. lia.
    - apply Z.ltb_ge in E0.
      destruct (f <=? si) eqn:E1; destruct (si <? l0) eqn:E2; simpl;
        destruct (l0 - 1 <? si) eqn:E3; destruct (si <? f) eqn:E4; simpl; try reflexivity;
        try apply Z.leb_le in E1; try apply Z.leb_gt in E1;
        try apply Z.ltb_lt in E2; try apply Z.ltb_ge in E2;
        try apply Z.ltb_lt in E3; try apply Z.ltb_ge in E3;
        try apply Z.ltb_lt in E4; try apply Z.ltb_ge in E4; lia. }
  unfold kalman_forget, farray_first_index, farray_last_index, farray_size.
  cbn [steps first elems heap current]. fold l0. fold si'.
  destruct (Z.of_nat (length l) =? 0) eqn:Es; [apply Z.eqb_eq in Es; lia|].
  destruct (l0 - 1 <? si') eqn:E1.
  { simpl in Hn. eexists. rewrite Hn. rewrite take_0, drop_0.
    split; [reflexivity|]. cbn [steps first elems heap current].
    split; [lia|].
    split; [reflexivity|]. split; [assumption|]. split; [reflexivity|].
    split; [intros q Hq; inversion Hq|]. split; reflexivity. }
  destruct (si' <? f) eqn:E2.
  { simpl in Hn. eexists. rewrite Hn. rewrite take_0, drop_0.
    split; [reflexivity|]. cbn [steps first elems heap current].
    split; [lia|].
    split; [reflexivity|]. split; [assumption|]. split; [reflexivity|].
    split; [intros q Hq; inversion Hq|]. split; reflexivity. }
  simpl in Hn. apply Z.ltb_ge in E1, E2.
  assert (Hnl : (n < length l)%nat) by lia.
  pose proof (take_drop n l) as Htd.
  destruct (forget_loop_spec si' (take n l) (drop n l) (length l) f h) as (h' & Heq & Hd & Hk).
  { rewrite length_take. lia. }
  { pose proof (indexed_NoDup _ Hi) as Hnd. cbn [steps elems] in Hnd.
    rewrite <- Htd in Hnd. now apply NoDup_app in Hnd. }
  { intros q Hq. apply list_elem_of_lookup in Hq. destruct Hq as [j Hj].
    pose proof (lookup_lt_Some _ _ _ Hj) as Hjl. rewrite length_take in Hjl.
    rewrite lookup_take_lt in Hj by lia.
    destruct (Hi _ _ Hj) as (s & Hs & Hst). exists s. split; [assumption|].
    apply (Hfree (f + Z.of_nat j)).
    apply (step_at_lookup {| heap := h; steps := {| first := f; elems := l |}; current := cur |}
             j q s Hj Hs). }
  { rewrite length_take. lia. }
  rewrite Htd in Heq. rewrite Heq. simpl. eexists. split; [reflexivity|].
  cbn [steps first elems heap current]. rewrite length_take in *.
  split; [lia|]. split; [reflexivity|].
  split. { intros Hdr. apply (f_equal length) in Hdr. rewrite length_drop in Hdr. simpl in Hdr. lia. }
  split; [reflexivity|]. split; [exact Hd|]. split; [exact Hk|].
  intros Hn0. exfalso. lia.
Qed.

(** ** The triangular invariant *)




















(** ** Indices outside the log, and a null [H_i] *)

Lemma earliest_latest_indices (k : kalman_t) (e l : Z) :
  indexed k -> kalman_earliest k = Ok e -> kalman_latest k = Ok l ->
  (elems (steps k) = [] /\ e = -1 /\ l = -1) \/
  (elems (steps k) <> [] /\ e = farray_first_index (steps k) /\
   l = farray_last_index (steps k)).
Proof.
  intros Hi He Hl. destruct (elems (steps k)) as [|x r] eqn:El.
  - left. rewrite kalman_earliest_empty in He by assumption.
    rewrite kalman_latest_empty in Hl by assumption.
    inversion He; inversion Hl; auto.
  - right. assert (Hne : elems (steps k) <> []) by (rewrite El; discriminate).
    rewrite kalman_earliest_indexed in He by assumption.
    rewrite kalman_latest_indexed in Hl by assumption.
    inversion He; inversion Hl; auto.
Qed.

(** C7, amended: for [si] outside [earliest, latest], [kalman_rollback]
    changes nothing, and so does [kalman_forget] when [si] is not negative.
    A negative [si] is not out of range for the other calls: it stands for
    latest - 1 in [kalman_forget] and for latest in [kalman_estimate] and
    [kalman_covariance].  On an empty log [kalman_estimate] and
    [kalman_covariance] return NULL, not a matrix of NaN. *)
Theorem out_of_range_calls `{LA : Lapack} (k : kalman_t) (si e l : Z) :
  indexed k ->
  kalman_earliest k = Ok e -> kalman_latest k = Ok l ->
  si < e \/ l < si ->
  kalman_rollback k si = Ok k /\
  (0 <= si -> kalman_forget k si = Ok k) /\
  (si < 0 ->
   kalman_forget k si = kalman_forget k (l - 1) /\
   kalman_estimate k si = kalman_estimate k l /\
   kalman_covariance k si = kalman_covariance k l) /\
  (elems (steps k) = [] ->
   kalman_estimate k si = Ok None /\ kalman_covariance k si = Ok None).
Proof.
  intros Hi He Hl Hout.
  destruct (earliest_latest_indices k e l Hi He Hl) as [(El & -> & ->)|(Hne & -> & ->)].
  - assert (Hs : (farray_size (steps k) =? 0) = true)
      by (unfold farray_size; now rewrite El).
    unfold kalman_rollback, kalman_forget, kalman_estimate, kalman_covariance.
    rewrite Hs. repeat split; reflexivity.
  - assert (Hs : (farray_size (steps k) =? 0) = false).
    { unfold farray_size. destruct (elems (steps k)); [congruence|]. reflexivity. }
    unfold kalman_rollback, kalman_forget, kalman_estimate, kalman_covariance.
    rewrite Hs.
    set (f0 := farray_first_index (steps k)) in *.
    set (l0 := farray_last_index (steps k)) in *.
    split.
    { destruct (l0 <? si) eqn:E1; [reflexivity|].
      destruct (si <? f0) eqn:E2; [reflexivity|].
      apply Z.ltb_ge in E1, E2. lia. }
    split.
    { intros Hpos. destruct (si <? 0) eqn:E0; [apply Z.ltb_lt in E0; lia|].
      destruct (l0 - 1 <? si) eqn:E1; [reflexivity|].
      destruct (si <? f0) eqn:E2; [reflexivity|].
      apply Z.ltb_ge in E1, E2. lia. }
    split.
    { intros Hneg. replace (si <? 0) with true by (symmetry; apply Z.ltb_lt; lia).
      split; [|split].
      - destruct (l0 - 1 <? 0) eqn:E; reflexivity.
      - destruct (l0 <? 0) eqn:E; reflexivity.
      - destruct (l0 <? 0) eqn:E; reflexivity. }
    intros El. congruence.
Qed.

(** C8, amended: the C engine does not accept a null [H_i] on a step
    after the first: [kalman_evolve] stops on its assertion.  The MATLAB
    [evolve] is the one that substitutes: called with an empty [H_i] it
    returns what it returns for [[I | 0]] with as many rows as [F_i] and
    [n_i] columns (the identity when these are equal). *)
Theorem evolve_without_H `{LA : Lapack} `{MO : MatlabOps} :
  (forall (k : kalman_t) (n_i : Z) (F_i c_i K_i : option matrix_t) (K_type : ascii)
          (p : addr) (s : step_t),
     farray_get_last (steps k) = Ok p -> heap k !! p = Some (Some s) ->
     kalman_evolve k n_i None F_i c_i K_i K_type = Fault AssertionFailed) /\
  (forall (mk : Matlab.kalman_t) (n_i : Z) (F_i c_i : matrix_t) (K_i : CovarianceMatrix),
     0 < matrix_rows F_i ->
     Matlab.evolve mk n_i Matlab.empty F_i c_i K_i
     = Matlab.evolve mk n_i (Matlab.default_H (matrix_rows F_i) n_i) F_i c_i K_i).
Proof.
  split.
  - intros k n_i F_i c_i K_i K_type p s Hlast Hp. unfold kalman_evolve.
    destruct (farray_size (steps k) =? 0) eqn:Es.
    { apply Z.eqb_eq in Es. unfold farray_get_last in Hlast.
      apply farray_get_inv in Hlast. unfold farray_last_index in Hlast. lia. }
    rewrite Hlast. simpl.
    assert (Hl : load p (heap k ++ [Some (set_dimension n_i step_create)]) = Ok s).
    { apply load_lookup. rewrite lookup_app_l; [assumption|]. eapply lookup_lt_Some; eauto. }
    rewrite Hl. reflexivity.
  - intros mk n_i F_i c_i K_i HF. unfold Matlab.evolve.
    destruct (last (Matlab.steps mk)) as [imo|]; [|reflexivity].
    assert (E1 : (Matlab.size Matlab.empty 1 =? Matlab.size F_i 1) = false).
    { apply Z.eqb_neq. unfold Matlab.size, matrix_rows in *. simpl. lia. }
    assert (E2 : (Matlab.size (Matlab.default_H (matrix_rows F_i) n_i) 1
                  =? Matlab.size F_i 1) = true).
    { apply Z.eqb_eq. unfold Matlab.default_H, Matlab.size, matrix_rows in *.
      destruct (row_dim F_i =? n_i); simpl; lia. }
    rewrite E1, E2. reflexivity.
Qed.

(** ** The associative smoother *)

Lemma get_inv {T : Type} (a : list T) (i : Z) (x : T) :
  Associative.get a i = Ok x -> 0 <= i /\ a !! Z.to_nat i = Some x.
Proof.
  unfold Associative.get. destruct (i <? 0) eqn:E; [discriminate|]. apply Z.ltb_ge in E.
  destruct (a !! Z.to_nat i); intros H; inversion H; subst. auto.
Qed.

Lemma get_lookup {T : Type} (a : list T) (i : Z) (x : T) :
  0 <= i -> a !! Z.to_nat i = Some x -> Associative.get a i = Ok x.
Proof.
  intros Hi H. unfold Associative.get. destruct (i <? 0) eqn:E; [apply Z.ltb_lt in E; lia|].
  now rewrite H.
Qed.

Lemma for_range_invariant {S : Type} (P : S -> Prop) (body : S -> Z -> outcome S) :
  (forall s j s', P s -> body s j = Ok s' -> P s') ->
  forall n j s s', P s -> Associative.for_range body n j s = Ok s' -> P s'.
Proof.
  intros Hb. induction n as [|n IH]; intros j s s' Hs H; simpl in H.
  - inversion H; subst; assumption.
  - obind H. eapply IH; [|exact H]. eapply Hb; eauto.
Qed.

Lemma for_range_frame {T : Type} (body : list T -> Z -> outcome (list T)) :
  (forall s j s', body s j = Ok s' ->
     length s' = length s /\ forall i, i <> Z.to_nat j -> s' !! i = s !! i) ->
  forall n j s s',
    0 <= j ->
    Associative.for_range body n j s = Ok s' ->
    length s' = length s /\
    forall i, (i < Z.to_nat j \/ Z.to_nat j + n <= i)%nat -> s' !! i = s !! i.
Proof.
  intros Hb. induction n as [|n IH]; intros j s s' Hj H; simpl in H.
  - inversion H; subst; auto.
  - obind H. destruct (Hb _ _ _ E) as [Hlen Hfr].
    apply IH in H; [|lia]. destruct H as [Hlen' Hfr'].
    split; [congruence|]. intros i Hi.
    rewrite Hfr' by lia. apply Hfr. lia.
Qed.

Lemma put_Forall {T : Type} (P : T -> Prop) (a : list T) (i : Z) (x : T) :
  Forall P a -> P x -> Forall P (Associative.put a i x).
Proof.
  intros Ha Hx. unfold Associative.put. apply Forall_insert; assumption.
Qed.

Lemma get_Forall {T : Type} (P : T -> Prop) (a : list T) (i : Z) (x : T) :
  Forall P a -> Associative.get a i = Ok x -> P x.
Proof.
  intros Ha H. apply get_inv in H. destruct H as [_ H].
  eapply Forall_lookup_1; eauto.
Qed.

Lemma build_filtering_element_no_L `{DK : Dense} equations elements i elements' :
  Forall no_L elements ->
  Associative.build_filtering_element_new equations elements i = Ok elements' ->
  Forall no_L elements'.
Proof.
  intros Hall H. unfold Associative.build_filtering_element_new in H.
  obind H. rename a into equation. obind H. rename a into element.
  pose proof (get_Forall _ _ _ _ Hall E0) as Hel.
  match type of H with
  | (if _ then Ok ?x else _) = _ => assert (H1 : Forall no_L x) by (apply put_Forall; auto)
  end.
  destruct (i =? 0); [inversion H; subst; assumption|].
  obind H. rename a into elements1.
  assert (H2 : Forall no_L elements1).
  { destruct (i =? 1); [|inversion E1; subst; assumption].
    obind E1. destruct (matrix_create_mutate_qr' _) as [R Q]. obind E1.
    inversion E1; subst. apply put_Forall; auto.
    pose proof (get_Forall _ _ _ _ H1 E3) as He0. exact He0. }
  obind H. obind H. rename a0 into element1.
  pose proof (get_Forall _ _ _ _ H2 E3) as Hel1.
  obind H. inversion H; subst. apply put_Forall; auto.
  destruct (bool_decide _).
  - obind E4. inversion E4; subst.
    destruct (i =? 1); [obind E5|]; inversion E5; subst; exact Hel1.
  - obind E4. inversion E4; subst.
    destruct (i =? 1); [obind E5|]; inversion E5; subst; exact Hel1.
Qed.

Lemma elements_init_no_L (l : Z) : Forall no_L (Associative.elements_init l).
Proof.
  unfold Associative.elements_init. apply Forall_map. apply Forall_forall. intros x _. reflexivity.
Qed.

Lemma filtering_operation_no_L `{DK : Dense} (si sj r : option Associative.step_t) :
  (forall s, si = Some s -> no_L s) -> (forall s, sj = Some s -> no_L s) ->
  Associative.filteringAssociativeOperation si sj = Ok r ->
  forall s, r = Some s -> no_L s.
Proof.
  intros Hi Hj H s Hs. destruct si as [si|], sj as [sj|]; simpl in H.
  - obind H. inversion H; subst. inversion H1; subst. reflexivity.
  - inversion H; subst. auto.
  - inversion H; subst. auto.
  - inversion H; subst. discriminate.
Qed.

Lemma scan_filtering_no_L `{DK : Dense} (input : list Associative.step_t) :
  forall sum sums,
    (forall s, sum = Some s -> no_L s) -> Forall no_L input ->
    Associative.scan_from Associative.filteringAssociativeOperation sum input = Ok sums ->
    Forall (fun r => forall s, r = Some s -> no_L s) sums.
Proof.
  induction input as [|x input IH]; intros sum sums Hsum Hin H; simpl in H.
  - inversion H; subst. constructor.
  - obind H. obind H. inversion H; subst.
    apply Forall_cons in Hin. destruct Hin as [Hx Hin].
    assert (Ha : forall s, a = Some s -> no_L s).
    { eapply filtering_operation_no_L; [exact Hsum| |exact E].
      intros s Hs. inversion Hs; subst. exact Hx. }
    constructor; [exact Ha|]. eapply IH; eauto.
Qed.

Lemma filtered_no_L `{DK : Dense} equations l filtered :
  filtered_elements equations l = Ok filtered ->
  Forall (fun r => forall s, r = Some s -> no_L s) filtered.
Proof.
  unfold filtered_elements. intros H. obind H. rename a into elements.
  assert (Hel : Forall no_L elements).
  { unfold Associative.build_filtering_elements_new in E.
    eapply (for_range_invariant (Forall no_L)); [|apply elements_init_no_L|exact E].
    intros s j s' Hs Hb. eapply build_filtering_element_no_L; eauto. }
  unfold Associative.prefix_sums_pointers in H. simpl in H.
  eapply scan_filtering_no_L; [| |exact H].
  - discriminate.
  - apply Forall_take. now apply Forall_drop.
Qed.

(** C9: what [kalman_smooth_associative] writes into the last step
    equation.  The state is a copy of [b] of the last filtered element and
    the covariance type is 'C', but the covariance is a copy of the field
    [L] of that element, not of its filtered covariance [Z]; no filtering
    element is ever given an [L], so the covariance written is NULL. *)
Theorem last_step_copies_L `{DK : Dense}
  (equations result : list StepEquations.kalman_step_equations_t) (l : Z) :
  Associative.kalman_smooth_associative equations l = Ok result ->
  exists filtered f q,
    filtered_elements equations l = Ok filtered /\
    Associative.get filtered (l - 2) = Ok (Some f) /\
    Associative.get result (l - 1) = Ok q /\
    StepEquations.state q = matrix_create_copy (Associative.b f) /\
    StepEquations.covariance q = matrix_create_copy (Associative.L f) /\
    Associative.L f = None /\
    StepEquations.covariance_type q = "C"%char.
Proof.
  unfold Associative.kalman_smooth_associative. intros H.
  obind H. rename a into elements. obind H. rename a into filtered.
  obind H. rename a into elements1. obind H. rename a into last_equation.
  obind H. rename a into last_filtered. obind H. rename a into f.
  destruct last_filtered as [f'|]; [|discriminate]. inversion E4; subst f'; clear E4.
  obind H. obind H. rename a0 into smoothed.
  assert (Hf : filtered_elements equations l = Ok filtered).
  { unfold filtered_elements. rewrite E. simpl. exact E0. }
  destruct (get_inv _ _ _ E2) as [Hl1 Hlast].
  destruct (get_inv _ _ _ E3) as [Hl2 _].
  unfold Associative.smoothed_to_state_new in H.
  apply for_range_frame in H; [|clear; intros s j s' Hb|lia].
  2:{ obind Hb. obind Hb. obind Hb. inversion Hb; subst. unfold Associative.put.
      split; [apply length_insert|]. intros i Hi. apply list_lookup_insert_ne. congruence. }
  destruct H as [Hlen Hfr].
  set (q := StepEquations.set_estimate (matrix_create_copy (Associative.b f))
              (matrix_create_copy (Associative.L f)) "C" last_equation) in *.
  exists filtered, f, q. split; [exact Hf|]. split; [exact E3|].
  split.
  { apply get_lookup; [lia|]. rewrite Hfr by lia. unfold Associative.put.
    apply list_lookup_insert_eq. eapply lookup_lt_Some; eauto. }
  split; [reflexivity|]. split; [reflexivity|]. split; [|reflexivity].
  pose proof (filtered_no_L _ _ _ Hf) as Hall.
  apply get_inv in E3. destruct E3 as [_ E3].
  eapply (Forall_lookup_1 _ _ _ _ Hall E3). reflexivity.
Qed.

(** ** [kalman_smooth] *)

Lemma is_live_inv (c : slot) : is_live c = true -> exists m, c = Live m.
Proof. destruct c; simpl; intros H; try discriminate; eauto. Qed.

Lemma store_store (p : addr) (s1 s2 : step_t) (h : heap_t) :
  store p s2 (store p s1 h) = store p s2 h.
Proof. unfold store. apply list_insert_insert_eq. Qed.

Lemma length_store (p : addr) (s : step_t) (h : heap_t) :
  length (store p s h) = length h.
Proof. unfold store. apply length_insert. Qed.

(** One iteration of the state pass. *)
Lemma smooth_states_iteration `{LA : Lapack} (n : nat) (si la : Z) (a : farray_t)
  (prev : option addr) (h : heap_t) (p : addr) (s : step_t) (Rd yv : matrix_t)
  (next : option (matrix_t * matrix_t)) :
  farray_get a si = Ok p ->
  h !! p = Some (Some s) ->
  Rdiag s = Live Rd -> y s = Live yv -> is_freed (state s) = false ->
  (if si <? la then
     exists Rs q sq pv,
       Rsupdiag s = Live Rs /\ prev = Some q /\ q <> p /\
       h !! q = Some (Some sq) /\ state sq = Live pv /\ next = Some (Rs, pv)
   else next = None) ->
  smooth_states (S n) si la a prev h
  = smooth_states n (si - 1) la a (Some p)
      (store p (set_state (Live (smoothed_state s Rd yv next)) s) h).
Proof.
  intros Hget Hp HRd Hy Hst Hnext. cbn [smooth_states].
  rewrite Hget. cbn [mbind outcome_bind]. rewrite (load_lookup _ _ _ Hp). cbn [mbind outcome_bind].
  assert (Hbuf : exists s1,
            (if is_null (state s)
             then yv0 ← deref (y s);
                  Ok (set_state (Live (matrix_create (matrix_rows yv0) 1)) s)
             else Ok s) = Ok s1 /\
            state s1 = Live (state_buffer s yv) /\
            set_state (state s) s1 = s).
  { unfold state_buffer. destruct (state s) eqn:Est; simpl in *; try discriminate.
    - rewrite Hy. simpl. eexists. split; [reflexivity|]. split; [reflexivity|].
      destruct s; simpl in *; subst; reflexivity.
    - eexists. split; [reflexivity|]. split; [assumption|].
      destruct s; simpl in *; subst; reflexivity. }
  destruct Hbuf as (s1 & -> & Hs1 & Hs1').
  cbn [mbind outcome_bind]. rewrite Hs1. cbn [deref mbind outcome_bind].
  assert (Hy1 : y s1 = Live yv) by (rewrite <- Hs1' in Hy; exact Hy).
  assert (HRd1 : Rdiag s1 = Live Rd) by (rewrite <- Hs1' in HRd; exact HRd).
  rewrite Hy1. cbn [deref mbind outcome_bind].
  cbn [Rsupdiag set_state state Rdiag].
  set (st := matrix_mutate_copy (state_buffer s yv) yv).
  assert (Hfin : forall v, set_state (Live v) (set_state (Live st) s1) = set_state (Live v) s).
  { intros v. rewrite <- Hs1'. reflexivity. }
  destruct (si <? la) eqn:Ela.
  - destruct Hnext as (Rs & q & sq & pv & HRs & -> & Hq & Hsq & Hpv & ->).
    assert (HRs1 : Rsupdiag s1 = Live Rs) by (rewrite <- Hs1' in HRs; exact HRs).
    rewrite HRs1. cbn [deref mbind outcome_bind nonnull].
    rewrite (load_lookup q _ sq) by (rewrite store_lookup_ne by assumption; exact Hsq).
    cbn [mbind outcome_bind]. rewrite Hpv. cbn [deref mbind outcome_bind].
    cbn [Rdiag set_state state]. rewrite HRd1. cbn [deref mbind outcome_bind].
    rewrite store_store. rewrite Hfin. reflexivity.
  - subst next. cbn [mbind outcome_bind Rdiag set_state state].
    rewrite HRd1. cbn [deref mbind outcome_bind].
    rewrite store_store. rewrite Hfin. reflexivity.
Qed.

Lemma smooth_states_spec `{LA : Lapack} (f : Z) (l : list addr) :
  NoDup l ->
  forall (n : nat) (h : heap_t) (prev : option addr),
    (n <= length l)%nat ->
    (forall j p, (j < n)%nat -> l !! j = Some p ->
       exists s, h !! p = Some (Some s) /\
                 smoothable (bool_decide (S j = length l)) s) ->
    (match l !! n with
     | None => True
     | Some q => prev = Some q /\
                 exists sq pv, h !! q = Some (Some sq) /\ state sq = Live pv
     end) ->
    exists h',
      smooth_states n (f + Z.of_nat n - 1) (f + Z.of_nat (length l) - 1)
        {| first := f; elems := l |} prev h = Ok h' /\
      length h' = length h /\
      (forall q, (forall j, (j < n)%nat -> l !! j <> Some q) -> h' !! q = h !! q) /\
      (forall j p s, (j < n)%nat -> l !! j = Some p -> h !! p = Some (Some s) ->
         exists Rd yv next,
           Rdiag s = Live Rd /\ y s = Live yv /\
           h' !! p = Some (Some (set_state (Live (smoothed_state s Rd yv next)) s)) /\
           next_of l h' j s next).
Proof.
  intros Hnd. induction n as [|n IH]; intros h prev Hn Hcells Hprev.
  - exists h. simpl. split; [reflexivity|]. split; [reflexivity|].
    split; [reflexivity|]. intros j p s Hj. lia.
  - destruct (lookup_lt_is_Some_2 l n ltac:(lia)) as [p Hp].
    destruct (Hcells n p ltac:(lia) Hp) as (s & Hs & HRd & Hy & Hst & Hnl).
    apply is_live_inv in HRd, Hy. destruct HRd as [Rd HRd]. destruct Hy as [yv Hy].
    set (a := {| first := f; elems := l |}).
    assert (Hget : farray_get a (f + Z.of_nat (S n) - 1) = Ok p).
    { replace (f + Z.of_nat (S n) - 1) with (first a + Z.of_nat n) by (simpl; lia).
      now apply farray_get_lookup. }
    assert (Hnext : exists next,
              (if f + Z.of_nat (S n) - 1 <? f + Z.of_nat (length l) - 1 then
                 exists Rs q sq pv,
                   Rsupdiag s = Live Rs /\ prev = Some q /\ q <> p /\
                   h !! q = Some (Some sq) /\ state sq = Live pv /\ next = Some (Rs, pv)
               else next = None) /\
              match l !! S n with
              | None => next = None
              | Some q => exists Rs sq pv,
                  q <> p /\ Rsupdiag s = Live Rs /\ h !! q = Some (Some sq) /\
                  state sq = Live pv /\ next = Some (Rs, pv)
              end).
    { destruct (l !! S n) as [q|] eqn:Eq.
      - destruct Hprev as (-> & sq & pv & Hsq & Hpv).
        pose proof (lookup_lt_Some _ _ _ Eq) as Hlt.
        destruct Hnl as [HRs _].
        { apply bool_decide_eq_false. lia. }
        apply is_live_inv in HRs. destruct HRs as [Rs HRs].
        assert (Hqp : q <> p).
        { intros ->. pose proof (NoDup_lookup _ _ _ _ Hnd Eq Hp). lia. }
        exists (Some (Rs, pv)). split.
        + destruct (_ <? _) eqn:E; [|apply Z.ltb_ge in E; lia].
          exists Rs, q, sq, pv. auto 10.
        + exists Rs, sq, pv. auto 10.
      - apply lookup_ge_None in Eq. exists None. split; [|reflexivity].
        destruct (_ <? _) eqn:E; [apply Z.ltb_lt in E; lia|reflexivity]. }
    destruct Hnext as (next & Hnext1 & Hnext2).
    rewrite (smooth_states_iteration n _ _ a prev h p s Rd yv next Hget Hs HRd Hy Hst Hnext1).
    set (s' := set_state (Live (smoothed_state s Rd yv next)) s).
    set (h2 := store p s' h).
    assert (Hh2p : h2 !! p = Some (Some s')) by (eapply store_lookup_eq; eauto).
    destruct (IH h2 (Some p)) as (h' & Heq & Hlen & Hframe & Hrel).
    { lia. }
    { intros j q Hj Hq. destruct (Hcells j q ltac:(lia) Hq) as (sq & Hsq & Hsm).
      exists sq. split; [|assumption]. unfold h2. rewrite store_lookup_ne; [assumption|].
      intros ->. pose proof (NoDup_lookup _ _ _ _ Hnd Hq Hp). lia. }
    { rewrite Hp. split; [reflexivity|]. exists s', (smoothed_state s Rd yv next).
      split; [assumption|reflexivity]. }
    exists h'. split.
    { replace (f + Z.of_nat (S n) - 1 - 1) with (f + Z.of_nat n - 1) by lia. exact Heq. }
    split; [rewrite Hlen; apply length_store|].
    assert (Hfr_p : forall q, (forall j, (j < n)%nat -> l !! j <> Some q) -> q <> p ->
                              h' !! q = h !! q).
    { intros q Hq Hqp. rewrite Hframe by assumption. unfold h2. now apply store_lookup_ne. }
    assert (Hh'p : h' !! p = Some (Some s')).
    { rewrite Hframe; [assumption|]. intros j Hj Hjp.
      pose proof (NoDup_lookup _ _ _ _ Hnd Hjp Hp). lia. }
    split.
    { intros q Hq. apply Hfr_p.
      - intros j Hj. apply Hq. lia.
      - intros ->. apply (Hq n); [lia|assumption]. }
    intros j q sq Hj Hq Hsq.
    destruct (Nat.eq_dec j n) as [->|Hjn].
    + rewrite Hp in Hq. inversion Hq; subst q. rewrite Hs in Hsq. inversion Hsq; subst sq.
      exists Rd, yv, next. split; [assumption|]. split; [assumption|]. split; [assumption|].
      unfold next_of. destruct (l !! S n) as [q|] eqn:Eq; [|assumption].
      destruct Hnext2 as (Rs & sq & pv & Hqp & HRs & Hsq' & Hpv & ->).
      exists Rs, sq, pv. split; [assumption|]. split; [|auto].
      rewrite Hfr_p; [assumption| |assumption].
      intros j Hj' Hjq. pose proof (NoDup_lookup _ _ _ _ Hnd Hjq Eq). lia.
    + apply (Hrel j q sq); [lia|assumption|].
      unfold h2. rewrite store_lookup_ne; [assumption|].
      intros ->. pose proof (NoDup_lookup _ _ _ _ Hnd Hq Hp). lia.
Qed.

Lemma smooth_covariances_latest `{LA : Lapack} (n : nat) (la : Z) (a : farray_t)
  (R : option R_ref) (n_ipo : Z) (h : heap_t) (p : addr) (s : step_t) (Rd : matrix_t) :
  farray_get a la = Ok p -> h !! p = Some (Some s) -> Rdiag s = Live Rd ->
  smooth_covariances (S n) la la a R n_ipo h
  = smooth_covariances n (la - 1) la a (Some (Rdiag_of p)) (matrix_rows Rd) h.
Proof.
  intros Hget Hp HRd. cbn [smooth_covariances]. rewrite Hget. cbn [mbind outcome_bind].
  rewrite (load_lookup _ _ _ Hp). cbn [mbind outcome_bind]. rewrite Z.eqb_refl.
  rewrite HRd. reflexivity.
Qed.

Lemma set_covariance_same (s : step_t) : set_covariance (covariance s) s = s.
Proof. destruct s; reflexivity. Qed.

Lemma smooth_covariances_iteration `{LA : Lapack} (n : nat) (si la : Z) (a : farray_t)
  (R : R_ref) (n_ipo : Z) (h : heap_t) (p : addr) (s : step_t)
  (Rd Rs Rv : matrix_t) :
  farray_get a si = Ok p -> h !! p = Some (Some s) -> si <> la ->
  is_freed (covariance s) = false ->
  Rdiag s = Live Rd -> Rsupdiag s = Live Rs ->
  (forall c, read_R R (store p (set_covariance c s) h) = Ok Rv) ->
  smooth_covariances (S n) si la a (Some R) n_ipo h
  = smooth_covariances n (si - 1) la a (Some (covariance_of p)) (matrix_rows Rd)
      (store p (set_covariance (Live (smoothed_covariance Rs Rv Rd n_ipo)) s) h).
Proof.
  intros Hget Hp Hne Hfr HRd HRs HR. cbn [smooth_covariances].
  rewrite Hget. cbn [mbind outcome_bind].
  rewrite (load_lookup _ _ _ Hp). cbn [mbind outcome_bind].
  destruct (si =? la) eqn:E; [apply Z.eqb_eq in E; contradiction|].
  destruct (matrix_free_releasable _ Hfr) as [c Hc]. rewrite Hc.
  cbn [mbind outcome_bind Rdiag Rsupdiag set_covariance].
  rewrite HRd, HRs. cbn [deref arg mbind outcome_bind nonnull].
  rewrite HR. cbn [mbind outcome_bind matrix_create_vconcat nonnull].
  unfold matrix_create_mutate_qr. cbn beta iota.
  rewrite store_store. reflexivity.
Qed.

Lemma smooth_covariances_spec `{LA : Lapack} (f : Z) (l : list addr) :
  NoDup l ->
  forall (n : nat) (h : heap_t) (R : option R_ref) (n_ipo : Z),
    (n <= length l)%nat ->
    (forall j p, (j < n)%nat -> l !! j = Some p ->
       exists s, h !! p = Some (Some s) /\
                 smoothable (bool_decide (S j = length l)) s) ->
    (match l !! n with
     | None => True
     | Some q =>
         exists sq Rd1,
           h !! q = Some (Some sq) /\ Rdiag sq = Live Rd1 /\
           n_ipo = matrix_rows Rd1 /\
           match l !! S n with
           | None => R = Some (Rdiag_of q)
           | Some _ => R = Some (covariance_of q) /\ is_live (covariance sq) = true
           end
     end) ->
    exists h',
      smooth_covariances n (f + Z.of_nat n - 1) (f + Z.of_nat (length l) - 1)
        {| first := f; elems := l |} R n_ipo h = Ok h' /\
      length h' = length h /\
      (forall q, (forall j, (j < n)%nat -> l !! j <> Some q) -> h' !! q = h !! q) /\
      (forall j p s, (j < n)%nat -> l !! j = Some p -> h !! p = Some (Some s) ->
         exists c, h' !! p = Some (Some (set_covariance c s)) /\ cov_of l h' j s c).
Proof.
  intros Hnd. induction n as [|n IH]; intros h R n_ipo Hn Hcells Hprev.
  - exists h. simpl. split; [reflexivity|]. split; [reflexivity|].
    split; [reflexivity|]. intros j p s Hj. lia.
  - destruct (lookup_lt_is_Some_2 l n ltac:(lia)) as [p Hp].
    destruct (Hcells n p ltac:(lia) Hp) as (s & Hs & HRd & Hy & Hst & Hnl).
    apply is_live_inv in HRd. destruct HRd as [Rd HRd].
    set (a := {| first := f; elems := l |}).
    assert (Hget : farray_get a (f + Z.of_nat (S n) - 1) = Ok p).
    { replace (f + Z.of_nat (S n) - 1) with (first a + Z.of_nat n) by (simpl; lia).
      now apply farray_get_lookup. }
    (* the heap after this iteration and the running factor *)
    assert (Hiter : exists c,
              smooth_covariances (S n) (f + Z.of_nat (S n) - 1)
                (f + Z.of_nat (length l) - 1) a R n_ipo h
              = smooth_covariances n (f + Z.of_nat n - 1)
                  (f + Z.of_nat (length l) - 1) a
                  (Some (if bool_decide (S n = length l) then Rdiag_of p
                         else covariance_of p))
                  (matrix_rows Rd) (store p (set_covariance c s) h) /\
              (bool_decide (S n = length l) = false -> is_live c = true) /\
              match l !! S n with
              | None => c = covariance s
              | Some p1 =>
                  exists Rs s1 Rd1 Rv,
                    p1 <> p /\ Rsupdiag s = Live Rs /\
                    h !! p1 = Some (Some s1) /\ Rdiag s1 = Live Rd1 /\
                    match l !! S (S n) with
                    | None => Rv = Rd1
                    | Some _ => covariance s1 = Live Rv
                    end /\
                    c = Live (smoothed_covariance Rs Rv Rd (matrix_rows Rd1))
              end).
    { destruct (l !! S n) as [q|] eqn:Eq.
      - pose proof (lookup_lt_Some _ _ _ Eq) as Hlt.
        destruct Hprev as (sq & Rd1 & Hsq & HRd1 & -> & HR).
        destruct Hnl as [HRs Hcov]; [apply bool_decide_eq_false; lia|].
        apply is_live_inv in HRs. destruct HRs as [Rs HRs].
        assert (Hqp : q <> p).
        { intros ->. pose proof (NoDup_lookup _ _ _ _ Hnd Eq Hp). lia. }
        assert (HRv : exists Rv R0,
                  R = Some R0 /\
                  (forall c, read_R R0 (store p (set_covariance c s) h) = Ok Rv) /\
                  match l !! S (S n) with
                  | None => Rv = Rd1
                  | Some _ => covariance sq = Live Rv
                  end).
        { destruct (l !! S (S n)) eqn:Eq2.
          - destruct HR as [-> Hlive]. apply is_live_inv in Hlive.
            destruct Hlive as [Rv HRv]. exists Rv, (covariance_of q).
            split; [reflexivity|]. split; [|assumption].
            intros c. simpl. rewrite (load_lookup q _ sq)
              by (rewrite store_lookup_ne by assumption; exact Hsq).
            simpl. now rewrite HRv.
          - subst R. exists Rd1, (Rdiag_of q). split; [reflexivity|]. split; [|reflexivity].
            intros c. simpl. rewrite (load_lookup q _ sq)
              by (rewrite store_lookup_ne by assumption; exact Hsq).
            simpl. now rewrite HRd1. }
        destruct HRv as (Rv & R0 & -> & HRv & HRv2).
        exists (Live (smoothed_covariance Rs Rv Rd (matrix_rows Rd1))).
        split.
        { rewrite (smooth_covariances_iteration n _ _ a R0 _ h p s Rd Rs Rv); auto; [|lia].
          replace (f + Z.of_nat (S n) - 1 - 1) with (f + Z.of_nat n - 1) by lia.
          rewrite bool_decide_eq_false_2 by lia. reflexivity. }
        split; [reflexivity|].
        exists Rs, sq, Rd1, Rv. auto 10.
      - apply lookup_ge_None in Eq. exists (covariance s). split.
        { replace (f + Z.of_nat (S n) - 1) with (f + Z.of_nat (length l) - 1) in * by lia.
          rewrite (smooth_covariances_latest n _ a R n_ipo h p s Rd); auto.
          replace (f + Z.of_nat (length l) - 1 - 1) with (f + Z.of_nat n - 1) by lia.
          rewrite bool_decide_eq_true_2 by lia.
          rewrite set_covariance_same.
          unfold store. rewrite list_insert_id by assumption. reflexivity. }
        split; [|reflexivity]. intros Hb. apply bool_decide_eq_false in Hb. lia. }
    destruct Hiter as (c & Heq1 & Hclive & Hc).
    rewrite Heq1.
    set (s' := set_covariance c s).
    set (h2 := store p s' h).
    assert (Hh2p : h2 !! p = Some (Some s')) by (eapply store_lookup_eq; eauto).
    destruct (IH h2 (Some (if bool_decide (S n = length l) then Rdiag_of p
                           else covariance_of p)) (matrix_rows Rd))
      as (h' & Heq & Hlen & Hframe & Hrel).
    { lia. }
    { intros j q Hj Hq. destruct (Hcells j q ltac:(lia) Hq) as (sq & Hsq & Hsm).
      exists sq. split; [|assumption]. unfold h2. rewrite store_lookup_ne; [assumption|].
      intros ->. pose proof (NoDup_lookup _ _ _ _ Hnd Hq Hp). lia. }
    { rewrite Hp. exists s', Rd. split; [assumption|]. split; [assumption|].
      split; [reflexivity|].
      destruct (l !! S n) eqn:Eq.
      - pose proof (lookup_lt_Some _ _ _ Eq) as Hlt.
        rewrite bool_decide_eq_false_2 by lia. split; [reflexivity|].
        apply Hclive. apply bool_decide_eq_false. lia.
      - apply lookup_ge_None in Eq. rewrite bool_decide_eq_true_2 by lia. reflexivity. }
    exists h'. split; [exact Heq|].
    split; [rewrite Hlen; apply length_store|].
    assert (Hfr_p : forall q, (forall j, (j < n)%nat -> l !! j <> Some q) -> q <> p ->
                              h' !! q = h !! q).
    { intros q Hq Hqp. rewrite Hframe by assumption. unfold h2. now apply store_lookup_ne. }
    assert (Hh'p : h' !! p = Some (Some s')).
    { rewrite Hframe; [assumption|]. intros j Hj Hjp.
      pose proof (NoDup_lookup _ _ _ _ Hnd Hjp Hp). lia. }
    split.
    { intros q Hq. apply Hfr_p.
      - intros j Hj. apply Hq. lia.
      - intros ->. apply (Hq n); [lia|assumption]. }
    intros j q sq Hj Hq Hsq.
    destruct (Nat.eq_dec j n) as [->|Hjn].
    + rewrite Hp in Hq. inversion Hq; subst q. rewrite Hs in Hsq. inversion Hsq; subst sq.
      exists c. split; [assumption|].
      unfold cov_of. destruct (l !! S n) as [q|] eqn:Eq; [|assumption].
      destruct Hc as (Rs & s1 & Rd1 & Rv & Hqp & HRs & Hs1 & HRd1 & HRv & ->).
      exists Rd, Rs, s1, Rd1, Rv. split; [assumption|]. split; [assumption|].
      split; [|auto].
      rewrite Hfr_p; [assumption| |assumption].
      intros j Hj' Hjq. pose proof (NoDup_lookup _ _ _ _ Hnd Hjq Eq). lia.
    + apply (Hrel j q sq); [lia|assumption|].
      unfold h2. rewrite store_lookup_ne; [assumption|].
      intros ->. pose proof (NoDup_lookup _ _ _ _ Hnd Hq Hp). lia.
Qed.

Lemma step_at_inv (k : kalman_t) (si : Z) (s : step_t) :
  step_at k si = Some s ->
  exists j p, si = first (steps k) + Z.of_nat j /\
              elems (steps k) !! j = Some p /\ heap k !! p = Some (Some s).
Proof.
  unfold step_at. intros H. destruct (farray_get (steps k) si) as [p|] eqn:E; [|discriminate].
  apply farray_get_inv in E. destruct E as [Hr Hp].
  destruct (heap k !! p) as [[s0|]|] eqn:Hs; try discriminate. inversion H; subst.
  exists (Z.to_nat (si - first (steps k))), p. split; [lia|]. auto.
Qed.

Lemma smoothable_last_eqb (k : kalman_t) (j : nat) :
  (j < length (elems (steps k)))%nat ->
  (first (steps k) + Z.of_nat j =? farray_last_index (steps k))
  = bool_decide (S j = length (elems (steps k))).
Proof.
  intros Hj. unfold farray_last_index, farray_size.
  destruct (bool_decide (S j = length (elems (steps k)))) eqn:E.
  - apply bool_decide_eq_true in E. apply Z.eqb_eq. lia.
  - apply bool_decide_eq_false in E. apply Z.eqb_neq. lia.
Qed.

Lemma smooth_spec `{LA : Lapack} (k : kalman_t) :
  indexed k -> elems (steps k) <> [] ->
  (forall j p s, elems (steps k) !! j = Some p -> heap k !! p = Some (Some s) ->
                 smoothable (bool_decide (S j = length (elems (steps k)))) s) ->
  exists k',
    kalman_smooth k = Ok k' /\ steps k' = steps k /\ current k' = current k /\
    length (heap k') = length (heap k) /\
    (forall q, (forall j, elems (steps k) !! j <> Some q) -> heap k' !! q = heap k !! q) /\
    (forall j p s, elems (steps k) !! j = Some p -> heap k !! p = Some (Some s) ->
       exists Rd yv next c,
         Rdiag s = Live Rd /\ y s = Live yv /\
         heap k' !! p
         = Some (Some (set_covariance c
                         (set_state (Live (smoothed_state s Rd yv next)) s))) /\
         next_of (elems (steps k)) (heap k') j s next /\
         cov_of (elems (steps k)) (heap k') j s c).
Proof.
  intros Hi Hne Hsm. pose proof (indexed_NoDup k Hi) as Hnd.
  destruct k as [h [f l] cur]. cbn [steps elems heap current first] in *.
  unfold kalman_smooth, farray_size, farray_last_index, farray_first_index, farray_size.
  cbn [steps elems heap current first].
  assert (Hlen : (0 < length l)%nat) by (destruct l; [congruence|simpl; lia]).
  destruct (Z.of_nat (length l) =? 0) eqn:E0; [apply Z.eqb_eq in E0; lia|].
  replace (Z.to_nat (f + Z.of_nat (length l) - 1 - f + 1)) with (length l) by lia.
  destruct (smooth_states_spec f l Hnd (length l) h None) as (h1 & Heq1 & Hlen1 & Hfr1 & Hrel1).
  { lia. }
  { intros j p Hj Hp. destruct (Hi _ _ Hp) as (s & Hs & _). exists s. split; [assumption|].
    eapply Hsm; eauto. }
  { rewrite lookup_ge_None_2 by lia. exact I. }
  rewrite Heq1. cbn [mbind outcome_bind].
  destruct (smooth_covariances_spec f l Hnd (length l) h1 None 0)
    as (h2 & Heq2 & Hlen2 & Hfr2 & Hrel2).
  { lia. }
  { intros j p Hj Hp. destruct (Hi _ _ Hp) as (s & Hs & _).
    destruct (Hrel1 j p s Hj Hp Hs) as (Rd & yv & next & HRd & Hy & Hh1 & _).
    eexists. split; [exact Hh1|].
    destruct (Hsm j p s Hp Hs) as (H1 & H2 & H3 & H4).
    split; [exact H1|]. split; [exact H2|]. split; [reflexivity|exact H4]. }
  { rewrite lookup_ge_None_2 by lia. exact I. }
  rewrite Heq2. cbn [mbind outcome_bind].
  eexists. split; [reflexivity|]. cbn [steps elems heap current first].
  split; [reflexivity|]. split; [reflexivity|]. split; [congruence|].
  split.
  { intros q Hq. rewrite Hfr2 by (intros j _; apply Hq). apply Hfr1. intros j _. apply Hq. }
  intros j p s Hp Hs. pose proof (lookup_lt_Some _ _ _ Hp) as Hj.
  destruct (Hrel1 j p s Hj Hp Hs) as (Rd & yv & next & HRd & Hy & Hh1 & Hnext).
  destruct (Hrel2 j p _ Hj Hp Hh1) as (c & Hh2 & Hc).
  exists Rd, yv, next, c. split; [assumption|]. split; [assumption|].
  split; [assumption|]. split.
  - unfold next_of in *. destruct (l !! S j) as [p1|] eqn:Ep1; [|assumption].
    destruct Hnext as (Rs & s1 & pv & HRs & Hs1 & Hpv & ->).
    pose proof (lookup_lt_Some _ _ _ Ep1) as Hj1.
    destruct (Hrel2 (S j) p1 s1 Hj1 Ep1 Hs1) as (c1 & Hc1 & _).
    exists Rs, (set_covariance c1 s1), pv. auto.
  - exact Hc.
Qed.

Lemma in_place_same_dims (C A : matrix_t) :
  row_dim C = row_dim A -> col_dim C = col_dim A -> in_place C A = A.
Proof. destruct A; unfold in_place; simpl; intros -> ->; reflexivity. Qed.

Lemma smoothed_state_fits `{LA : Lapack} (s : step_t) (Rd yv : matrix_t)
  (next : option (matrix_t * matrix_t)) :
  state_fits s -> y s = Live yv ->
  smoothed_state s Rd yv next
  = matrix_mutate_trisolve Rd
      (match next with
       | None => yv
       | Some (Rs, pv) => matrix_mutate_gemm (-1)%float Rs pv 1%float yv
       end).
Proof.
  intros Hfit Hy. destruct (Hfit yv Hy) as [H1 H2]. unfold smoothed_state.
  unfold matrix_mutate_copy. rewrite (in_place_same_dims _ _ H1 H2). reflexivity.
Qed.

(** C2: on a non-empty log whose steps hold the blocks the pass reads,
    [kalman_smooth] returns, keeps the log and the blocks [Rdiag],
    [Rsupdiag] and [y] of every step, sets the state of the latest step to
    the triangular solve of its [Rdiag] against its [y], and the state of
    every earlier step [si] to the triangular solve of [Rdiag] against
    [y - Rsupdiag * state(si+1)], where [state(si+1)] is the new state of
    the next step. *)
Theorem smooth_state_pass `{LA : Lapack} (k : kalman_t) :
  indexed k -> elems (steps k) <> [] ->
  (forall si s, step_at k si = Some s ->
     smoothable (si =? farray_last_index (steps k)) s /\ state_fits s) ->
  exists k',
    kalman_smooth k = Ok k' /\ steps k' = steps k /\
    forall si s, step_at k si = Some s ->
      exists s' Rd yv,
        step_at k' si = Some s' /\
        Rdiag s = Live Rd /\ y s = Live yv /\
        Rdiag s' = Live Rd /\ y s' = Live yv /\ Rsupdiag s' = Rsupdiag s /\
        (si = farray_last_index (steps k) ->
         state s' = Live (matrix_mutate_trisolve Rd yv)) /\
        (si < farray_last_index (steps k) ->
         exists Rs s1 v1,
           Rsupdiag s' = Live Rs /\ step_at k' (si + 1) = Some s1 /\
           state s1 = Live v1 /\
           state s' = Live (matrix_mutate_trisolve Rd
                              (matrix_mutate_gemm (-1)%float Rs v1 1%float yv))).
Proof.
  intros Hi Hne Hsm.
  destruct (smooth_spec k Hi Hne) as (k' & Heq & Hsteps & Hcur & Hlen & Hfr & Hrel).
  { intros j p s Hp Hs. pose proof (lookup_lt_Some _ _ _ Hp) as Hj.
    rewrite <- (smoothable_last_eqb k j Hj). apply Hsm. eapply step_at_lookup; eauto. }
  exists k'. split; [assumption|]. split; [assumption|].
  intros si s Hat. destruct (Hsm si s Hat) as [_ Hfit].
  destruct (step_at_inv _ _ _ Hat) as (j & p & -> & Hp & Hs).
  destruct (Hrel j p s Hp Hs) as (Rd & yv & next & c & HRd & Hy & Hh' & Hnext & Hc).
  pose proof (lookup_lt_Some _ _ _ Hp) as Hj.
  eexists _, Rd, yv. split.
  { rewrite <- Hsteps in Hp. rewrite <- Hsteps.
    eapply step_at_lookup; [exact Hp|exact Hh']. }
  split; [assumption|]. split; [assumption|]. simpl.
  split; [assumption|]. split; [assumption|]. split; [reflexivity|].
  rewrite (smoothed_state_fits s Rd yv next Hfit Hy).
  unfold next_of in Hnext. unfold farray_last_index, farray_size.
  split.
  - intros Hlast. rewrite lookup_ge_None_2 in Hnext by lia. subst next. reflexivity.
  - intros Hlt. destruct (lookup_lt_is_Some_2 (elems (steps k)) (S j) ltac:(lia)) as [p1 Hp1].
    rewrite Hp1 in Hnext. destruct Hnext as (Rs & s1 & pv & HRs & Hs1 & Hpv & ->).
    exists Rs, s1, pv. split; [assumption|]. split; [|auto].
    replace (first (steps k) + Z.of_nat j + 1) with (first (steps k') + Z.of_nat (S j))
      by (rewrite Hsteps; lia).
    rewrite <- Hsteps in Hp1. eapply step_at_lookup; eauto.
Qed.

Lemma smoothed_state_again `{LA : Lapack} (s s1 : step_t) (Rd yv : matrix_t)
  (next0 next : option (matrix_t * matrix_t)) :
  state s1 = Live (smoothed_state s Rd yv next0) ->
  smoothed_state s1 Rd yv next = smoothed_state s Rd yv next.
Proof.
  intros H.
  assert (E : matrix_mutate_copy (state_buffer s1 yv) yv
              = matrix_mutate_copy (state_buffer s yv) yv).
  { unfold state_buffer at 1. rewrite H. destruct next0 as [[Rs0 pv0]|]; reflexivity. }
  unfold smoothed_state. cbv zeta. rewrite E. reflexivity.
Qed.

Lemma smooth_fixed_point `{LA : Lapack} (k k1 k2 : kalman_t) :
  indexed k -> elems (steps k) <> [] ->
  (forall j p s, elems (steps k) !! j = Some p -> heap k !! p = Some (Some s) ->
                 smoothable (bool_decide (S j = length (elems (steps k)))) s) ->
  kalman_smooth k = Ok k1 -> kalman_smooth k1 = Ok k2 -> k2 = k1.
Proof.
  intros Hi Hne Hsm H1 H2.
  destruct (smooth_spec k Hi Hne Hsm) as (k1' & Heq & Hsteps & Hcur & Hlen & Hfr & Hrel).
  rewrite H1 in Heq. inversion Heq; subst k1'; clear Heq.
  assert (Hi1 : indexed k1).
  { intros j p Hp. rewrite Hsteps in Hp. destruct (Hi j p Hp) as (s & Hs & Hst).
    destruct (Hrel j p s Hp Hs) as (Rd & yv & next & c & _ & _ & Hh & _).
    eexists. split; [exact Hh|]. rewrite Hsteps. exact Hst. }
  assert (Hne1 : elems (steps k1) <> []) by (now rewrite Hsteps).
  assert (Hsm1 : forall j p s, elems (steps k1) !! j = Some p ->
                   heap k1 !! p = Some (Some s) ->
                   smoothable (bool_decide (S j = length (elems (steps k1)))) s).
  { intros j p s1 Hp Hs1. rewrite Hsteps in *. destruct (Hi j p Hp) as (s & Hs & Hst).
    destruct (Hrel j p s Hp Hs) as (Rd & yv & next & c & _ & _ & Hh & _ & Hc).
    rewrite Hh in Hs1. inversion Hs1; subst s1; clear Hs1.
    destruct (Hsm j p s Hp Hs) as (Ha & Hb & Hc' & Hd).
    split; [exact Ha|]. split; [exact Hb|]. split; [reflexivity|].
    intros Hl. destruct (Hd Hl) as [Hd1 Hd2]. split; [exact Hd1|]. simpl.
    unfold cov_of in Hc. destruct (elems (steps k) !! S j).
    - destruct Hc as (? & ? & ? & ? & ? & _ & _ & _ & _ & _ & ->). reflexivity.
    - subst c. exact Hd2. }
  destruct (smooth_spec k1 Hi1 Hne1 Hsm1)
    as (k2' & Heq & Hsteps2 & Hcur2 & Hlen2 & Hfr2 & Hrel2).
  rewrite H2 in Heq. inversion Heq; subst k2'; clear Heq.
  rewrite Hsteps in *.
  set (l := elems (steps k)) in *.
  assert (Hcells : forall d j p, (length l <= j + d)%nat -> l !! j = Some p ->
                                 heap k2 !! p = heap k1 !! p).
  { induction d as [|d IH]; intros j p Hd Hp.
    { pose proof (lookup_lt_Some _ _ _ Hp). lia. }
    destruct (Hi j p Hp) as (s & Hs & _).
    destruct (Hrel j p s Hp Hs) as (Rd & yv & next & c & HRd & Hy & Hh1 & Hnext & Hc).
    destruct (Hrel2 j p _ Hp Hh1) as (Rd' & yv' & next' & c' & HRd' & Hy' & Hh2 & Hnext' & Hc').
    simpl in HRd', Hy'. rewrite HRd in HRd'. rewrite Hy in Hy'.
    inversion HRd'; subst Rd'. inversion Hy'; subst yv'.
    rewrite Hh2, Hh1. do 2 f_equal.
    assert (Enext : next' = next).
    { unfold next_of in *. destruct (l !! S j) as [p1|] eqn:Ep1; [|congruence].
      destruct Hnext as (Rs & t1 & pv & HRs & Ht1 & Hpv & ->).
      destruct Hnext' as (Rs' & t2 & pv' & HRs' & Ht2 & Hpv' & ->).
      simpl in HRs'. rewrite HRs in HRs'. inversion HRs'; subst Rs'.
      rewrite (IH (S j) p1 ltac:(lia) Ep1) in Ht2. rewrite Ht1 in Ht2.
      inversion Ht2; subst t2. rewrite Hpv in Hpv'. inversion Hpv'; subst. reflexivity. }
    assert (Ec : c' = c).
    { unfold cov_of in *. destruct (l !! S j) as [p1|] eqn:Ep1; [|subst c'; reflexivity].
      destruct Hc as (Rd0 & Rs & t1 & Rd1 & Rv & HRd0 & HRs & Ht1 & HRd1 & HRv & ->).
      destruct Hc' as (Rd0' & Rs' & t2 & Rd1' & Rv' & HRd0' & HRs' & Ht2 & HRd1' & HRv' & ->).
      simpl in HRd0', HRs'. rewrite HRd0 in HRd0'. rewrite HRs in HRs'.
      inversion HRd0'; subst Rd0'. inversion HRs'; subst Rs'.
      rewrite (IH (S j) p1 ltac:(lia) Ep1) in Ht2. rewrite Ht1 in Ht2.
      inversion Ht2; subst t2. rewrite HRd1 in HRd1'. inversion HRd1'; subst Rd1'.
      destruct (l !! S (S j)).
      - rewrite HRv in HRv'. inversion HRv'; subst. reflexivity.
      - subst. reflexivity. }
    subst next' c'.
    rewrite (smoothed_state_again s _ Rd yv next next) by reflexivity.
    reflexivity. }
  assert (Hheap : heap k2 = heap k1).
  { apply list_eq. intros q.
    destruct (decide (q ∈ l)) as [Hin|Hnot].
    - apply list_elem_of_lookup in Hin. destruct Hin as [j Hj].
      apply (Hcells (length l) j q); [lia|assumption].
    - apply Hfr2. intros j Hj. apply Hnot. apply list_elem_of_lookup. eauto. }
  destruct k1, k2. simpl in *. congruence.
Qed.

(** C5: [kalman_smooth] is idempotent: on a log whose steps hold the
    blocks the passes read, a first call returns some [k1], and a second
    call on [k1] returns [k1] itself; so every state and covariance is what
    the single call produced. *)
Theorem smooth_idempotent `{LA : Lapack} (k : kalman_t) :
  indexed k ->
  (forall si s, step_at k si = Some s ->
                smoothable (si =? farray_last_index (steps k)) s) ->
  exists k1, kalman_smooth k = Ok k1 /\ kalman_smooth k1 = Ok k1.
Proof.
  intros Hi Hsm. destruct (elems (steps k)) as [|x r] eqn:El.
  - exists k. unfold kalman_smooth, farray_size. rewrite El. simpl. auto.
  - assert (Hne : elems (steps k) <> []) by (rewrite El; discriminate).
    assert (Hsm' : forall j p s, elems (steps k) !! j = Some p ->
                     heap k !! p = Some (Some s) ->
                     smoothable (bool_decide (S j = length (elems (steps k)))) s).
    { intros j p s Hp Hs. pose proof (lookup_lt_Some _ _ _ Hp) as Hj.
      rewrite <- (smoothable_last_eqb k j Hj). apply Hsm. eapply step_at_lookup; eauto. }
    destruct (smooth_spec k Hi Hne Hsm') as (k1 & H1 & Hsteps & Hcur & Hlen & Hfr & Hrel).
    exists k1. split; [assumption|].
    assert (Hi1 : indexed k1).
    { intros j p Hp. rewrite Hsteps in Hp. destruct (Hi j p Hp) as (s & Hs & Hst).
      destruct (Hrel j p s Hp Hs) as (Rd & yv & next & c & _ & _ & Hh & _).
      eexists. split; [exact Hh|]. rewrite Hsteps. exact Hst. }
    assert (Hsm1 : forall j p s, elems (steps k1) !! j = Some p ->
                     heap k1 !! p = Some (Some s) ->
                     smoothable (bool_decide (S j = length (elems (steps k1)))) s).
    { intros j p s1 Hp Hs1. rewrite Hsteps in *. destruct (Hi j p Hp) as (s & Hs & Hst).
      destruct (Hrel j p s Hp Hs) as (Rd & yv & next & c & _ & _ & Hh & _ & Hc).
      rewrite Hh in Hs1. inversion Hs1; subst s1; clear Hs1.
      destruct (Hsm' j p s Hp Hs) as (Ha & Hb & Hc' & Hd).
      split; [exact Ha|]. split; [exact Hb|]. split; [reflexivity|].
      intros Hl. destruct (Hd Hl) as [Hd1 Hd2]. split; [exact Hd1|]. simpl.
      unfold cov_of in Hc. destruct (elems (steps k) !! S j).
      - destruct Hc as (? & ? & ? & ? & ? & _ & _ & _ & _ & _ & ->). reflexivity.
      - subst c. exact Hd2. }
    assert (Hne1 : elems (steps k1) <> []) by (now rewrite Hsteps).
    destruct (smooth_spec k1 Hi1 Hne1 Hsm1) as (k2 & H2 & _).
    rewrite H2. f_equal. exact (smooth_fixed_point k k1 k2 Hi Hne Hsm' H1 H2).
Qed.

(** ** The properties on runs of the driver *)

(** The boolean checks of [Props] decide the predicates they are named after. *)
Lemma indexedb_sound (k : kalman_t) : indexedb k = true -> indexed k.
Proof.
  unfold indexedb, indexed. intros H j p Hp.
  rewrite forallb_forall in H.
  assert (Hin : In (j, p) (imap pair (elems (steps k)))).
  { apply list_elem_of_In. apply list_elem_of_lookup. exists j.
    rewrite list_lookup_imap. now rewrite Hp. }
  specialize (H (j, p) Hin). simpl in H.
  destruct (heap k !! p) as [[s|]|] eqn:E; try discriminate.
  exists s. split; [reflexivity|]. now apply Z.eqb_eq.
Qed.

Lemma steps_check_sound (k : kalman_t) (chk : Z -> step_t -> bool) :
  steps_check k chk = true ->
  forall si s, step_at k si = Some s -> chk si s = true.
Proof.
  unfold steps_check. intros H si s Hat.
  destruct (step_at_inv _ _ _ Hat) as (j & p & -> & Hp & Hs).
  rewrite forallb_forall in H. specialize (H (j, p)). simpl in H. rewrite Hs in H.
  apply H. apply list_elem_of_In. apply list_elem_of_lookup. exists j.
  rewrite list_lookup_imap. now rewrite Hp.
Qed.

Lemma smoothableb_sound (b : bool) (s : step_t) : smoothableb b s = true -> smoothable b s.
Proof.
  unfold smoothableb, smoothable. intros H.
  repeat (apply andb_prop in H; destruct H as [H ?]).
  split; [assumption|]. split; [assumption|]. split; [now apply negb_true_iff|].
  intros ->. simpl in *. apply andb_prop in H0. destruct H0. split; [assumption|].
  now apply negb_true_iff.
Qed.

Lemma state_fitsb_sound (s : step_t) : state_fitsb s = true -> state_fits s.
Proof.
  unfold state_fitsb, state_fits. intros H yv Hy. rewrite Hy in H.
  apply andb_prop in H. destruct H as [H1 H2]. split; now apply Z.eqb_eq.
Qed.

Lemma freeableb_sound (s : step_t) : freeableb s = true -> freeable s.
Proof.
  unfold freeableb, freeable, releasable. intros H.
  repeat (apply andb_prop in H; destruct H as [H ?]).
  repeat split; now apply negb_true_iff.
Qed.

Lemma after_run `{LA : Lapack} (cs : list call) (k : kalman_t) :
  run cs kalman_create = Ok k -> after cs = k.
Proof. unfold after. now intros ->. Qed.

(** The first observation of the one-step run: the step is appended at address 0. *)
Lemma observe_seals_step_witness :
  kalman_observe (LA := upper_lapack) Runs.evolved (scalar 1) (scalar 3) (scalar 1) "w"
  = Ok Runs.one /\
  steps Runs.one = farray_append (steps Runs.evolved) 0%nat.
Proof.
  assert (H : kalman_observe (LA := upper_lapack) Runs.evolved
                (scalar 1) (scalar 3) (scalar 1) "w" = Ok Runs.one)
    by (vm_compute; reflexivity).
  split; [exact H|].
  destruct (observe_seals_step (LA := upper_lapack) _ _ _ _ _ _ H)
    as (p & cur & cur' & Hc & _ & _ & Hs & _).
  rewrite Hs. f_equal. vm_compute in Hc. now inversion Hc.
Defined.

(** A two-dimensional step 0 observed with no observation: the call
    returns, the step is in the log, its [Rdiag] has not two rows (it is
    NULL), and its state is NULL, not a 2-by-1 matrix of NaN. *)
Lemma observe_without_rows_keeps_null_state :
  exists k' s,
    kalman_observe (LA := upper_lapack) Runs.evolved2 None None None "w" = Ok k' /\
    step_at k' 0 = Some s /\ dimension s = 2 /\
    Rdiag s = Null /\ state s = Null /\
    state s <> Live (matrix_create_constant 2 1 NaN).
Proof.
  eexists. eexists. split; [vm_compute; reflexivity|].
  split; [vm_compute; reflexivity|].
  split; [reflexivity|]. split; [reflexivity|]. split; [reflexivity|]. discriminate.
Qed.

(** The three-step run satisfies the conditions of the state pass. *)
Lemma smooth_state_pass_witness :
  exists k', kalman_smooth (LA := upper_lapack) Runs.three = Ok k' /\
             steps k' = steps Runs.three.
Proof.
  destruct (smooth_state_pass (LA := upper_lapack) Runs.three) as (k' & H1 & H2 & _).
  - apply indexedb_sound. vm_compute. reflexivity.
  - vm_compute. discriminate.
  - intros si s Hs.
    apply (steps_check_sound Runs.three
             (fun si s => smoothableb (si =? farray_last_index (steps Runs.three)) s
                          && state_fitsb s)) in Hs; [|vm_compute; reflexivity].
    apply andb_prop in Hs. destruct Hs as [Ha Hb].
    split; [now apply smoothableb_sound|now apply state_fitsb_sound].
  - exists k'. split; assumption.
Defined.

(** Rolling the three-step run back to step 1 leaves step 0 alone in the log. *)
Lemma rollback_returns_to_evolved_witness :
  exists k', kalman_rollback Runs.three 1 = Ok k' /\ elems (steps k') = [0%nat].
Proof.
  destruct (rollback_returns_to_evolved Runs.three 1)
    as (k' & p & s & s' & H1 & H2 & H3 & H4 & _).
  - apply indexedb_sound. vm_compute. reflexivity.
  - vm_compute. split; discriminate.
  - intros s Hs.
    apply (steps_check_sound Runs.three (fun _ s => freeableb s)) in Hs;
      [|vm_compute; reflexivity].
    apply freeableb_sound in Hs. apply Hs.
  - exists k'. split; [exact H1|]. rewrite H4. vm_compute. reflexivity.
Defined.

(** Forgetting step 0 of the three-step run leaves steps 1 and 2. *)
Lemma forget_releases_old_steps_witness :
  exists k', kalman_forget Runs.three 0 = Ok k' /\ elems (steps k') = [1%nat; 2%nat].
Proof.
  destruct (forget_releases_old_steps Runs.three 0) as (k' & H1 & H2 & H3 & _).
  - apply indexedb_sound. vm_compute. reflexivity.
  - intros sj s Hs.
    apply (steps_check_sound Runs.three (fun _ s => freeableb s)) in Hs;
      [|vm_compute; reflexivity].
    now apply freeableb_sound.
  - vm_compute. discriminate.
  - exists k'. split; [exact H1|]. rewrite H3. vm_compute. reflexivity.
Defined.

(** On the three-step run (earliest 0, latest 2), [kalman_forget] of the
    latest step removes nothing: steps 0 and 1, of index at most 2, stay. *)
Lemma forget_latest_keeps_every_step :
  kalman_earliest Runs.three = Ok 0 /\ kalman_latest Runs.three = Ok 2 /\
  kalman_forget Runs.three 2 = Ok Runs.three /\
  farray_size (steps Runs.three) = 3.
Proof. repeat split; vm_compute; reflexivity. Qed.

(** Smoothing the three-step run twice. *)
Lemma smooth_idempotent_witness :
  exists k1, kalman_smooth (LA := upper_lapack) Runs.three = Ok k1 /\
             kalman_smooth (LA := upper_lapack) k1 = Ok k1.
Proof.
  apply (smooth_idempotent (LA := upper_lapack) Runs.three).
  - apply indexedb_sound. vm_compute. reflexivity.
  - intros si s Hs.
    apply (steps_check_sound Runs.three
             (fun si s => smoothableb (si =? farray_last_index (steps Runs.three)) s))
      in Hs; [|vm_compute; reflexivity].
    now apply smoothableb_sound.
Defined.



(** Step 5 of the two-step run. *)
Lemma out_of_range_calls_witness :
  kalman_rollback Runs.two 5 = Ok Runs.two /\
  kalman_forget Runs.two 5 = Ok Runs.two.
Proof.
  destruct (out_of_range_calls (LA := upper_lapack) Runs.two 5 0 1) as (H1 & H2 & _).
  - apply indexedb_sound. vm_compute. reflexivity.
  - vm_compute. reflexivity.
  - vm_compute. reflexivity.
  - right. lia.
  - split; [exact H1|]. apply H2. lia.
Defined.

(** On the two-step run (earliest 0, latest 1) the index -1 is outside the
    log, yet [kalman_forget] drops step 0, and [kalman_estimate] and
    [kalman_covariance] return the blocks of step 1, which are not NaN; on
    the empty log [kalman_estimate] returns NULL. *)
Lemma negative_index_is_not_out_of_range :
  kalman_earliest Runs.two = Ok 0 /\ kalman_latest Runs.two = Ok 1 /\
  (exists k', kalman_forget Runs.two (-1) = Ok k' /\ elems (steps k') = [1%nat] /\
              first (steps k') = 1) /\
  (exists m, kalman_estimate Runs.two (-1) = Ok (Some m) /\
             PrimFloat.is_nan (matrix_get m 0 0) = false) /\
  (exists m, kalman_covariance Runs.two (-1) = Ok (Some m) /\
             PrimFloat.is_nan (matrix_get m 0 0) = false) /\
  kalman_estimate kalman_create 0 = Ok None.
Proof.
  split; [vm_compute; reflexivity|]. split; [vm_compute; reflexivity|].
  split. { eexists. split; [vm_compute; reflexivity|]. split; reflexivity. }
  split. { eexists. split; [vm_compute; reflexivity|]. vm_compute. reflexivity. }
  split. { eexists. split; [vm_compute; reflexivity|]. vm_compute. reflexivity. }
  reflexivity.
Qed.

(** A second step without [H_i], in C after the one-step run and in MATLAB. *)
Lemma evolve_without_H_witness :
  kalman_evolve (LA := upper_lapack) Runs.one 1 None (scalar 0) (scalar 1) (scalar 1) "w"
  = Fault AssertionFailed /\
  Matlab.evolve (MO := upper_matlab) Runs.matlab_one 1 Matlab.empty
    (matrix_create_constant 1 1 0%float) (matrix_create_constant 1 1 1%float)
    (matrix_create_constant 1 1 1%float)
  = Matlab.evolve (MO := upper_matlab) Runs.matlab_one 1 (Matlab.default_H 1 1)
      (matrix_create_constant 1 1 0%float) (matrix_create_constant 1 1 1%float)
      (matrix_create_constant 1 1 1%float).
Proof.
  destruct (evolve_without_H (LA := upper_lapack) (MO := upper_matlab)) as [H1 H2].
  split.
  - apply (H1 Runs.one 1 (scalar 0) (scalar 1) (scalar 1) "w"%char 0%nat
              (step_of Runs.one 0)).
    + vm_compute. reflexivity.
    + vm_compute. reflexivity.
  - apply (H2 Runs.matlab_one 1 (matrix_create_constant 1 1 0%float)
              (matrix_create_constant 1 1 1%float) (matrix_create_constant 1 1 1%float)).
    vm_compute. reflexivity.
Defined.

(** After the one-step run, [kalman_evolve] with a null [H_i] stops on its
    assertion, while the same call with the 1-by-1 identity returns. *)
Lemma evolve_null_H_asserts :
  kalman_evolve (LA := upper_lapack) Runs.one 1 None (scalar 0) (scalar 1) (scalar 1) "w"
  = Fault AssertionFailed /\
  exists k', kalman_evolve (LA := upper_lapack) Runs.one 1 (scalar 1) (scalar 0)
               (scalar 1) (scalar 1) "w" = Ok k'.
Proof.
  split; [vm_compute; reflexivity|]. eexists. vm_compute. reflexivity.
Qed.

(** Two observed one-dimensional steps: the last filtered element has a
    covariance [Z], and the covariance written for the last step is NULL. *)
Lemma last_step_copies_L_witness :
  exists f q,
    Associative.get Runs.smoothed2 1 = Ok q /\
    StepEquations.state q = Associative.b f /\
    is_Some (Associative.Z_ f) /\
    StepEquations.covariance q = None.
Proof.
  destruct (last_step_copies_L (DK := diagonal_dense) Runs.equations2 Runs.smoothed2 2)
    as (filtered & f & q & H1 & H2 & H3 & H4 & H5 & H6 & H7).
  - vm_compute. reflexivity.
  - exists f, q. split; [exact H3|]. split; [exact H4|]. split.
    + vm_compute in H1. inversion H1; subst filtered; clear H1.
      vm_compute in H2. inversion H2; subst f. vm_compute. eauto.
    + rewrite H5, H6. reflexivity.
Defined.

(** The three-step run rolled back to step 1, then observed again. *)
Lemma rollback_reopens_step_witness :
  kalman_rollback Runs.three 1 = Ok Runs.reopened /\
  kalman_latest Runs.reopened = Ok 0 /\
  kalman_observe (LA := upper_lapack) Runs.reopened None None None "w" = Ok Runs.resealed /\
  kalman_latest Runs.resealed = Ok 1.
Proof.
  assert (H : kalman_rollback Runs.three 1 = Ok Runs.reopened)
    by (vm_compute; reflexivity).
  assert (H' : kalman_observe (LA := upper_lapack) Runs.reopened None None None "w"
               = Ok Runs.resealed)
    by (vm_compute; reflexivity).
  split; [exact H|].
  destruct (rollback_reopens_step (LA := upper_lapack) Runs.three Runs.reopened 1)
    as (H1 & _ & _ & p & s' & _ & _ & _ & _ & Hobs).
  - apply indexedb_sound. vm_compute. reflexivity.
  - vm_compute. split; discriminate.
  - exact H.
  - split; [exact H1|]. split; [exact H'|].
    exact (proj2 (Hobs _ _ _ _ _ H')).
Defined.

(** * Further properties of the code *)

(** ** Weighing a block by a covariance *)

Lemma cov_weigh_inv `{LA : Lapack} (cov : option matrix_t) (t : ascii)
  (A : option matrix_t) (WA : matrix_t) :
  cov_weigh cov t A = Ok WA ->
  exists c a,
    cov = Some c /\ A = Some a /\
    matrix_rows WA = matrix_rows a /\ matrix_cols WA = matrix_cols a /\
    ((t = "W"%char /\ matrix_cols c = matrix_rows a) \/ t = "U"%char \/
     t = "F"%char \/ (t = "w"%char /\ matrix_rows c = matrix_rows a)).
Proof.
  unfold cov_weigh. intros H.
  destruct A as [a|]; [|discriminate]. destruct cov as [c|]; [|discriminate].
  simpl in H. exists c, a. split; [reflexivity|]. split; [reflexivity|].
  destruct (Ascii.eqb t "W") eqn:EW.
  { apply Ascii.eqb_eq in EW. obind H.
    unfold assert in E. destruct (matrix_cols c =? matrix_rows a) eqn:Ed; [|discriminate].
    apply Z.eqb_eq in Ed. inversion H; subst WA. simpl.
    split; [reflexivity|]. split; [reflexivity|]. left. auto. }
  destruct (Ascii.eqb t "U" || Ascii.eqb t "F") eqn:EU.
  { inversion H; subst WA. simpl. split; [reflexivity|]. split; [reflexivity|].
    apply orb_true_iff in EU. destruct EU as [EU|EU]; apply Ascii.eqb_eq in EU; auto. }
  destruct (Ascii.eqb t "w") eqn:Ew; [|discriminate].
  apply Ascii.eqb_eq in Ew. obind H.
  unfold assert in E. destruct (matrix_rows c =? matrix_rows a) eqn:Ed; [|discriminate].
  apply Z.eqb_eq in Ed. inversion H; subst WA. simpl.
  split; [reflexivity|]. split; [reflexivity|]. right. right. right. auto.
Qed.

Lemma cov_weigh_accepts `{LA : Lapack} (c a : matrix_t) (t : ascii) :
  (t = "W"%char /\ matrix_cols c = matrix_rows a) \/ t = "U"%char \/
  t = "F"%char \/ (t = "w"%char /\ matrix_rows c = matrix_rows a) ->
  exists WA, cov_weigh (Some c) t (Some a) = Ok WA.
Proof.
  unfold cov_weigh. simpl.
  intros [[-> Hd]|[->|[->|[-> Hd]]]]; simpl.
  - unfold assert. rewrite (proj2 (Z.eqb_eq _ _) Hd). simpl. eauto.
  - eauto.
  - eauto.
  - unfold assert. rewrite (proj2 (Z.eqb_eq _ _) Hd). simpl. eauto.
Qed.

(** X1: [cov_weigh] returns exactly when both of its matrices are there, the
    covariance type is one of 'W', 'U', 'F' and 'w', and the dimensions it
    asserts agree (the columns of a 'W' factor, or the rows of a 'w' vector
    of weights, against the rows of the block); any other call stops on an
    assertion.  What it returns has the shape of the block it weighs. *)
Theorem cov_weigh_returns `{LA : Lapack} (cov : option matrix_t) (t : ascii)
  (A : option matrix_t) :
  ((exists WA, cov_weigh cov t A = Ok WA) <->
   exists c a,
     cov = Some c /\ A = Some a /\
     ((t = "W"%char /\ matrix_cols c = matrix_rows a) \/ t = "U"%char \/
      t = "F"%char \/ (t = "w"%char /\ matrix_rows c = matrix_rows a))) /\
  (forall f, cov_weigh cov t A = Fault f -> f = AssertionFailed) /\
  (forall WA a, A = Some a -> cov_weigh cov t A = Ok WA ->
     matrix_rows WA = matrix_rows a /\ matrix_cols WA = matrix_cols a).
Proof.
  split; [split|split].
  - intros [WA H]. destruct (cov_weigh_inv _ _ _ _ H) as (c & a & -> & -> & _ & _ & Ht).
    eauto.
  - intros (c & a & -> & -> & Ht). now apply cov_weigh_accepts.
  - intros f. unfold cov_weigh.
    destruct A as [a|]; [|simpl; congruence]. destruct cov as [c|]; [|simpl; congruence].
    simpl.
    destruct (Ascii.eqb t "W").
    { unfold assert. destruct (matrix_cols c =? matrix_rows a); simpl; congruence. }
    destruct (Ascii.eqb t "U" || Ascii.eqb t "F"); [congruence|].
    destruct (Ascii.eqb t "w"); [|congruence].
    unfold assert. destruct (matrix_rows c =? matrix_rows a); simpl; congruence.
  - intros WA a -> H.
    destruct (cov_weigh_inv _ _ _ _ H) as (c & a' & _ & Ha & Hr & Hc & _).
    inversion Ha; subst a'. auto.
Qed.

(** ** What [kalman_evolve] does to the filter *)

Lemma farray_get_last_lookup (a : farray_t) (p : addr) :
  farray_get_last a = Ok p ->
  elems a <> [] /\ elems a !! (length (elems a) - 1)%nat = Some p.
Proof.
  unfold farray_get_last. intros H. apply farray_get_inv in H.
  destruct H as [Hr H]. unfold farray_last_index, farray_size in *.
  assert (Hn : elems a <> []).
  { intros E. rewrite E in H. simpl in H. discriminate. }
  split; [exact Hn|].
  replace (length (elems a) - 1)%nat
    with (Z.to_nat (first a + Z.of_nat (length (elems a)) - 1 - first a)) by lia.
  exact H.
Qed.

Lemma farray_size_0 (a : farray_t) : (farray_size a =? 0) = true <-> elems a = [].
Proof.
  unfold farray_size. rewrite Z.eqb_eq. split.
  - intros H. destruct (elems a); [reflexivity|simpl in H; lia].
  - intros ->. reflexivity.
Qed.

Lemma farray_size_not_0 (a : farray_t) : (farray_size a =? 0) = false <-> elems a <> [].
Proof.
  rewrite <- farray_size_0. destruct (farray_size a =? 0); split; congruence.
Qed.

Lemma store_alloc (h : heap_t) (s0 s : step_t) :
  store (length h) s (h ++ [Some s0]) = h ++ [Some s].
Proof.
  unfold store. rewrite insert_app_r_alt by lia.
  replace (length h - length h)%nat with O by lia. reflexivity.
Qed.

Lemma store_comm (p q : addr) (s1 s2 : step_t) (h : heap_t) :
  p <> q -> store p s1 (store q s2 h) = store q s2 (store p s1 h).
Proof. intros Hne. unfold store. apply list_insert_insert_ne. exact Hne. Qed.

(** The step that [kalman_evolve] opens and the step it seals. *)
Lemma kalman_evolve_inv `{LA : Lapack} (k k' : kalman_t) (n_i : Z)
  (H_i F_i c_i K_i : option matrix_t) (K_type : ascii) :
  indexed k ->
  kalman_evolve k n_i H_i F_i c_i K_i K_type = Ok k' ->
  steps k' = steps k /\ current k' = Some (length (heap k)) /\
  exists cur,
    dimension cur = n_i /\ Rdiag cur = Null /\ Rsupdiag cur = Null /\
    y cur = Null /\ state cur = Null /\ covariance cur = Null /\
    is_freed (Rbar cur) = false /\ is_freed (ybar cur) = false /\
    ((elems (steps k) = [] /\ step cur = 0 /\ heap k' = heap k ++ [Some cur]) \/
     (exists imo imo_s imo_s',
        elems (steps k) !! (length (elems (steps k)) - 1)%nat = Some imo /\
        heap k !! imo = Some (Some imo_s) /\
        step cur = step imo_s + 1 /\
        heap k' = store imo imo_s' (heap k ++ [Some cur]) /\
        step imo_s' = step imo_s /\ dimension imo_s' = dimension imo_s /\
        state imo_s' = state imo_s /\ covariance imo_s' = covariance imo_s /\
        Rbar imo_s' = Rbar imo_s /\ ybar imo_s' = ybar imo_s /\
        is_live (Rdiag imo_s') = true /\ is_live (Rsupdiag imo_s') = true /\
        is_live (y imo_s') = true /\
        is_Some H_i /\ is_Some F_i /\ is_Some c_i /\ is_Some K_i /\
        (K_type = "W"%char \/ K_type = "U"%char \/ K_type = "F"%char \/
         K_type = "w"%char))).
Proof.
  intros Hi H. unfold kalman_evolve in H.
  destruct (farray_size (steps k) =? 0) eqn:Esz.
  { apply farray_size_0 in Esz. inversion H; subst k'; clear H. simpl.
    split; [reflexivity|]. split; [reflexivity|].
    exists (set_step 0 (set_dimension n_i step_create)).
    repeat (split; [reflexivity|]). left. split; [exact Esz|]. split; [reflexivity|].
    apply store_alloc. }
  obind H. rename a into imo. apply farray_get_last_lookup in E. destruct E as [Hne Himo].
  destruct (Hi _ _ Himo) as (imo_s & Hs & Hstep).
  obind H. apply load_inv in E. rewrite lookup_app_l in E by (eapply lookup_lt_Some; eauto).
  rewrite Hs in E. inversion E; subst a; clear E.
  obind H. obind H. obind H.
  obind H. rename a2 into V_i_H_i. obind H. rename a2 into V_i_F_i.
  obind H. rename a2 into V_i_c_i.
  obind H. destruct a2 as [[A B] y1].
  obind H. rename a2 into A0. obind H. rename a2 into B0. obind H. rename a2 into y2.
  unfold matrix_create_mutate_qr in H. cbn beta iota in H.
  obind H. obind H. inversion H; subst k'; clear H. simpl.
  split; [reflexivity|]. split; [reflexivity|].
  match goal with
  | |- context [store (length (heap k)) ?c _] => set (cur := c)
  end.
  exists cur.
  assert (Hcur : dimension cur = n_i /\ Rdiag cur = Null /\ Rsupdiag cur = Null /\
                 y cur = Null /\ state cur = Null /\ covariance cur = Null /\
                 is_freed (Rbar cur) = false /\ is_freed (ybar cur) = false /\
                 step cur = step imo_s + 1).
  { subst cur. destruct (dimension imo_s <? _); simpl; repeat split; reflexivity. }
  destruct Hcur as (C1 & C2 & C3 & C4 & C5 & C6 & C7 & C8 & C9).
  repeat (split; [assumption|]). right.
  eexists imo, imo_s, _. split; [exact Himo|]. split; [exact Hs|].
  split; [exact C9|]. split; [rewrite store_alloc; reflexivity|]. simpl.
  repeat (split; [reflexivity|]).
  unfold assert in E, E0, E1.
  destruct (bool_decide (is_Some H_i)) eqn:B1; [|discriminate].
  destruct (bool_decide (is_Some F_i)) eqn:B2; [|discriminate].
  destruct (bool_decide (is_Some c_i)) eqn:B3; [|discriminate].
  apply bool_decide_eq_true in B1, B2, B3.
  repeat (split; [assumption|]).
  destruct (cov_weigh_inv _ _ _ _ E2) as (c0 & a' & -> & _ & _ & _ & Ht).
  split; [eauto|]. destruct Ht as [[-> _]|[->|[->|[-> _]]]]; auto.
Qed.

Lemma indexed_lt (k : kalman_t) (p : addr) :
  indexed k -> p ∈ elems (steps k) -> (p < length (heap k))%nat.
Proof.
  intros Hi Hp. apply list_elem_of_lookup in Hp. destruct Hp as [j Hj].
  destruct (Hi _ _ Hj) as (s & Hs & _). eapply lookup_lt_Some; eauto.
Qed.

(** X2: on a filter that already holds a step, [kalman_evolve] returns only
    when [H_i], [F_i], [c_i] and [K_i] are all given and the covariance type
    is one of 'W', 'U', 'F' and 'w'; the first [kalman_evolve] of a filter
    returns whatever it is given. *)
Theorem evolve_needs_its_matrices `{LA : Lapack} (k : kalman_t) (n_i : Z)
  (H_i F_i c_i K_i : option matrix_t) (K_type : ascii) :
  (elems (steps k) = [] ->
   exists k', kalman_evolve k n_i H_i F_i c_i K_i K_type = Ok k') /\
  (forall k', elems (steps k) <> [] ->
     kalman_evolve k n_i H_i F_i c_i K_i K_type = Ok k' ->
     is_Some H_i /\ is_Some F_i /\ is_Some c_i /\ is_Some K_i /\
     (K_type = "W"%char \/ K_type = "U"%char \/ K_type = "F"%char \/
      K_type = "w"%char)).
Proof.
  split.
  - intros He. unfold kalman_evolve. rewrite (proj2 (farray_size_0 _) He). eauto.
  - intros k' Hne H. unfold kalman_evolve in H.
    rewrite (proj2 (farray_size_not_0 _) Hne) in H.
    obind H. obind H. obind H. obind H. obind H. obind H.
    unfold assert in E1, E2, E3.
    destruct (bool_decide (is_Some H_i)) eqn:B1; [|discriminate].
    destruct (bool_decide (is_Some F_i)) eqn:B2; [|discriminate].
    destruct (bool_decide (is_Some c_i)) eqn:B3; [|discriminate].
    apply bool_decide_eq_true in B1, B2, B3.
    repeat (split; [assumption|]).
    destruct (cov_weigh_inv _ _ _ _ E4) as (c0 & a' & -> & _ & _ & _ & Ht).
    split; [eauto|]. destruct Ht as [[-> _]|[->|[->|[-> _]]]]; auto.
Qed.

Lemma evolve_indexed `{LA : Lapack} (k k' : kalman_t) (n_i : Z)
  (H_i F_i c_i K_i : option matrix_t) (K_type : ascii) :
  indexed k ->
  kalman_evolve k n_i H_i F_i c_i K_i K_type = Ok k' ->
  indexed k'.
Proof.
  intros Hi H.
  destruct (kalman_evolve_inv _ _ _ _ _ _ _ _ Hi H)
    as (Hst & _ & cur & _ & _ & _ & _ & _ & _ & _ & _ & Hcase).
  intros j p Hj. rewrite Hst in Hj |- *.
  destruct (Hi _ _ Hj) as (s & Hs & Hstep).
  assert (Hlt : (p < length (heap k))%nat) by (eapply lookup_lt_Some; eauto).
  destruct Hcase as [(_ & _ & ->)|(imo & imo_s & imo_s' & Himo & Hims & _ & -> & E1 & _)].
  - exists s. split; [|exact Hstep]. now rewrite lookup_app_l.
  - destruct (decide (p = imo)) as [->|Hne].
    + exists imo_s'. split.
      * eapply store_lookup_eq. rewrite lookup_app_l by exact Hlt. exact Hs.
      * rewrite E1. congruence.
    + exists s. split; [|exact Hstep].
      rewrite store_lookup_ne by exact Hne. now rewrite lookup_app_l.
Qed.

(** X3: [kalman_evolve] leaves the log and its window as they are and opens
    a new current step outside the log: a fresh structure numbered latest + 1
    (0 on an empty log, where latest is -1), of dimension [n_i], with no
    sealed block, no state and no covariance. *)
Theorem evolve_opens_next_step `{LA : Lapack} (k k' : kalman_t) (n_i : Z)
  (H_i F_i c_i K_i : option matrix_t) (K_type : ascii) :
  indexed k ->
  kalman_evolve k n_i H_i F_i c_i K_i K_type = Ok k' ->
  indexed k' /\ steps k' = steps k /\
  kalman_earliest k' = kalman_earliest k /\
  exists l p s,
    kalman_latest k = Ok l /\ kalman_latest k' = Ok l /\
    current k' = Some p /\ (p ∉ elems (steps k')) /\
    heap k !! p = None /\ heap k' !! p = Some (Some s) /\
    step s = l + 1 /\ dimension s = n_i /\
    Rdiag s = Null /\ Rsupdiag s = Null /\ y s = Null /\
    state s = Null /\ covariance s = Null.
Proof.
  intros Hi H. pose proof (evolve_indexed _ _ _ _ _ _ _ _ Hi H) as Hi'.
  destruct (kalman_evolve_inv _ _ _ _ _ _ _ _ Hi H)
    as (Hst & Hc & cur & C1 & C2 & C3 & C4 & C5 & C6 & _ & _ & Hcase).
  split; [exact Hi'|]. split; [exact Hst|].
  assert (Hnotin : length (heap k) ∉ elems (steps k)).
  { intros Hin. apply (indexed_lt _ _ Hi) in Hin. lia. }
  assert (Hcell : heap k' !! length (heap k) = Some (Some cur)).
  { destruct Hcase as [(_ & _ & ->)|(imo & imo_s & imo_s' & Himo & Hims & _ & -> & _)].
    - rewrite lookup_app_r by lia. now replace (length (heap k) - length (heap k))%nat with O by lia.
    - rewrite store_lookup_ne.
      + rewrite lookup_app_r by lia.
        now replace (length (heap k) - length (heap k))%nat with O by lia.
      + intros E. apply lookup_lt_Some in Hims. lia. }
  destruct (decide (elems (steps k) = [])) as [El|Hne].
  - split.
    { rewrite !kalman_earliest_empty; [reflexivity|exact El|now rewrite Hst]. }
    exists (-1), (length (heap k)), cur.
    split; [now apply kalman_latest_empty|].
    split; [apply kalman_latest_empty; now rewrite Hst|].
    split; [exact Hc|]. split; [now rewrite Hst|].
    split; [apply lookup_ge_None; lia|]. split; [exact Hcell|].
    destruct Hcase as [(_ & E0 & _)|(imo & imo_s & imo_s' & Himo & _)];
      [|rewrite El in Himo; simpl in Himo; discriminate].
    split; [lia|]. auto 10.
  - assert (Hne' : elems (steps k') <> []) by (now rewrite Hst).
    split.
    { rewrite (kalman_earliest_indexed _ Hi' Hne'), (kalman_earliest_indexed _ Hi Hne).
      now rewrite Hst. }
    exists (farray_last_index (steps k)), (length (heap k)), cur.
    split; [now apply kalman_latest_indexed|].
    split; [rewrite (kalman_latest_indexed _ Hi' Hne'); now rewrite Hst|].
    split; [exact Hc|]. split; [now rewrite Hst|].
    split; [apply lookup_ge_None; lia|]. split; [exact Hcell|].
    destruct Hcase as [(E0 & _)|(imo & imo_s & imo_s' & Himo & Hims & Hstep & _)];
      [congruence|].
    split.
    { rewrite Hstep. destruct (Hi _ _ Himo) as (s & Hs & Hn).
      rewrite Hims in Hs. inversion Hs; subst s. rewrite Hn.
      unfold farray_last_index, farray_size.
      assert (0 < length (elems (steps k)))%nat.
      { destruct (elems (steps k)); [congruence|simpl; lia]. }
      lia. }
    auto 10.
Qed.

(** ** The estimates that survive a call *)

Lemma farray_get_elem (a : farray_t) (si : Z) (p : addr) :
  farray_get a si = Ok p -> p ∈ elems a.
Proof.
  intros H. apply farray_get_inv in H. destruct H as [_ H].
  apply list_elem_of_lookup. eauto.
Qed.

Lemma estimate_same_cells (k k' : kalman_t) (si : Z) :
  indexed k -> steps k' = steps k ->
  (forall p s, p ∈ elems (steps k) -> heap k !! p = Some (Some s) ->
     exists s', heap k' !! p = Some (Some s') /\
                state s' = state s /\ dimension s' = dimension s) ->
  kalman_estimate k' si = kalman_estimate k si.
Proof.
  intros Hi Hst Hc. unfold kalman_estimate. rewrite Hst.
  destruct (farray_size (steps k) =? 0); [reflexivity|].
  destruct (farray_get (steps k) _) as [p|f] eqn:Eg; [|reflexivity]. simpl.
  pose proof (farray_get_elem _ _ _ Eg) as Hin.
  destruct (proj1 (list_elem_of_lookup _ _) Hin) as [j Hj].
  destruct (Hi _ _ Hj) as (s & Hs & _).
  destruct (Hc _ _ Hin Hs) as (s' & Hs' & E1 & E2).
  rewrite (load_lookup _ _ _ Hs), (load_lookup _ _ _ Hs'). simpl.
  now rewrite E1, E2.
Qed.

Lemma covariance_same_cell (k k' : kalman_t) (si : Z) (p : addr) (s s' : step_t) :
  steps k' = steps k ->
  farray_get (steps k) (if si <? 0 then farray_last_index (steps k) else si) = Ok p ->
  heap k !! p = Some (Some s) -> heap k' !! p = Some (Some s') ->
  Rdiag s' = Rdiag s -> covariance s' = covariance s -> dimension s' = dimension s ->
  kalman_covariance k' si = kalman_covariance k si.
Proof.
  intros Hst Hg Hs Hs' E1 E2 E3. unfold kalman_covariance. rewrite Hst.
  destruct (farray_size (steps k) =? 0); [reflexivity|].
  rewrite Hg. simpl. rewrite (load_lookup _ _ _ Hs), (load_lookup _ _ _ Hs'). simpl.
  now rewrite E1, E2, E3.
Qed.

(** X4: [kalman_evolve] does not change what [kalman_estimate] returns for
    any step index, nor what [kalman_covariance] returns for a step before
    the latest one: sealing the latest step replaces its [Rdiag], [Rsupdiag]
    and [y], not its state or its covariance. *)
Theorem evolve_keeps_estimates `{LA : Lapack} (k k' : kalman_t) (n_i : Z)
  (H_i F_i c_i K_i : option matrix_t) (K_type : ascii) :
  indexed k ->
  kalman_evolve k n_i H_i F_i c_i K_i K_type = Ok k' ->
  (forall si, kalman_estimate k' si = kalman_estimate k si) /\
  (forall si, 0 <= si < farray_last_index (steps k) ->
     kalman_covariance k' si = kalman_covariance k si).
Proof.
  intros Hi H.
  destruct (kalman_evolve_inv _ _ _ _ _ _ _ _ Hi H)
    as (Hst & _ & cur & _ & _ & _ & _ & _ & _ & _ & _ & Hcase).
  assert (Hcells : forall p s, p ∈ elems (steps k) -> heap k !! p = Some (Some s) ->
            exists s', heap k' !! p = Some (Some s') /\
              state s' = state s /\ dimension s' = dimension s /\
              (elems (steps k) !! (length (elems (steps k)) - 1)%nat <> Some p -> s' = s)).
  { intros p s Hin Hs.
    assert (Hlt : (p < length (heap k))%nat) by (eapply lookup_lt_Some; eauto).
    destruct Hcase as [(_ & _ & ->)|(imo & imo_s & imo_s' & Himo & Hims & _ & -> & _ & E2 & E3 & _)].
    - exists s. rewrite lookup_app_l by exact Hlt. auto.
    - destruct (decide (p = imo)) as [->|Hne].
      + exists imo_s'. rewrite Hims in Hs. inversion Hs; subst s.
        split; [eapply store_lookup_eq; rewrite lookup_app_l by exact Hlt; exact Hims|].
        split; [exact E3|]. split; [exact E2|]. congruence.
      + exists s. rewrite store_lookup_ne by exact Hne.
        rewrite lookup_app_l by exact Hlt. auto. }
  split.
  - intros si. apply estimate_same_cells; [exact Hi|exact Hst|].
    intros p s Hin Hs. destruct (Hcells p s Hin Hs) as (s' & E1 & E2 & E3 & _). eauto.
  - intros si Hsi.
    destruct (si <? first (steps k)) eqn:Elo.
    { unfold kalman_covariance, farray_get. rewrite Hst.
      destruct (farray_size (steps k) =? 0); [reflexivity|].
      destruct (si <? 0) eqn:E0; [apply Z.ltb_lt in E0; lia|]. now rewrite Elo. }
    apply Z.ltb_ge in Elo.
    assert (Hj : (Z.to_nat (si - first (steps k)) < length (elems (steps k)))%nat).
    { unfold farray_last_index, farray_size in Hsi. lia. }
    destruct (lookup_lt_is_Some_2 _ _ Hj) as [p Hp].
    destruct (Hi _ _ Hp) as (s & Hs & _).
    assert (Hin : p ∈ elems (steps k)) by (apply list_elem_of_lookup; eauto).
    destruct (Hcells p s Hin Hs) as (s' & Hs' & _ & _ & Heq).
    assert (s' = s) as ->.
    { apply Heq. intros Hlast.
      pose proof (indexed_inj k _ _ _ Hi Hp Hlast).
      unfold farray_last_index, farray_size in Hsi. lia. }
    eapply covariance_same_cell; eauto.
    destruct (si <? 0) eqn:E0; [apply Z.ltb_lt in E0; lia|].
    replace si with (first (steps k) + Z.of_nat (Z.to_nat (si - first (steps k)))) by lia.
    now apply farray_get_lookup.
Qed.

(** ** What [kalman_observe] leaves for [kalman_estimate] *)

Lemma kalman_observe_cases `{LA : Lapack} (k k' : kalman_t)
  (G_i o_i C_i : option matrix_t) (C_type : ascii) :
  kalman_observe k G_i o_i C_i C_type = Ok k' ->
  exists p cur cur',
    current k = Some p /\ heap k !! p = Some (Some cur) /\
    k' = {| heap := store p cur' (heap k);
            steps := farray_append (steps k) p; current := Some p |} /\
    step cur' = step cur /\ dimension cur' = dimension cur /\
    Rsupdiag cur' = Rsupdiag cur /\ Rbar cur' = Rbar cur /\ ybar cur' = ybar cur /\
    ((Rbar cur = Null /\ o_i = None /\ cur' = cur) \/
     (exists Rd,
        Rdiag cur' = Live Rd /\ covariance cur' = Live Rd /\
        ((matrix_rows Rd = dimension cur /\
          exists yv, y cur' = Live yv /\
                     state cur' = Live (matrix_create_trisolve Rd yv)) \/
         (matrix_rows Rd <> dimension cur /\ is_freed (y cur') = false /\
          state cur' = Live (matrix_create_constant (dimension cur) 1 NaN))))).
Proof.
  unfold kalman_observe. intros H.
  destruct (current k) as [p|] eqn:Ecur; [|discriminate]. simpl in H.
  obind H. rename a into cur. apply load_inv in E.
  obind H. destruct a as [W_i_G_i W_i_o_i].
  obind H. rename a into Rbar_p. obind H. rename a into ybar_p.
  obind H. rename a into cur'. inversion H; subst; clear H.
  exists p, cur, cur'. split; [reflexivity|]. split; [exact E|].
  split; [reflexivity|].
  assert (HW : W_i_G_i = None -> o_i = None).
  { intros ->. destruct o_i; [|reflexivity]. simpl in E0.
    repeat obind E0. inversion E0. }
  destruct (matrix_create_vconcat Rbar_p W_i_G_i) as [A|] eqn:EA.
  - obind E3. destruct a as [Rd y1]. obind E3. rename a into st.
    inversion E3; subst; clear E3. simpl.
    repeat (split; [reflexivity|]).
    right. exists Rd. split; [reflexivity|]. split; [reflexivity|].
    destruct (matrix_rows Rd =? dimension cur) eqn:Erows.
    + left. apply Z.eqb_eq in Erows. split; [exact Erows|].
      destruct y1 as [yv|]; simpl in E5; [|discriminate].
      inversion E5; subst. exists yv. split; reflexivity.
    + right. apply Z.eqb_neq in Erows. split; [exact Erows|].
      inversion E5; subst. split; [|reflexivity]. destruct y1; reflexivity.
  - inversion E3; subst; clear E3.
    repeat (split; [reflexivity|]).
    left. apply vconcat_None in EA. destruct EA as [-> ->].
    split; [now apply arg_Null_inv|]. split; [now apply HW|reflexivity].
Qed.

Lemma farray_get_last_append (a : farray_t) (p : addr) :
  farray_get (farray_append a p) (farray_last_index (farray_append a p)) = Ok p.
Proof.
  unfold farray_last_index, farray_size, farray_append. simpl. rewrite length_app. simpl.
  replace (first a + Z.of_nat (length (elems a) + 1) - 1)
    with (first {| first := first a; elems := elems a ++ [p] |}
          + Z.of_nat (length (elems a))) by (simpl; lia).
  apply farray_get_lookup. simpl.
  rewrite lookup_app_r by lia. now replace (length (elems a) - length (elems a))%nat with O by lia.
Qed.

Lemma farray_size_append (a : farray_t) (p : addr) :
  (farray_size (farray_append a p) =? 0) = false.
Proof.
  apply farray_size_not_0. simpl. destruct (elems a); discriminate.
Qed.

(** X5: what the filter reports for the step that [kalman_observe] has just
    appended, when the step came from [kalman_evolve] (no [Rdiag], no
    state).  If the sealed [Rdiag] has exactly n_i rows, [kalman_estimate]
    with index -1 returns the triangular solve of [Rdiag] against [y] and
    [kalman_covariance] returns [Rdiag]; in every other case, a step with
    fewer rows or with no rows at all, they return the n_i-by-1 and the
    n_i-by-n_i matrices of NaN. *)
Theorem observe_then_estimate `{LA : Lapack} (k k' : kalman_t)
  (G_i o_i C_i : option matrix_t) (C_type : ascii) (p : addr) (cur : step_t) :
  kalman_observe k G_i o_i C_i C_type = Ok k' ->
  current k = Some p -> heap k !! p = Some (Some cur) ->
  Rdiag cur = Null -> state cur = Null ->
  exists cur',
    heap k' !! p = Some (Some cur') /\ dimension cur' = dimension cur /\
    ((exists Rd yv,
        Rdiag cur' = Live Rd /\ y cur' = Live yv /\
        matrix_rows Rd = dimension cur /\
        kalman_estimate k' (-1) = Ok (Some (matrix_create_trisolve Rd yv)) /\
        kalman_covariance k' (-1) = Ok (Some Rd)) \/
     ((Rdiag cur' = Null \/
       exists Rd, Rdiag cur' = Live Rd /\ matrix_rows Rd <> dimension cur) /\
      kalman_estimate k' (-1)
      = Ok (Some (matrix_create_constant (dimension cur) 1 NaN)) /\
      kalman_covariance k' (-1)
      = Ok (Some (matrix_create_constant (dimension cur) (dimension cur) NaN)))).
Proof.
  intros H Hc Hcur HRd Hst.
  destruct (kalman_observe_cases _ _ _ _ _ _ H)
    as (p0 & cur0 & cur' & Hc0 & Hcur0 & -> & E1 & E2 & _ & _ & _ & Hcase).
  rewrite Hc in Hc0. inversion Hc0; subst p0.
  rewrite Hcur in Hcur0. inversion Hcur0; subst cur0.
  assert (Hcell : store p cur' (heap k) !! p = Some (Some cur'))
    by (eapply store_lookup_eq; eauto).
  exists cur'. split; [exact Hcell|]. split; [exact E2|].
  unfold kalman_estimate, kalman_covariance. simpl.
  rewrite farray_size_append. simpl.
  rewrite farray_get_last_append. simpl.
  rewrite (load_lookup _ _ _ Hcell). simpl. rewrite E2.
  destruct Hcase as [(_ & _ & ->)|(Rd & R1 & R2 & [(Hrows & yv & Y1 & Y2)|(Hrows & _ & Y2)])].
  - right. rewrite HRd, Hst. simpl. auto.
  - left. exists Rd, yv. rewrite R1, R2, Y1, Y2. simpl.
    rewrite (proj2 (Z.eqb_eq _ _) Hrows). auto.
  - right. rewrite R1, Y2. simpl.
    rewrite (proj2 (Z.eqb_neq _ _) Hrows). split; [eauto|]. auto.
Qed.

(** ** What [kalman_forget] leaves *)

Lemma step_free_inv (p : addr) (h h' : heap_t) :
  step_free p h = Ok h' ->
  h' = <[p := None]> h /\ exists s, h !! p = Some (Some s) /\ freeable s.
Proof.
  unfold step_free. intros H. obind H. apply load_inv in E.
  obind H. obind H. obind H. obind H. obind H. obind H. obind H.
  inversion H; subst h'. split; [reflexivity|]. exists a. split; [exact E|].
  unfold freeable, releasable.
  repeat split;
    match goal with
    | |- is_freed ?c = false =>
        destruct c; simpl in *; try reflexivity; discriminate
    end.
Qed.

Lemma forget_loop_inv (si : Z) :
  forall (fuel : nat) (a a' : farray_t) (h h' : heap_t),
    forget_loop fuel si a h = Ok (a', h') ->
    exists m : nat,
      (m <= length (elems a))%nat /\
      a' = {| first := first a + Z.of_nat m; elems := drop m (elems a) |} /\
      first a + Z.of_nat m = Z.max (first a) (si + 1) /\
      (forall q, q ∈ take m (elems a) -> h' !! q = Some None) /\
      (forall q, q ∉ take m (elems a) -> h' !! q = h !! q).
Proof.
  assert (Hstop : forall (a a' : farray_t) (h h' : heap_t),
            (first a <=? si) = false -> Ok (a, h) = Ok (a', h') ->
            exists m : nat,
              (m <= length (elems a))%nat /\
              a' = {| first := first a + Z.of_nat m; elems := drop m (elems a) |} /\
              first a + Z.of_nat m = Z.max (first a) (si + 1) /\
              (forall q, q ∈ take m (elems a) -> h' !! q = Some None) /\
              (forall q, q ∉ take m (elems a) -> h' !! q = h !! q)).
  { intros a a' h h' Ef H. apply Z.leb_gt in Ef. inversion H; subst. exists O.
    rewrite take_0, drop_0. split; [lia|].
    split; [destruct a'; simpl; f_equal; lia|]. split; [lia|].
    split; [intros q Hq; inversion Hq|reflexivity]. }
  induction fuel as [|fuel IH]; intros a a' h h' H; simpl in H;
    unfold farray_first_index in H;
    destruct (first a <=? si) eqn:Ef; try (now apply Hstop); simpl in H.
  apply Z.leb_le in Ef. obind H. destruct a0 as [p a1].
    unfold farray_drop_first in E. destruct (elems a) as [|p0 rest] eqn:El; [discriminate|].
    inversion E; subst p0 a1; clear E.
  obind H. rename a0 into h1. apply step_free_inv in E. destruct E as [-> (s & Hs & _)].
  apply IH in H. destruct H as (m & Hm & -> & Hmax & Hd & Hk). simpl in *.
  exists (S m). split; [lia|]. split; [f_equal; lia|]. split; [lia|].
  simpl. split.
  - intros q Hq. destruct (decide (q ∈ take m rest)) as [Hin|Hnin]; [now apply Hd|].
    rewrite (Hk _ Hnin). apply elem_of_cons in Hq. destruct Hq as [->|Hq]; [|contradiction].
    apply list_lookup_insert_eq. eapply lookup_lt_Some; eauto.
  - intros q Hq. apply not_elem_of_cons in Hq. destruct Hq as [Hne Hnin].
    rewrite (Hk _ Hnin). apply list_lookup_insert_ne. congruence.
Qed.

(** The number of steps that [kalman_forget] drops from a log of first index
    [f0] and last index [l0]. *)
Lemma kalman_forget_inv (k k' : kalman_t) (si : Z) :
  kalman_forget k si = Ok k' ->
  let f0 := farray_first_index (steps k) in
  let l0 := farray_last_index (steps k) in
  let m :=
    if si <? 0 then Z.to_nat (l0 - f0)
    else if (f0 <=? si) && (si <? l0) then Z.to_nat (si - f0 + 1)
    else O in
  current k' = current k /\
  first (steps k') = f0 + Z.of_nat m /\
  elems (steps k') = drop m (elems (steps k)) /\
  (elems (steps k) <> [] -> (m < length (elems (steps k)))%nat) /\
  (forall q, q ∈ take m (elems (steps k)) -> heap k' !! q = Some None) /\
  (forall q, q ∉ take m (elems (steps k)) -> heap k' !! q = heap k !! q) /\
  (m = O -> k' = k).
Proof.
  destruct k as [h [f l] cur].
  unfold kalman_forget, farray_first_index, farray_last_index, farray_size.
  cbn [steps first elems heap current]. intros H. cbv zeta.
  set (l0 := f + Z.of_nat (length l) - 1) in *.
  set (m := if si <? 0 then Z.to_nat (l0 - f)
            else if (f <=? si) && (si <? l0) then Z.to_nat (si - f + 1) else O).
  set (si' := if si <? 0 then l0 - 1 else si) in *.
  assert (Hm : m = if (l0 - 1 <? si') || (si' <? f) then O else Z.to_nat (si' - f + 1)).
  { unfold m, si'. destruct (si <? 0) eqn:E0.
    - destruct (l0 - 1 <? l0 - 1) eqn:E1; [apply Z.ltb_lt in E1; lia|].
      destruct (l0 - 1 <? f) eqn:E2; simpl.
      + apply Z.ltb_lt in E2. lia.
      + f_equal. lia.
    - apply Z.ltb_ge in E0.
      destruct (f <=? si) eqn:E1; destruct (si <? l0) eqn:E2; simpl;
        destruct (l0 - 1 <? si) eqn:E3; destruct (si <? f) eqn:E4; simpl; try reflexivity;
        try apply Z.leb_le in E1; try apply Z.leb_gt in E1;
        try apply Z.ltb_lt in E2; try apply Z.ltb_ge in E2;
        try apply Z.ltb_lt in E3; try apply Z.ltb_ge in E3;
        try apply Z.ltb_lt in E4; try apply Z.ltb_ge in E4; lia. }
  assert (Hnoop : m = O -> k' = {| heap := h; steps := {| first := f; elems := l |};
                                   current := cur |} ->
          current k' = cur /\ first (steps k') = f + Z.of_nat m /\
          elems (steps k') = drop m l /\ (l <> [] -> (m < length l)%nat) /\
          (forall q, q ∈ take m l -> heap k' !! q = Some None) /\
          (forall q, q ∉ take m l -> heap k' !! q = h !! q) /\
          (m = O -> k' = {| heap := h; steps := {| first := f; elems := l |};
                            current := cur |})).
  { intros -> ->. simpl. split; [reflexivity|]. split; [lia|]. split; [reflexivity|].
    split; [intros Hl; destruct l; [congruence|simpl; lia]|].
    split; [intros q Hq; inversion Hq|]. split; reflexivity. }
  destruct (Z.of_nat (length l) =? 0) eqn:Es.
  { apply Z.eqb_eq in Es. inversion H; subst k'. apply Hnoop; [|reflexivity].
    clear Hm Hnoop H. subst m si' l0.
    destruct (si <? 0); [lia|].
    destruct (f <=? si) eqn:E1; destruct (si <? f + Z.of_nat (length l) - 1) eqn:E2;
      simpl; try reflexivity.
    apply Z.leb_le in E1. apply Z.ltb_lt in E2. lia. }
  apply Z.eqb_neq in Es.
  destruct (l0 - 1 <? si') eqn:E1.
  { inversion H; subst k'. apply Hnoop; [|reflexivity]. now rewrite Hm. }
  destruct (si' <? f) eqn:E2.
  { inversion H; subst k'. apply Hnoop; [|reflexivity]. now rewrite Hm. }
  simpl in Hm. apply Z.ltb_ge in E1, E2.
  obind H. destruct a as [steps' h']. inversion H; subst k'; clear H.
  apply forget_loop_inv in E. destruct E as (m' & Hm' & -> & Hmax & Hd & Hk).
  cbn [steps first elems heap current] in *.
  assert (m' = m) as -> by lia.
  split; [reflexivity|]. split; [reflexivity|]. split; [reflexivity|].
  split; [intros _; lia|]. split; [exact Hd|]. split; [exact Hk|].
  intros Hm0. exfalso. lia.
Qed.

Lemma forget_count (f0 l0 si : Z) (m : nat) :
  m = (if si <? 0 then Z.to_nat (l0 - f0)
       else if (f0 <=? si) && (si <? l0) then Z.to_nat (si - f0 + 1) else O) ->
  m <> O ->
  (si < 0 /\ Z.of_nat m = l0 - f0) \/
  (0 <= si /\ f0 <= si < l0 /\ Z.of_nat m = si - f0 + 1).
Proof.
  intros -> Hm. destruct (si <? 0) eqn:E0.
  - apply Z.ltb_lt in E0. left. lia.
  - apply Z.ltb_ge in E0. right.
    destruct (f0 <=? si) eqn:E1; destruct (si <? l0) eqn:E2; simpl in Hm |- *;
      try congruence.
    apply Z.leb_le in E1. apply Z.ltb_lt in E2. lia.
Qed.

(** Case analysis on the comparisons that guard the branches of a call. *)
Ltac ltb_to_Prop :=
  repeat match goal with
         | H : (_ <? _) = true |- _ => apply Z.ltb_lt in H
         | H : (_ <? _) = false |- _ => apply Z.ltb_ge in H
         | H : (_ <=? _) = true |- _ => apply Z.leb_le in H
         | H : (_ <=? _) = false |- _ => apply Z.leb_gt in H
         | H : (_ =? _) = true |- _ => apply Z.eqb_eq in H
         | H : (_ =? _) = false |- _ => apply Z.eqb_neq in H
         end.

Ltac guard_cases :=
  repeat match goal with
         | |- context [if ?a <? ?b then _ else _] =>
             let E := fresh "E" in destruct (a <? b) eqn:E
         | |- context [if ?a =? ?b then _ else _] =>
             let E := fresh "E" in destruct (a =? b) eqn:E
         end;
  try reflexivity; exfalso; ltb_to_Prop; lia.

(** X6: [kalman_forget] is idempotent: a second call with the same
    argument, right after a call that returned, changes nothing. *)
Theorem forget_twice (k k' : kalman_t) (si : Z) :
  kalman_forget k si = Ok k' -> kalman_forget k' si = Ok k'.
Proof.
  intros H. pose proof (kalman_forget_inv _ _ _ H) as Hinv. cbv zeta in Hinv.
  destruct Hinv as (_ & Hf & He & Hlt & _ & _ & Hnoop).
  unfold farray_first_index, farray_last_index, farray_size in *.
  remember (if si <? 0 then _ else _) as m eqn:Em in Hf.
  rewrite <- Em in He, Hlt, Hnoop.
  destruct (decide (m = O)) as [Hm|Hm]; [rewrite (Hnoop Hm) in *; exact H|].
  assert (Hne : elems (steps k) <> []).
  { intros E. rewrite E in Em.
    destruct (forget_count _ _ _ _ Em Hm) as [(H0 & Hmz)|(H0 & Hr & Hmz)];
      simpl in *; lia. }
  specialize (Hlt Hne).
  unfold kalman_forget, farray_first_index, farray_last_index, farray_size.
  rewrite He, Hf, length_drop.
  destruct (forget_count _ _ _ _ Em Hm) as [(H0 & Hmz)|(H0 & Hr & Hmz)];
    clear Em H Hnoop; guard_cases.
Qed.

Lemma farray_get_drop (f : Z) (l : list addr) (m : nat) (e : Z) :
  f + Z.of_nat m <= e ->
  farray_get {| first := f + Z.of_nat m; elems := drop m l |} e
  = farray_get {| first := f; elems := l |} e.
Proof.
  intros He. unfold farray_get, farray_last_index, farray_size. simpl.
  rewrite length_drop.
  destruct (e <? f + Z.of_nat m) eqn:E1; [apply Z.ltb_lt in E1; lia|].
  destruct (e <? f) eqn:E2; [apply Z.ltb_lt in E2; lia|]. simpl.
  destruct (f + Z.of_nat (length l) - 1 <? e) eqn:E3.
  - apply Z.ltb_lt in E3.
    destruct (_ <? e) eqn:E4; [reflexivity|]. apply Z.ltb_ge in E4. lia.
  - apply Z.ltb_ge in E3.
    destruct (_ <? e) eqn:E4; [apply Z.ltb_lt in E4; lia|].
    rewrite lookup_drop.
    replace (m + Z.to_nat (e - (f + Z.of_nat m)))%nat with (Z.to_nat (e - f)) by lia.
    reflexivity.
Qed.

Lemma forget_indexed (k k' : kalman_t) (si : Z) :
  indexed k -> kalman_forget k si = Ok k' -> indexed k'.
Proof.
  intros Hi H. pose proof (kalman_forget_inv _ _ _ H) as Hinv. cbv zeta in Hinv.
  destruct Hinv as (_ & Hf & He & _ & _ & Hk & _).
  unfold farray_first_index in *.
  intros j p Hj. rewrite He, lookup_drop in Hj. rewrite Hf.
  destruct (Hi _ _ Hj) as (s & Hs & Hstep). exists s. split; [|lia].
  rewrite Hk; [exact Hs|].
  intros Hin. apply list_elem_of_lookup in Hin. destruct Hin as [i Hin].
  pose proof (lookup_lt_Some _ _ _ Hin) as Hil. rewrite length_take in Hil.
  rewrite lookup_take_lt in Hin by lia.
  pose proof (indexed_inj k _ _ _ Hi Hin Hj). lia.
Qed.

(** X7: [kalman_forget] keeps the latest step and everything the filter
    reports about the steps it keeps: [kalman_latest] is unchanged, and
    [kalman_estimate] and [kalman_covariance] return what they returned
    before for every index from the new earliest step on, and for a negative
    index (the latest step). *)
Theorem forget_keeps_recent_steps (k k' : kalman_t) (si : Z) :
  indexed k -> kalman_forget k si = Ok k' ->
  indexed k' /\ kalman_latest k' = kalman_latest k /\
  forall sj, sj < 0 \/ farray_first_index (steps k') <= sj ->
    kalman_estimate k' sj = kalman_estimate k sj /\
    kalman_covariance k' sj = kalman_covariance k sj.
Proof.
  intros Hi H. pose proof (forget_indexed _ _ _ Hi H) as Hi'.
  pose proof (kalman_forget_inv _ _ _ H) as Hinv. cbv zeta in Hinv.
  destruct Hinv as (_ & Hf & He & Hlt & _ & Hk & _).
  unfold farray_first_index, farray_last_index, farray_size in *.
  set (m := if si <? 0 then _ else _) in *. clearbody m.
  split; [exact Hi'|].
  destruct (decide (elems (steps k) = [])) as [Hemp|Hne].
  { assert (Hemp' : elems (steps k') = []) by (rewrite He, Hemp; apply drop_nil).
    split; [now rewrite !kalman_latest_empty|].
    intros sj _. unfold kalman_estimate, kalman_covariance.
    rewrite (proj2 (farray_size_0 _) Hemp), (proj2 (farray_size_0 _) Hemp'). auto. }
  specialize (Hlt Hne).
  assert (Hne' : elems (steps k') <> []).
  { rewrite He. intros E. apply (f_equal length) in E. rewrite length_drop in E.
    simpl in E. lia. }
  assert (Hlast : farray_last_index (steps k') = farray_last_index (steps k)).
  { unfold farray_last_index, farray_size. rewrite Hf, He, length_drop. lia. }
  split.
  { rewrite (kalman_latest_indexed _ Hi' Hne'), (kalman_latest_indexed _ Hi Hne).
    now rewrite Hlast. }
  intros sj Hsj.
  set (e := if sj <? 0 then farray_last_index (steps k) else sj).
  assert (Hget : farray_get (steps k') e = farray_get (steps k) e).
  { destruct (steps k') as [f' l'] eqn:Ek'. destruct (steps k) as [f l] eqn:Ek.
    simpl in *. subst f' l'. apply farray_get_drop.
    subst e. destruct (sj <? 0) eqn:E0.
    - unfold farray_last_index, farray_size. simpl. lia.
    - apply Z.ltb_ge in E0. lia. }
  assert (Hload : forall p, farray_get (steps k) e = Ok p ->
                            load p (heap k') = load p (heap k)).
  { intros p Hp. rewrite <- Hget in Hp. apply farray_get_inv in Hp.
    destruct Hp as [_ Hp]. rewrite He, lookup_drop in Hp.
    unfold load. rewrite Hk; [reflexivity|].
    intros Hin. apply list_elem_of_lookup in Hin. destruct Hin as [i Hin].
    pose proof (lookup_lt_Some _ _ _ Hin) as Hil. rewrite length_take in Hil.
    rewrite lookup_take_lt in Hin by lia.
    pose proof (indexed_inj k _ _ _ Hi Hin Hp). lia. }
  unfold kalman_estimate, kalman_covariance.
  rewrite (proj2 (farray_size_not_0 _) Hne), (proj2 (farray_size_not_0 _) Hne').
  rewrite Hlast. fold e. rewrite Hget.
  destruct (farray_get (steps k) e) as [p|] eqn:Eg; [|auto]. simpl.
  rewrite (Hload p eq_refl). auto.
Qed.

(** ** [kalman_free] *)

Lemma free_loop_spec (f : Z) :
  forall (l : list addr) (fuel : nat) (h : heap_t),
    (length l <= fuel)%nat -> NoDup l ->
    (forall q, q ∈ l -> exists s, h !! q = Some (Some s) /\ freeable s) ->
    exists h',
      free_loop fuel {| first := f; elems := l |} h = Ok h' /\
      (forall q, q ∈ l -> h' !! q = Some None) /\
      (forall q, q ∉ l -> h' !! q = h !! q).
Proof.
  induction l as [|p l IH] using rev_ind; intros fuel h Hfuel Hnd Hfree.
  - exists h. split; [destruct fuel; reflexivity|].
    split; [intros q Hq; inversion Hq|reflexivity].
  - rewrite length_app in Hfuel. simpl in Hfuel.
    destruct fuel as [|fuel]; [lia|].
    apply NoDup_app in Hnd. destruct Hnd as (Hnd & Hdis & _).
    assert (Hp : p ∉ l).
    { intros Hin. apply (Hdis p Hin). apply list_elem_of_singleton. reflexivity. }
    destruct (Hfree p) as (s & Hs & Hfs).
    { apply elem_of_app. right. apply list_elem_of_singleton. reflexivity. }
    destruct (IH fuel (<[p := None]> h)) as (h' & Heq & Hd & Hk).
    + lia.
    + exact Hnd.
    + intros q Hq. destruct (Hfree q) as (sq & Hsq & Hfq).
      { apply elem_of_app. now left. }
      exists sq. split; [|exact Hfq].
      rewrite list_lookup_insert_ne; [exact Hsq|]. intros ->. contradiction.
    + exists h'. simpl. unfold farray_size. simpl. rewrite length_app. simpl.
      destruct (0 <? Z.of_nat (length l + 1)) eqn:E; [|apply Z.ltb_ge in E; lia].
      rewrite farray_drop_last_snoc. simpl.
      rewrite (step_free_freeable _ _ _ Hs Hfs). simpl.
      split; [exact Heq|]. split.
      * intros q Hq. apply elem_of_app in Hq. destruct Hq as [Hq|Hq]; [now apply Hd|].
        apply list_elem_of_singleton in Hq. subst q.
        rewrite (Hk _ Hp). apply list_lookup_insert_eq. eapply lookup_lt_Some; eauto.
      * intros q Hq. apply not_elem_of_app in Hq. destruct Hq as [Hq1 Hq2].
        rewrite (Hk _ Hq1). apply list_lookup_insert_ne.
        intros ->. apply Hq2. apply list_elem_of_singleton. reflexivity.
Qed.

(** X8: when no block of a logged step dangles, [kalman_free] returns and
    releases every step of the log and nothing else.  In particular a
    current step that is not in the log, as [kalman_evolve] or
    [kalman_rollback] leave it, stays allocated. *)
Theorem free_releases_the_log (k : kalman_t) :
  indexed k ->
  (forall si s, step_at k si = Some s -> freeable s) ->
  exists h',
    kalman_free k = Ok h' /\
    (forall q, q ∈ elems (steps k) -> h' !! q = Some None) /\
    (forall q, q ∉ elems (steps k) -> h' !! q = heap k !! q) /\
    (forall p, current k = Some p -> p ∉ elems (steps k) ->
               h' !! p = heap k !! p).
Proof.
  intros Hi Hfree. unfold kalman_free.
  destruct (steps k) as [f l] eqn:Es.
  destruct (free_loop_spec f l (length l) (heap k)) as (h' & Heq & Hd & Hk).
  - simpl. lia.
  - pose proof (indexed_NoDup _ Hi) as Hnd. now rewrite Es in Hnd.
  - intros q Hq. apply list_elem_of_lookup in Hq. destruct Hq as [j Hj].
    assert (Hj' : elems (steps k) !! j = Some q) by (now rewrite Es).
    destruct (Hi _ _ Hj') as (s & Hs & _). exists s. split; [exact Hs|].
    apply (Hfree (first (steps k) + Z.of_nat j)). now apply (step_at_lookup k j q s).
  - exists h'. simpl. split; [exact Heq|]. split; [exact Hd|]. split; [exact Hk|].
    intros p _ Hp. now apply Hk.
Qed.

(** ** What [kalman_rollback] leaves behind *)

Lemma rolled_back_Rsupdiag (s s' : step_t) :
  rolled_back s = Ok s' -> is_live (Rsupdiag s) = true -> Rsupdiag s' = Freed.
Proof.
  unfold rolled_back. intros H Hl. obind H. obind H. obind H. obind H. obind H.
  inversion H; subst s'; clear H. simpl.
  destruct (Rsupdiag s); simpl in *; try discriminate. now inversion E0.
Qed.

Lemma matrix_free_fault (c : slot) (f : fault) :
  matrix_free c = Fault f -> f = DanglingPointer.
Proof. destruct c; simpl; intros H; inversion H; reflexivity. Qed.

Lemma rolled_back_fault (s : step_t) :
  Rsupdiag s = Freed -> rolled_back s = Fault DanglingPointer.
Proof.
  intros HR. unfold rolled_back.
  destruct (matrix_free (Rdiag s)) as [c1|f] eqn:E1;
    [|now rewrite (matrix_free_fault _ _ E1)].
  simpl. now rewrite HR.
Qed.

Lemma step_free_fault (p : addr) (h : heap_t) (s : step_t) :
  h !! p = Some (Some s) -> Rsupdiag s = Freed ->
  step_free p h = Fault DanglingPointer.
Proof.
  intros Hs HR. unfold step_free. rewrite (load_lookup _ _ _ Hs). simpl.
  destruct (matrix_free (covariance s)) as [c1|f] eqn:E1;
    [|now rewrite (matrix_free_fault _ _ E1)]. simpl.
  destruct (matrix_free (state s)) as [c2|f] eqn:E2;
    [|now rewrite (matrix_free_fault _ _ E2)]. simpl.
  destruct (matrix_free (Rdiag s)) as [c3|f] eqn:E3;
    [|now rewrite (matrix_free_fault _ _ E3)]. simpl.
  now rewrite HR.
Qed.

(** X9: [kalman_rollback] leaves the pointers it releases in the step.  When
    the step it rolls back to was not the latest one (its [Rsupdiag] was
    sealed by the next [kalman_evolve]), the [kalman_observe] that follows
    does not replace [Rsupdiag], and the step cannot be released again:
    a second [kalman_rollback] to it, or [kalman_free], releases the block
    twice. *)
Theorem rollback_leaves_dangling_Rsupdiag `{LA : Lapack} (k k1 k2 : kalman_t)
  (si : Z) (s : step_t) (G_i o_i C_i : option matrix_t) (C_type : ascii) :
  indexed k ->
  farray_first_index (steps k) <= si <= farray_last_index (steps k) ->
  step_at k si = Some s -> is_live (Rsupdiag s) = true ->
  kalman_rollback k si = Ok k1 ->
  kalman_observe k1 G_i o_i C_i C_type = Ok k2 ->
  (exists s2, step_at k2 si = Some s2 /\ Rsupdiag s2 = Freed) /\
  kalman_rollback k2 si = Fault DanglingPointer /\
  kalman_free k2 = Fault DanglingPointer.
Proof.
  intros Hi Hr Hat Hlive Hrb Hobs.
  destruct (rollback_result k si Hi Hr) as (p & s0 & Hp & Hs0 & Hst & Heq).
  assert (s0 = s) as ->.
  { assert (Hat' : step_at k si = Some s0).
    { replace si with (first (steps k) + Z.of_nat (Z.to_nat (si - first (steps k))))
        by (unfold farray_first_index in Hr; lia).
      eapply step_at_lookup; eauto. }
    congruence. }
  rewrite Heq in Hrb. obind Hrb. rename a into s'. inversion Hrb; subst k1; clear Hrb.
  pose proof (rolled_back_Rsupdiag _ _ E Hlive) as HR.
  destruct (rolled_back_inv _ _ E) as (E1 & _).
  destruct (kalman_observe_cases _ _ _ _ _ _ Hobs)
    as (p0 & cur & cur' & Hc & Hcur & -> & S1 & _ & S3 & _).
  simpl in Hc. inversion Hc; subst p0. simpl in Hcur.
  assert (Hp' : store p s' (heap k) !! p = Some (Some s'))
    by (eapply store_lookup_eq; eauto).
  rewrite Hp' in Hcur. inversion Hcur; subst cur. clear Hcur.
  set (n := Z.to_nat (si - first (steps k))) in *.
  assert (Hn : (n < length (elems (steps k)))%nat) by (eapply lookup_lt_Some; eauto).
  assert (Hcell : store p cur' (store p s' (heap k)) !! p = Some (Some cur'))
    by (eapply store_lookup_eq; eauto).
  assert (HR2 : Rsupdiag cur' = Freed) by congruence.
  unfold farray_first_index, farray_last_index, farray_size in Hr.
  split.
  { exists cur'. split; [|exact HR2].
    unfold step_at, farray_append. simpl.
    replace si with (first {| first := first (steps k);
                              elems := take n (elems (steps k)) ++ [p] |}
                     + Z.of_nat n) by (simpl; lia).
    rewrite (farray_get_lookup _ n p).
    - now rewrite Hcell.
    - simpl. rewrite lookup_app_r by (rewrite length_take; lia).
      rewrite length_take. now replace (n - n `min` length (elems (steps k)))%nat with O by lia. }
  split.
  - unfold kalman_rollback, farray_append, farray_first_index, farray_last_index,
      farray_size. simpl. rewrite length_app, length_take. simpl.
    destruct (Z.of_nat _ =? 0) eqn:Z0; [apply Z.eqb_eq in Z0; lia|].
    destruct (_ <? si) eqn:Z1; [apply Z.ltb_lt in Z1; lia|].
    destruct (si <? _) eqn:Z2; [apply Z.ltb_lt in Z2; lia|].
    rewrite farray_drop_last_snoc. simpl.
    rewrite (load_lookup _ _ _ Hcell). simpl.
    rewrite S1, E1, Hst, Z.eqb_refl.
    pose proof (rolled_back_fault _ HR2) as Hf. unfold rolled_back in Hf.
    destruct (matrix_free (Rdiag cur')) as [c1|f] eqn:F1; simpl in *;
      [|now inversion Hf].
    rewrite HR2 in *. simpl. reflexivity.
  - unfold kalman_free, farray_append, farray_size. simpl.
    rewrite length_app. simpl.
    replace (length (take n (elems (steps k))) + 1)%nat
      with (S (length (take n (elems (steps k))))) by lia.
    simpl. unfold farray_size. simpl. rewrite length_app. simpl.
    destruct (0 <? _) eqn:Z0; [|apply Z.ltb_ge in Z0; lia].
    rewrite farray_drop_last_snoc. simpl.
    now rewrite (step_free_fault _ _ _ Hcell HR2).
Qed.

(** ** A filter step: [kalman_evolve], then [kalman_observe] *)

Lemma kalman_observe_unfold `{LA : Lapack} (k : kalman_t)
  (G_i o_i C_i : option matrix_t) (C_type : ascii) :
  kalman_observe k G_i o_i C_i C_type
  = match current k with
    | Some p =>
        cur ← load p (heap k);
        cur' ← sealed_by cur G_i o_i C_i C_type;
        Ok {| heap := store p cur' (heap k);
              steps := farray_append (steps k) p; current := current k |}
    | None => Fault AssertionFailed
    end.
Proof.
  unfold kalman_observe, sealed_by.
  destruct (current k) as [p|]; [|reflexivity]. simpl.
  destruct (load p (heap k)) as [cur|]; [|reflexivity]. simpl.
  destruct (if bool_decide (is_Some o_i) then _ else _) as [[WG Wo]|]; [|reflexivity].
  simpl.
  destruct (arg (Rbar cur)) as [Rbar_p|]; [|reflexivity]. simpl.
  destruct (arg (ybar cur)) as [ybar_p|]; [|reflexivity]. simpl.
  destruct (matrix_create_vconcat Rbar_p WG) as [A|]; [|reflexivity].
  destruct (if matrix_cols A <=? matrix_rows A then _ else _) as [[Rd y1]|];
    [|reflexivity]. simpl.
  destruct (if matrix_rows Rd =? dimension cur then _ else _) as [st|]; reflexivity.
Qed.

Lemma resealed_from_refl (c : step_t) : resealed_from c c.
Proof. repeat split. Qed.

Lemma resealed_from_trans (c1 c2 c3 : step_t) :
  resealed_from c1 c2 -> resealed_from c2 c3 -> resealed_from c1 c3.
Proof.
  intros (A1 & A2 & A3 & A4 & A5 & A6) (B1 & B2 & B3 & B4 & B5 & B6).
  repeat split; congruence.
Qed.

(** The blocks [kalman_observe] seals depend on the current step through
    its dimension, [Rbar] and [ybar] only. *)
Lemma sealed_by_congr `{LA : Lapack} (c1 c2 c1' : step_t)
  (G_i o_i C_i : option matrix_t) (C_type : ascii) :
  dimension c2 = dimension c1 -> Rbar c2 = Rbar c1 -> ybar c2 = ybar c1 ->
  Rbar c1 <> Null \/ o_i <> None ->
  sealed_by c1 G_i o_i C_i C_type = Ok c1' ->
  exists c2',
    sealed_by c2 G_i o_i C_i C_type = Ok c2' /\
    Rdiag c2' = Rdiag c1' /\ y c2' = y c1' /\ state c2' = state c1' /\
    covariance c2' = covariance c1' /\
    step c2' = step c2 /\ dimension c2' = dimension c2 /\
    Rsupdiag c2' = Rsupdiag c2 /\ Rbar c2' = Rbar c2 /\ ybar c2' = ybar c2.
Proof.
  intros E1 E2 E3 Hsome H. unfold sealed_by in *. rewrite E1, E2, E3.
  destruct (if bool_decide (is_Some o_i) then _ else _) as [[WG Wo]|] eqn:EW;
    [|discriminate]. simpl in *.
  destruct (arg (Rbar c1)) as [Rbar_p|] eqn:ER; [|discriminate]. simpl in *.
  destruct (arg (ybar c1)) as [ybar_p|]; [|discriminate]. simpl in *.
  destruct (matrix_create_vconcat Rbar_p WG) as [A|] eqn:EA.
  - destruct (if matrix_cols A <=? matrix_rows A then _ else _) as [[Rd y1]|];
      [|discriminate]. simpl in *.
    destruct (if matrix_rows Rd =? dimension c1 then _ else _) as [st|];
      [|discriminate]. simpl in *.
    inversion H; subst c1'; clear H. eexists. split; [reflexivity|]. simpl.
    repeat split; auto.
  - exfalso. apply vconcat_None in EA. destruct EA as [-> ->].
    destruct Hsome as [Hs|Hs].
    + apply Hs. now apply arg_Null_inv.
    + destruct o_i; [|congruence]. simpl in EW. repeat obind EW. inversion EW.
Qed.

(** One step of the filter, from a log whose steps are numbered in sequence. *)
Lemma advance_frame `{LA : Lapack} (k k1 k2 : kalman_t) (n_i : Z)
  (H_i F_i c_i K_i : option matrix_t) (K_type : ascii)
  (G_i o_i C_i : option matrix_t) (C_type : ascii) :
  indexed k -> (elems (steps k) = [] -> first (steps k) = 0) ->
  kalman_evolve k n_i H_i F_i c_i K_i K_type = Ok k1 ->
  kalman_observe k1 G_i o_i C_i C_type = Ok k2 ->
  indexed k2 /\ first (steps k2) = first (steps k) /\
  elems (steps k2) = elems (steps k) ++ [length (heap k)] /\
  forall j q, elems (steps k) !! j = Some q ->
    exists c c',
      heap k !! q = Some (Some c) /\ heap k2 !! q = Some (Some c') /\
      resealed_from c c' /\ (S j < length (elems (steps k)) -> c' = c)%nat.
Proof.
  intros Hi H0 Hev Hobs.
  destruct (kalman_evolve_inv _ _ _ _ _ _ _ _ Hi Hev)
    as (Hst & Hc & cur & C1 & _ & _ & _ & _ & _ & _ & _ & Hcase).
  destruct (kalman_observe_cases _ _ _ _ _ _ Hobs)
    as (p & cur0 & cur' & Hc' & Hcur & -> & S1 & S2 & _).
  rewrite Hc in Hc'. inversion Hc'; subst p. clear Hc'.
  set (p := length (heap k)) in *.
  assert (Hcells : forall j q, elems (steps k) !! j = Some q ->
            q <> p /\
            exists c c',
              heap k !! q = Some (Some c) /\ heap k1 !! q = Some (Some c') /\
              resealed_from c c' /\ (S j < length (elems (steps k)) -> c' = c)%nat).
  { intros j q Hq. destruct (Hi _ _ Hq) as (c & Hcq & _).
    assert (Hlt : (q < p)%nat) by (eapply lookup_lt_Some; eauto).
    split; [lia|]. exists c.
    destruct Hcase as [(_ & _ & ->)|(imo & imo_s & imo_s' & Himo & Hims & _ & -> & A1 & A2 & A3 & A4 & A5 & A6 & _)].
    - exists c. rewrite lookup_app_l by exact Hlt.
      split; [exact Hcq|]. split; [exact Hcq|]. split; [apply resealed_from_refl|auto].
    - destruct (decide (q = imo)) as [->|Hne].
      + exists imo_s'. rewrite Hims in Hcq. inversion Hcq; subst c.
        split; [exact Hims|].
        split; [eapply store_lookup_eq; rewrite lookup_app_l by exact Hlt; exact Hims|].
        split; [repeat split; assumption|].
        intros Hj. pose proof (indexed_inj k _ _ _ Hi Hq Himo). lia.
      + exists c. rewrite store_lookup_ne by exact Hne.
        rewrite lookup_app_l by exact Hlt.
        split; [exact Hcq|]. split; [exact Hcq|]. split; [apply resealed_from_refl|auto]. }
  assert (Hstepcur : step cur0 = first (steps k) + Z.of_nat (length (elems (steps k)))).
  { destruct Hcase as [(He & E0 & Hh)|(imo & imo_s & imo_s' & Himo & Hims & Hstep & Hh & _)].
    - rewrite Hh in Hcur. unfold p in Hcur. rewrite lookup_app_r in Hcur by lia.
      replace (length (heap k) - length (heap k))%nat with O in Hcur by lia.
      simpl in Hcur. inversion Hcur; subst cur0. rewrite E0, He, (H0 He). reflexivity.
    - rewrite Hh in Hcur. rewrite store_lookup_ne in Hcur
        by (intros E; apply lookup_lt_Some in Hims; unfold p in E; lia).
      unfold p in Hcur. rewrite lookup_app_r in Hcur by lia.
      replace (length (heap k) - length (heap k))%nat with O in Hcur by lia.
      simpl in Hcur. inversion Hcur; subst cur0. rewrite Hstep.
      destruct (Hi _ _ Himo) as (s & Hs & Hn). rewrite Hims in Hs. inversion Hs; subst s.
      rewrite Hn. pose proof (lookup_lt_Some _ _ _ Himo). lia. }
  simpl. rewrite Hst.
  assert (Hframe : forall j q, elems (steps k) !! j = Some q ->
            exists c c',
              heap k !! q = Some (Some c) /\
              store p cur' (heap k1) !! q = Some (Some c') /\
              resealed_from c c' /\ (S j < length (elems (steps k)) -> c' = c)%nat).
  { intros j q Hq. destruct (Hcells _ _ Hq) as (Hne & c & c' & A1 & A2 & A3 & A4).
    exists c, c'. rewrite store_lookup_ne by exact Hne. auto. }
  split; [|split; [reflexivity|split; [reflexivity|exact Hframe]]].
  intros j q Hq. simpl in Hq |- *.
  destruct (decide (j < length (elems (steps k)))%nat) as [Hj|Hj].
  - rewrite lookup_app_l in Hq by exact Hj.
    destruct (Hframe _ _ Hq) as (c & c' & A1 & A2 & (B1 & _) & _).
    exists c'. split; [exact A2|]. rewrite B1.
    destruct (Hi _ _ Hq) as (c0 & Hc0 & Hn). congruence.
  - rewrite lookup_app_r in Hq by lia.
    destruct (j - length (elems (steps k)))%nat eqn:Ej; [|destruct n; discriminate].
    simpl in Hq. inversion Hq; subst q.
    exists cur'. split; [eapply store_lookup_eq; eauto|].
    rewrite S1, Hstepcur. f_equal. lia.
Qed.

(** ** Rolling back a prediction *)

Lemma run_app `{LA : Lapack} (cs1 cs2 : list call) (k : kalman_t) :
  run (cs1 ++ cs2) k = (k1 ← run cs1 k; run cs2 k1).
Proof.
  revert k. induction cs1 as [|c cs1 IH]; intros k; simpl; [reflexivity|].
  destruct (do_call c k) as [k1|]; simpl; [apply IH|reflexivity].
Qed.

(** What the filter reports depends on the log and on five fields of the
    steps it points to. *)
Lemma reports_ext (k k' : kalman_t) :
  steps k' = steps k ->
  (forall q, q ∈ elems (steps k) ->
     exists c c',
       heap k !! q = Some (Some c) /\ heap k' !! q = Some (Some c') /\
       step c' = step c /\ dimension c' = dimension c /\ Rdiag c' = Rdiag c /\
       state c' = state c /\ covariance c' = covariance c) ->
  kalman_earliest k' = kalman_earliest k /\ kalman_latest k' = kalman_latest k /\
  forall sj, kalman_estimate k' sj = kalman_estimate k sj /\
             kalman_covariance k' sj = kalman_covariance k sj.
Proof.
  intros Hst Hc.
  assert (Hget : forall (T : Type) (f : step_t -> outcome T) (e : Z),
            (forall c c', step c' = step c -> dimension c' = dimension c ->
               Rdiag c' = Rdiag c -> state c' = state c ->
               covariance c' = covariance c -> f c' = f c) ->
            (p ← farray_get (steps k) e; s ← load p (heap k'); f s)
            = (p ← farray_get (steps k) e; s ← load p (heap k); f s)).
  { intros T f e Hf. destruct (farray_get (steps k) e) as [p|] eqn:Eg; [|reflexivity].
    simpl. destruct (Hc p (farray_get_elem _ _ _ Eg))
      as (c & c' & H1 & H2 & A1 & A2 & A3 & A4 & A5).
    rewrite (load_lookup _ _ _ H1), (load_lookup _ _ _ H2). simpl. now apply Hf. }
  unfold kalman_earliest, kalman_latest, kalman_estimate, kalman_covariance,
    farray_get_first, farray_get_last.
  rewrite Hst. destruct (farray_size (steps k) =? 0); [auto|].
  split; [apply (Hget Z (fun s => Ok (step s))); intros; now f_equal|].
  split; [apply (Hget Z (fun s => Ok (step s))); intros; now f_equal|].
  intros sj. split.
  - apply (Hget _ (fun s => if is_null (state s)
                            then Ok (Some (matrix_create_constant (dimension s) 1 NaN))
                            else st ← deref (state s); Ok (matrix_create_copy (Some st)))).
    intros c c' _ E2 _ E4 _. now rewrite E2, E4.
  - apply (Hget _ (fun s =>
             if negb (is_null (Rdiag s)) then
               Rd ← deref (Rdiag s);
               if matrix_rows Rd =? dimension s then
                 c ← arg (covariance s); Ok (matrix_create_copy c)
               else Ok (Some (matrix_create_constant (dimension s) (dimension s) NaN))
             else Ok (Some (matrix_create_constant (dimension s) (dimension s) NaN)))).
    intros c c' _ E2 E3 _ E5. now rewrite E2, E3, E5.
Qed.

Lemma advances_frame `{LA : Lapack} (advs : list Session.op) :
  forall k1 k2 : kalman_t,
    forallb Session.is_advance advs = true ->
    indexed k1 -> elems (steps k1) <> [] ->
    run (Session.session advs) k1 = Ok k2 ->
    indexed k2 /\ first (steps k2) = first (steps k1) /\
    (exists rest, elems (steps k2) = elems (steps k1) ++ rest) /\
    forall j q, elems (steps k1) !! j = Some q ->
      exists c c',
        heap k1 !! q = Some (Some c) /\ heap k2 !! q = Some (Some c') /\
        resealed_from c c' /\ (S j < length (elems (steps k1)) -> c' = c)%nat.
Proof.
  induction advs as [|o advs IH]; intros k1 k2 Hadv Hi Hne Hrun.
  - simpl in Hrun. inversion Hrun; subst k2.
    split; [exact Hi|]. split; [reflexivity|]. split; [exists []; now rewrite app_nil_r|].
    intros j q Hq. destruct (Hi _ _ Hq) as (c & Hc & _). exists c, c.
    split; [exact Hc|]. split; [exact Hc|]. split; [apply resealed_from_refl|auto].
  - simpl in Hadv. apply andb_prop in Hadv. destruct Hadv as [Ho Hadv].
    destruct o; try discriminate.
    unfold Session.session in Hrun. simpl in Hrun.
    obind Hrun. rename a into ka. obind Hrun. rename a into kb.
    destruct (advance_frame _ _ _ _ _ _ _ _ _ _ _ _ _ Hi
                ltac:(intros; contradiction) E E0)
      as (Hib & Hfb & Heb & Hcb).
    assert (Hneb : elems (steps kb) <> []).
    { rewrite Heb. intros X. apply app_eq_nil in X. destruct X; discriminate. }
    destruct (IH kb k2 Hadv Hib Hneb Hrun) as (Hi2 & Hf2 & (rest & He2) & Hc2).
    split; [exact Hi2|]. split; [congruence|].
    split; [exists (length (heap k1) :: rest); rewrite He2, Heb, <- app_assoc; reflexivity|].
    intros j q Hq. destruct (Hcb _ _ Hq) as (c & cb & A1 & A2 & A3 & A4).
    assert (Hqb : elems (steps kb) !! j = Some q).
    { rewrite Heb. apply lookup_app_l_Some. exact Hq. }
    destruct (Hc2 _ _ Hqb) as (cb' & c2 & B1 & B2 & _ & B4).
    rewrite A2 in B1. inversion B1; subst cb'.
    assert (c2 = cb) as ->.
    { apply B4. rewrite Heb, length_app. simpl.
      pose proof (lookup_lt_Some _ _ _ Hq). lia. }
    exists c, cb. auto.
Qed.

(** X10: rolling back a prediction.  From a filter whose current step is
    open, observe the step in some way, advance the filter by any number of
    further steps, roll back to the step and observe it with [G_i], [o_i],
    [C_i].  When this observation seals something (the step has predicted
    rows or [o_i] is given), the filter then reports exactly what it reports
    when the open step is observed with [G_i], [o_i], [C_i] directly: the
    same log, the same window, and the same estimate and covariance for
    every step index. *)
Theorem rollback_then_observe `{LA : Lapack} (k0 k1 k2 k3 k4 : kalman_t)
  (p : addr) (cur0 : step_t) (G_1 o_1 C_1 : option matrix_t) (C_type1 : ascii)
  (advs : list Session.op) (G_i o_i C_i : option matrix_t) (C_type : ascii) :
  indexed k0 ->
  current k0 = Some p -> (p ∉ elems (steps k0)) ->
  heap k0 !! p = Some (Some cur0) ->
  step cur0 = first (steps k0) + Z.of_nat (length (elems (steps k0))) ->
  Rbar cur0 <> Null \/ o_i <> None ->
  kalman_observe k0 G_1 o_1 C_1 C_type1 = Ok k1 ->
  forallb Session.is_advance advs = true ->
  run (Session.session advs) k1 = Ok k2 ->
  kalman_rollback k2 (step cur0) = Ok k3 ->
  kalman_observe k3 G_i o_i C_i C_type = Ok k4 ->
  exists kd,
    kalman_observe k0 G_i o_i C_i C_type = Ok kd /\
    steps k4 = steps kd /\
    kalman_earliest k4 = kalman_earliest kd /\
    kalman_latest k4 = kalman_latest kd /\
    forall sj, kalman_estimate k4 sj = kalman_estimate kd sj /\
               kalman_covariance k4 sj = kalman_covariance kd sj.
Proof.
  intros Hi0 Hc0 Hp0 Hcur0 Hstep0 Hsome Hobs1 Hadv Hrun Hrb Hobs.
  set (n := length (elems (steps k0))) in *.
  (* the first observation *)
  destruct (kalman_observe_cases _ _ _ _ _ _ Hobs1)
    as (p1 & c0 & c1 & Hc & Hc0' & -> & S1 & S2 & _ & S4 & S5 & _).
  rewrite Hc0 in Hc. inversion Hc; subst p1. clear Hc.
  rewrite Hcur0 in Hc0'. inversion Hc0'; subst c0. clear Hc0'.
  set (k1 := {| heap := store p c1 (heap k0); steps := farray_append (steps k0) p;
                current := Some p |}) in *.
  assert (Hcell1 : heap k1 !! p = Some (Some c1)) by (eapply store_lookup_eq; eauto).
  assert (Hi1 : indexed k1).
  { intros j q Hq. simpl in Hq |- *.
    destruct (decide (j < n)%nat) as [Hj|Hj].
    - rewrite lookup_app_l in Hq by exact Hj.
      destruct (Hi0 _ _ Hq) as (c & Hcq & Hn). exists c. split; [|exact Hn].
      rewrite store_lookup_ne; [exact Hcq|].
      intros ->. apply Hp0. apply list_elem_of_lookup. eauto.
    - rewrite lookup_app_r in Hq by (fold n; lia). fold n in Hq.
      destruct (j - n)%nat eqn:Ej; [|destruct n0; discriminate].
      simpl in Hq. inversion Hq; subst q. exists c1. split; [exact Hcell1|].
      rewrite S1, Hstep0. f_equal. lia. }
  assert (Hne1 : elems (steps k1) <> []).
  { simpl. intros X. apply app_eq_nil in X. destruct X; discriminate. }
  (* the further steps *)
  destruct (advances_frame advs k1 k2 Hadv Hi1 Hne1 Hrun)
    as (Hi2 & Hf2 & (rest & He2) & Hc2).
  simpl in Hf2, He2.
  assert (Hp2 : elems (steps k2) !! n = Some p).
  { rewrite He2, <- app_assoc. rewrite lookup_app_r by (fold n; lia). fold n.
    now replace (n - n)%nat with O by lia. }
  destruct (Hc2 n p) as (c1' & c2 & B1 & B2 & B3 & _).
  { simpl. rewrite lookup_app_r by (fold n; lia). fold n.
    now replace (n - n)%nat with O by lia. }
  rewrite Hcell1 in B1. inversion B1; subst c1'. clear B1.
  destruct B3 as (R1 & R2 & _ & _ & R5 & R6).
  (* the rollback *)
  assert (Hrange : farray_first_index (steps k2) <= step cur0
                   <= farray_last_index (steps k2)).
  { unfold farray_first_index, farray_last_index, farray_size.
    rewrite Hf2, He2, !length_app. simpl. fold n. lia. }
  destruct (rollback_result k2 (step cur0) Hi2 Hrange) as (p' & s & Hp' & Hs & _ & Heq).
  replace (Z.to_nat (step cur0 - first (steps k2))) with n in * by lia.
  rewrite Hp2 in Hp'. inversion Hp'; subst p'. clear Hp'.
  rewrite B2 in Hs. inversion Hs; subst s. clear Hs.
  rewrite Heq in Hrb. obind Hrb. rename a into s'. inversion Hrb; subst k3; clear Hrb.
  destruct (rolled_back_inv _ _ E) as (T1 & T2 & T3 & T4 & _).
  assert (Htake : take n (elems (steps k2)) = elems (steps k0)).
  { rewrite He2, <- app_assoc. apply take_app_length. }
  (* the second observation *)
  rewrite kalman_observe_unfold in Hobs. simpl in Hobs.
  assert (Hcell3 : store p s' (heap k2) !! p = Some (Some s'))
    by (eapply store_lookup_eq; eauto).
  rewrite (load_lookup _ _ _ Hcell3) in Hobs. simpl in Hobs.
  obind Hobs. rename a into c4. inversion Hobs; subst k4; clear Hobs.
  destruct (sealed_by_congr s' cur0 c4 G_i o_i C_i C_type)
    as (cd & Hd & D1 & D2 & D3 & D4 & D5 & D6 & _);
    [congruence|congruence|congruence| |exact E0|].
  { destruct Hsome as [Hs|Hs]; [left|now right]. congruence. }
  exists {| heap := store p cd (heap k0); steps := farray_append (steps k0) p;
            current := current k0 |}.
  split.
  { rewrite kalman_observe_unfold, Hc0. rewrite (load_lookup _ _ _ Hcur0). simpl.
    now rewrite Hd. }
  assert (Hsteps : farray_append {| first := first (steps k2);
                                    elems := take n (elems (steps k2)) |} p
                   = farray_append (steps k0) p).
  { unfold farray_append. simpl. rewrite Htake, Hf2. reflexivity. }
  simpl. rewrite Hsteps. split; [reflexivity|].
  apply reports_ext; [reflexivity|].
  intros q Hq. simpl in Hq |- *. apply elem_of_app in Hq. destruct Hq as [Hq|Hq].
  - assert (Hne : q <> p) by (intros ->; contradiction).
    apply list_elem_of_lookup in Hq. destruct Hq as [j Hj].
    destruct (Hi0 _ _ Hj) as (c & Hcq & _).
    pose proof (lookup_lt_Some _ _ _ Hj) as Hjn. fold n in Hjn.
    destruct (Hc2 j q) as (cq & cq' & Q1 & Q2 & _ & Q4).
    { simpl. apply lookup_app_l_Some. exact Hj. }
    assert (cq' = cq) as -> by (apply Q4; simpl; rewrite length_app; simpl; fold n; lia).
    unfold k1 in Q1. simpl in Q1. rewrite store_lookup_ne in Q1 by exact Hne.
    rewrite Hcq in Q1. inversion Q1; subst cq.
    exists c, c. rewrite !store_lookup_ne by exact Hne. auto 10.
  - apply list_elem_of_singleton in Hq. subst q.
    exists cd, c4.
    split; [eapply store_lookup_eq; eauto|].
    split; [eapply store_lookup_eq; eauto|].
    assert (Hseal : step c4 = step s' /\ dimension c4 = dimension s').
    { clear - E0. unfold sealed_by in E0.
      destruct (if bool_decide (is_Some o_i) then _ else _) as [[WG Wo]|];
        [|discriminate]. simpl in E0.
      destruct (arg (Rbar s')) as [Rbar_p|]; [|discriminate]. simpl in E0.
      destruct (arg (ybar s')) as [ybar_p|]; [|discriminate]. simpl in E0.
      destruct (matrix_create_vconcat Rbar_p WG) as [A|];
        [|inversion E0; subst; auto].
      destruct (if matrix_cols A <=? matrix_rows A then _ else _) as [[Rd y1]|];
        [|discriminate]. simpl in E0.
      destruct (if matrix_rows Rd =? dimension s' then _ else _) as [st|];
        [|discriminate]. simpl in E0. inversion E0; subst. auto. }
    destruct Hseal as [Q1 Q2].
    split; [congruence|]. split; [congruence|]. auto.
Qed.

(** ** What [kalman_smooth] writes *)

Lemma same_blocks_refl (c : step_t) : same_blocks c c.
Proof. repeat split. Qed.

Lemma same_blocks_trans (c1 c2 c3 : step_t) :
  same_blocks c1 c2 -> same_blocks c2 c3 -> same_blocks c1 c3.
Proof.
  intros (A1 & A2 & A3 & A4 & A5 & A6 & A7) (B1 & B2 & B3 & B4 & B5 & B6 & B7).
  repeat split; congruence.
Qed.

Lemma only_estimates_differ_refl (h : heap_t) : only_estimates_differ h h.
Proof.
  split; [reflexivity|]. intros p. destruct (h !! p) as [[c|]|]; try reflexivity.
  exists c. split; [reflexivity|apply same_blocks_refl].
Qed.

Lemma only_estimates_differ_trans (h1 h2 h3 : heap_t) :
  only_estimates_differ h1 h2 -> only_estimates_differ h2 h3 ->
  only_estimates_differ h1 h3.
Proof.
  intros [L1 H1] [L2 H2]. split; [congruence|]. intros p.
  specialize (H1 p). specialize (H2 p).
  destruct (h1 !! p) as [[c|]|].
  - destruct H1 as (c' & E & S1). rewrite E in H2. destruct H2 as (c'' & E' & S2).
    exists c''. split; [exact E'|]. eapply same_blocks_trans; eauto.
  - rewrite H1 in H2. exact H2.
  - rewrite H1 in H2. exact H2.
Qed.

Lemma only_estimates_differ_store (h : heap_t) (p : addr) (c c' : step_t) :
  h !! p = Some (Some c) -> same_blocks c c' ->
  only_estimates_differ h (store p c' h).
Proof.
  intros Hc Hs. split; [apply length_store|]. intros q.
  destruct (decide (q = p)) as [->|Hne].
  - rewrite Hc. exists c'. split; [eapply store_lookup_eq; eauto|exact Hs].
  - rewrite store_lookup_ne by exact Hne.
    destruct (h !! q) as [[cq|]|]; try reflexivity.
    exists cq. split; [reflexivity|apply same_blocks_refl].
Qed.

Lemma smooth_states_frame `{LA : Lapack} (n : nat) :
  forall si last a prev h h',
    smooth_states n si last a prev h = Ok h' -> only_estimates_differ h h'.
Proof.
  induction n as [|n IH]; intros si last a prev h h' H; simpl in H.
  - inversion H; subst. apply only_estimates_differ_refl.
  - obind H. rename a0 into i. obind H. rename a0 into s. apply load_inv in E0.
    obind H. rename a0 into s1. obind H. obind H. obind H. rename a2 into s2.
    obind H. obind H.
    assert (H1 : same_blocks s s1).
    { destruct (is_null (state s)); [obind E1|]; inversion E1; subst;
        repeat split. }
    assert (H2 : same_blocks s s2).
    { destruct (si <? last); [repeat obind E4|]; inversion E4; subst;
        destruct H1 as (A1 & A2 & A3 & A4 & A5 & A6 & A7); repeat split; assumption. }
    apply IH in H.
    eapply only_estimates_differ_trans; [|exact H].
    eapply only_estimates_differ_trans.
    + apply (only_estimates_differ_store h i s
               (set_state (Live (matrix_mutate_copy a0 a1)) s1) E0).
      destruct H1 as (A1 & A2 & A3 & A4 & A5 & A6 & A7). repeat split; assumption.
    + eapply only_estimates_differ_store.
      * eapply store_lookup_eq; eauto.
      * destruct H1 as (A1 & A2 & A3 & A4 & A5 & A6 & A7).
        destruct H2 as (B1 & B2 & B3 & B4 & B5 & B6 & B7).
        repeat split; simpl; congruence.
Qed.

Lemma smooth_covariances_frame `{LA : Lapack} (n : nat) :
  forall si last a R n_ipo h h',
    smooth_covariances n si last a R n_ipo h = Ok h' -> only_estimates_differ h h'.
Proof.
  induction n as [|n IH]; intros si last a R n_ipo h h' H; simpl in H.
  - inversion H; subst. apply only_estimates_differ_refl.
  - obind H. rename a0 into i. obind H. rename a0 into s. apply load_inv in E0.
    destruct (si =? last).
    + obind H. eapply IH; eauto.
    + obind H. obind H. obind H. obind H. obind H. obind H.
      apply IH in H.
      eapply only_estimates_differ_trans; [|exact H].
      eapply only_estimates_differ_trans.
      * apply (only_estimates_differ_store h i s (set_covariance a0 s) E0).
        repeat split.
      * eapply only_estimates_differ_store.
        -- eapply store_lookup_eq; eauto.
        -- repeat split.
Qed.

Lemma only_estimates_differ_indexed (k k' : kalman_t) :
  steps k' = steps k -> only_estimates_differ (heap k) (heap k') ->
  indexed k -> indexed k'.
Proof.
  intros Hst [_ Hh] Hi j p Hj. rewrite Hst in Hj |- *.
  destruct (Hi _ _ Hj) as (c & Hc & Hn). specialize (Hh p). rewrite Hc in Hh.
  destruct Hh as (c' & Hc' & (S1 & _)). exists c'. split; [exact Hc'|congruence].
Qed.

Lemma kalman_smooth_frame `{LA : Lapack} (k k' : kalman_t) :
  kalman_smooth k = Ok k' ->
  steps k' = steps k /\ current k' = current k /\
  only_estimates_differ (heap k) (heap k').
Proof.
  intros H. unfold kalman_smooth in H.
  destruct (farray_size (steps k) =? 0).
  - inversion H; subst. split; [reflexivity|]. split; [reflexivity|].
    apply only_estimates_differ_refl.
  - obind H. obind H. inversion H; subst; clear H. simpl.
    split; [reflexivity|]. split; [reflexivity|].
    eapply only_estimates_differ_trans.
    + eapply smooth_states_frame; eauto.
    + eapply smooth_covariances_frame; eauto.
Qed.

(** X11: [kalman_smooth] writes states and covariances only.  Whenever it
    returns, the log and the current step are the ones it was given, every
    step of the heap is at its address with the same number, dimension,
    [Rdiag], [Rsupdiag], [y], [Rbar] and [ybar], and [kalman_earliest] and
    [kalman_latest] report what they reported before. *)
Theorem smooth_writes_only_estimates `{LA : Lapack} (k k' : kalman_t) :
  kalman_smooth k = Ok k' ->
  steps k' = steps k /\ current k' = current k /\
  only_estimates_differ (heap k) (heap k') /\
  (indexed k ->
   indexed k' /\ kalman_earliest k' = kalman_earliest k /\
   kalman_latest k' = kalman_latest k).
Proof.
  intros H. destruct (kalman_smooth_frame _ _ H) as (Hst & Hc & Hh).
  split; [exact Hst|]. split; [exact Hc|]. split; [exact Hh|].
  intros Hi. pose proof (only_estimates_differ_indexed _ _ Hst Hh Hi) as Hi'.
  split; [exact Hi'|].
  destruct (decide (elems (steps k) = [])) as [He|Hne].
  - rewrite !kalman_earliest_empty, !kalman_latest_empty by (rewrite ?Hst; exact He).
    auto.
  - assert (Hne' : elems (steps k') <> []) by (now rewrite Hst).
    rewrite (kalman_earliest_indexed _ Hi' Hne'), (kalman_earliest_indexed _ Hi Hne).
    rewrite (kalman_latest_indexed _ Hi' Hne'), (kalman_latest_indexed _ Hi Hne).
    now rewrite Hst.
Qed.

(** ** The window of the log along a session *)

Lemma reobserve_frame `{LA : Lapack} (k k1 k2 : kalman_t) (si : Z)
  (G_i o_i C_i : option matrix_t) (C_type : ascii) :
  indexed k ->
  farray_first_index (steps k) <= si <= farray_last_index (steps k) ->
  kalman_rollback k si = Ok k1 ->
  kalman_observe k1 G_i o_i C_i C_type = Ok k2 ->
  indexed k2 /\ first (steps k2) = first (steps k) /\
  length (elems (steps k2)) = S (Z.to_nat (si - first (steps k))).
Proof.
  intros Hi Hr Hrb Hobs.
  destruct (rollback_result k si Hi Hr) as (p & s & Hp & Hs & Hst & Heq).
  rewrite Heq in Hrb. obind Hrb. rename a into s'. inversion Hrb; subst k1; clear Hrb.
  destruct (rolled_back_inv _ _ E) as (E1 & _).
  destruct (kalman_observe_cases _ _ _ _ _ _ Hobs)
    as (p0 & cur & cur' & Hc & Hcur & -> & S1 & _).
  simpl in Hc. inversion Hc; subst p0. simpl in Hcur.
  assert (Hp' : store p s' (heap k) !! p = Some (Some s'))
    by (eapply store_lookup_eq; eauto).
  rewrite Hp' in Hcur. inversion Hcur; subst cur. clear Hcur.
  set (n := Z.to_nat (si - first (steps k))) in *.
  assert (Hn : (n < length (elems (steps k)))%nat) by (eapply lookup_lt_Some; eauto).
  unfold farray_first_index, farray_last_index, farray_size in Hr.
  simpl. split; [|split; [reflexivity|]].
  - intros j q Hq. simpl in Hq |- *.
    destruct (decide (j < n)%nat) as [Hj|Hj].
    + rewrite lookup_app_l in Hq by (rewrite length_take; lia).
      rewrite lookup_take_lt in Hq by lia.
      destruct (Hi _ _ Hq) as (c & Hcq & Hnq). exists c. split; [|exact Hnq].
      assert (q <> p).
      { intros ->. pose proof (indexed_inj k _ _ _ Hi Hq Hp). lia. }
      rewrite !store_lookup_ne by assumption. exact Hcq.
    + rewrite lookup_app_r in Hq by (rewrite length_take; lia).
      rewrite length_take in Hq.
      replace (n `min` length (elems (steps k)))%nat with n in Hq by lia.
      destruct (j - n)%nat eqn:Ej; [|destruct n0; discriminate].
      simpl in Hq. inversion Hq; subst q.
      exists cur'. split; [eapply store_lookup_eq; eauto|].
      rewrite S1, E1, Hst. lia.
  - rewrite length_app, length_take. simpl. lia.
Qed.

(** The window that the tracking function computes is the window of the
    log, whose steps are numbered in sequence. *)
Lemma track_sound `{LA : Lapack} (o : Session.op) (k k' : kalman_t) (w w' : Z * Z) :
  indexed k ->
  (elems (steps k) = [] /\ first (steps k) = 0 /\ w = (-1, -1)) \/
  (elems (steps k) <> [] /\ 0 <= first (steps k) /\
   w = (farray_first_index (steps k), farray_last_index (steps k))) ->
  Session.track w o = Some w' ->
  run (Session.calls o) k = Ok k' ->
  indexed k' /\
  ((elems (steps k') = [] /\ first (steps k') = 0 /\ w' = (-1, -1)) \/
   (elems (steps k') <> [] /\ 0 <= first (steps k') /\
    w' = (farray_first_index (steps k'), farray_last_index (steps k')))).
Proof.
  intros Hi Hw Ht Hrun.
  unfold farray_first_index, farray_last_index, farray_size in *.
  destruct o as [n_i H_i F_i c_i K_i K_type G_i o_i C_i C_type
                |si G_i o_i C_i C_type| |si]; simpl in Hrun.
  - (* a filter step *)
    obind Hrun. rename a into ka. obind Hrun. inversion Hrun; subst a; clear Hrun.
    destruct (advance_frame _ _ _ _ _ _ _ _ _ _ _ _ _ Hi
                ltac:(intros He; destruct Hw as [(_ & Hf & _)|(Hne & _)];
                      [exact Hf|contradiction]) E E0)
      as (Hi' & Hf' & He' & _).
    split; [exact Hi'|]. right.
    split; [rewrite He'; intros X; apply app_eq_nil in X; destruct X; discriminate|].
    rewrite Hf', He', length_app. simpl.
    destruct Hw as [(He & Hf & ->)|(Hne & Hf & ->)]; simpl in Ht.
    + inversion Ht; subst w'. rewrite He, Hf. simpl. split; [lia|reflexivity].
    + assert (0 < length (elems (steps k)))%nat
        by (destruct (elems (steps k)); [congruence|simpl; lia]).
      destruct (_ =? -1) eqn:E1; [apply Z.eqb_eq in E1; lia|].
      inversion Ht; subst w'. split; [exact Hf|]. f_equal. lia.
  - (* a step observed again *)
    obind Hrun. rename a into ka. obind Hrun. inversion Hrun; subst a; clear Hrun.
    destruct Hw as [(He & Hf & ->)|(Hne & Hf & ->)]; simpl in Ht; [discriminate|].
    destruct ((0 <=? _) && _ && _) eqn:Eg; [|discriminate].
    inversion Ht; subst w'; clear Ht.
    apply andb_prop in Eg. destruct Eg as [Eg E3]. apply andb_prop in Eg.
    destruct Eg as [E1 E2]. apply Z.leb_le in E1, E2, E3.
    destruct (reobserve_frame k ka k' si _ _ _ _ Hi ltac:(unfold farray_first_index,
                farray_last_index, farray_size; lia) E E0) as (Hi' & Hf' & Hl').
    split; [exact Hi'|]. right.
    split; [intros X; rewrite X in Hl'; discriminate|].
    rewrite Hf', Hl'. split; [exact Hf|]. f_equal. lia.
  - (* smoothing *)
    obind Hrun. inversion Hrun; subst a; clear Hrun.
    assert (w' = w) as -> by (destruct w; simpl in Ht; congruence).
    destruct (kalman_smooth_frame _ _ E) as (Hst & _ & Hh).
    pose proof (only_estimates_differ_indexed _ _ Hst Hh Hi) as Hi'.
    split; [exact Hi'|]. now rewrite Hst.
  - (* forgetting *)
    obind Hrun. inversion Hrun; subst a; clear Hrun.
    pose proof (forget_indexed _ _ _ Hi E) as Hi'. split; [exact Hi'|].
    pose proof (kalman_forget_inv _ _ _ E) as Hinv. cbv zeta in Hinv.
    destruct Hinv as (_ & Hf' & He' & Hlt & _ & _ & Hnoop).
    unfold farray_first_index, farray_last_index, farray_size in *.
    remember (if si <? 0 then _ else _) as m eqn:Em in Hf'.
    rewrite <- Em in He', Hlt, Hnoop.
    destruct Hw as [(He & Hf & ->)|(Hne & Hf & ->)]; simpl in Ht.
    + inversion Ht; subst w'. left. rewrite He', He, drop_nil.
      split; [reflexivity|]. split; [|reflexivity].
      assert (m = O) as ->; [|lia].
      destruct (decide (m = O)) as [|Hm]; [assumption|].
      rewrite He in Em. simpl in Em.
      destruct (forget_count _ _ _ _ Em Hm) as [(H0 & Hmz)|(H0 & Hr & Hmz)]; lia.
    + specialize (Hlt Hne). right.
      assert (Hlen : length (elems (steps k')) = (length (elems (steps k)) - m)%nat)
        by (rewrite He'; apply length_drop).
      split; [intros X; rewrite X in Hlen; simpl in Hlen; lia|].
      split; [lia|]. rewrite Hf', Hlen.
      destruct (_ =? -1) eqn:E1; [apply Z.eqb_eq in E1; lia|].
      destruct (decide (m = O)) as [->|Hm].
      * assert (Hw' : w' = (first (steps k),
                             first (steps k) + Z.of_nat (length (elems (steps k))) - 1)).
        { assert (Hpos : (0 < length (elems (steps k)))%nat)
            by (destruct (elems (steps k)); [congruence|simpl; lia]).
          clear - Ht Em Hpos. destruct (si <? 0) eqn:E0.
          - inversion Ht. f_equal; lia.
          - destruct (first (steps k) <=? si) eqn:E2;
              destruct (si <? first (steps k) + Z.of_nat (length (elems (steps k))) - 1)
                eqn:E3; simpl in *; inversion Ht; try reflexivity.
            apply Z.leb_le in E2. apply Z.ltb_lt in E3. lia. }
        rewrite Hw'. f_equal; lia.
      * destruct (forget_count _ _ _ _ Em Hm) as [(H0 & Hmz)|(H0 & Hr & Hmz)].
        -- destruct (si <? 0) eqn:E0; [|apply Z.ltb_ge in E0; lia].
           inversion Ht. f_equal; lia.
        -- destruct (si <? 0) eqn:E0; [apply Z.ltb_lt in E0; lia|].
           destruct (first (steps k) <=? si) eqn:E2; [|apply Z.leb_gt in E2; lia].
           destruct (si <? first (steps k) + Z.of_nat (length (elems (steps k))) - 1)
             eqn:E3; [|apply Z.ltb_ge in E3; lia].
           simpl in Ht. inversion Ht. f_equal; lia.
Qed.

Lemma windows_sound `{LA : Lapack} (ops : list Session.op) :
  forall (k k' : kalman_t) (w w' : Z * Z),
    indexed k ->
    (elems (steps k) = [] /\ first (steps k) = 0 /\ w = (-1, -1)) \/
    (elems (steps k) <> [] /\ 0 <= first (steps k) /\
     w = (farray_first_index (steps k), farray_last_index (steps k))) ->
    Session.windows w ops = Some w' ->
    run (Session.session ops) k = Ok k' ->
    indexed k' /\
    ((elems (steps k') = [] /\ first (steps k') = 0 /\ w' = (-1, -1)) \/
     (elems (steps k') <> [] /\ 0 <= first (steps k') /\
      w' = (farray_first_index (steps k'), farray_last_index (steps k')))).
Proof.
  induction ops as [|o ops IH]; intros k k' w w' Hi Hw Hws Hrun.
  - simpl in *. inversion Hws; subst w'. inversion Hrun; subst k'. auto.
  - simpl in Hws. destruct (Session.track w o) as [w1|] eqn:Et; [|discriminate].
    unfold Session.session in Hrun. simpl in Hrun. rewrite run_app in Hrun.
    obind Hrun. rename a into k1.
    destruct (track_sound o k k1 w w1 Hi Hw Et E) as (Hi1 & Hw1).
    exact (IH k1 k' w1 w' Hi1 Hw1 Hws Hrun).
Qed.

(** X12: along a session made of filter steps (an evolve with its observe),
    steps observed again after a rollback to a step of the window, smoothing
    and forgetting, the log stays numbered in sequence (its j-th entry is a
    live step whose number is earliest + j), and [kalman_earliest] and
    [kalman_latest] follow a simple rule: a filter step moves latest up by
    one, a rollback to s followed by observe makes latest s, forgetting with
    earliest <= s < latest makes earliest s + 1 (a negative s makes it
    latest), and nothing else moves the window. *)
Theorem session_window `{LA : Lapack} (ops : list Session.op) (k : kalman_t)
  (w : Z * Z) :
  Session.windows (-1, -1) ops = Some w ->
  run (Session.session ops) kalman_create = Ok k ->
  indexed k /\ kalman_earliest k = Ok w.1 /\ kalman_latest k = Ok w.2.
Proof.
  intros Hws Hrun.
  destruct (windows_sound ops kalman_create k (-1, -1) w) as (Hi & Hw).
  - intros j p Hj. simpl in Hj. discriminate.
  - left. auto.
  - exact Hws.
  - exact Hrun.
  - split; [exact Hi|].
    destruct Hw as [(He & _ & ->)|(Hne & _ & ->)]; simpl.
    + split; [now apply kalman_earliest_empty|now apply kalman_latest_empty].
    + split; [now apply kalman_earliest_indexed|now apply kalman_latest_indexed].
Qed.

(** ** [kalman_rollback] does not return the step to its state after [kalman_evolve] *)

Lemma rolled_back_fields (s s' : step_t) :
  rolled_back s = Ok s' ->
  matrix_free (Rdiag s) = Ok (Rdiag s') /\
  matrix_free (Rsupdiag s) = Ok (Rsupdiag s') /\
  matrix_free (y s) = Ok (y s') /\
  matrix_free (state s) = Ok (state s') /\
  matrix_free (covariance s) = Ok (covariance s').
Proof.
  unfold rolled_back. intros H. obind H. obind H. obind H. obind H. obind H.
  inversion H; subst s'; clear H. simpl. auto.
Qed.

Lemma matrix_free_live (c c' : slot) :
  matrix_free c = Ok c' -> is_live c = true -> c' = Freed.
Proof. destruct c; simpl; intros H Hl; try discriminate. now inversion H. Qed.

(** C3: [kalman_rollback] to a step [si] of the window releases the blocks
    [Rdiag], [Rsupdiag], [y], [state] and [covariance] of the step and
    leaves the released pointers in it: a field that held a block dangles
    afterwards, where the step had NULL after its [kalman_evolve].  The
    step keeps its number, dimension, [Rbar] and [ybar] and becomes the
    current step, and the log keeps the steps before [si].  When the step
    had an [Rsupdiag] (it was not the latest step), any [kalman_observe]
    that follows and returns gives a filter whose log is numbered in
    sequence and whose window is earliest..[si]; there, [kalman_rollback]
    to [si], a step of the window, releases [Rsupdiag] a second time and
    does not return. *)
Theorem rollback_keeps_released_pointers `{LA : Lapack} (k k1 : kalman_t)
  (si : Z) (s : step_t) :
  indexed k ->
  farray_first_index (steps k) <= si <= farray_last_index (steps k) ->
  step_at k si = Some s ->
  kalman_rollback k si = Ok k1 ->
  (exists p s1,
     current k1 = Some p /\ heap k1 !! p = Some (Some s1) /\
     step s1 = si /\ dimension s1 = dimension s /\
     Rbar s1 = Rbar s /\ ybar s1 = ybar s /\
     (is_live (Rdiag s) = true -> Rdiag s1 = Freed) /\
     (is_live (Rsupdiag s) = true -> Rsupdiag s1 = Freed) /\
     (is_live (y s) = true -> y s1 = Freed) /\
     (is_live (state s) = true -> state s1 = Freed) /\
     (is_live (covariance s) = true -> covariance s1 = Freed)) /\
  first (steps k1) = first (steps k) /\
  elems (steps k1) = take (Z.to_nat (si - first (steps k))) (elems (steps k)) /\
  forall (G_i o_i C_i : option matrix_t) (C_type : ascii) (k2 : kalman_t),
    is_live (Rsupdiag s) = true ->
    kalman_observe k1 G_i o_i C_i C_type = Ok k2 ->
    indexed k2 /\
    kalman_earliest k2 = Ok (farray_first_index (steps k)) /\
    kalman_latest k2 = Ok si /\
    kalman_rollback k2 si = Fault DanglingPointer.
Proof.
  intros Hi Hr Hat Hrb.
  destruct (rollback_result k si Hi Hr) as (p & s0 & Hp & Hs0 & Hst & Heq).
  assert (s0 = s) as ->.
  { assert (Hat' : step_at k si = Some s0).
    { replace si with (first (steps k) + Z.of_nat (Z.to_nat (si - first (steps k))))
        by (unfold farray_first_index in Hr; lia).
      eapply step_at_lookup; eauto. }
    congruence. }
  pose proof Hrb as Hrb0.
  rewrite Heq in Hrb. obind Hrb. rename a into s'. inversion Hrb; subst k1; clear Hrb.
  destruct (rolled_back_inv _ _ E) as (E1 & E2 & E3 & E4 & _).
  destruct (rolled_back_fields _ _ E) as (F1 & F2 & F3 & F4 & F5).
  assert (Hp' : store p s' (heap k) !! p = Some (Some s'))
    by (eapply store_lookup_eq; eauto).
  split.
  { exists p, s'. simpl. split; [reflexivity|]. split; [exact Hp'|].
    split; [congruence|]. split; [exact E2|]. split; [exact E3|]. split; [exact E4|].
    repeat split; intros Hl; eapply matrix_free_live; eauto. }
  split; [reflexivity|]. split; [reflexivity|].
  intros G_i o_i C_i C_type k2 Hlive Hobs.
  destruct (reobserve_frame k _ k2 si G_i o_i C_i C_type Hi Hr Hrb0 Hobs)
    as (Hi2 & Hf2 & Hlen2).
  assert (Hne2 : elems (steps k2) <> []).
  { intros X. rewrite X in Hlen2. discriminate. }
  unfold farray_first_index, farray_last_index, farray_size in Hr.
  split; [exact Hi2|].
  split; [rewrite (kalman_earliest_indexed _ Hi2 Hne2); unfold farray_first_index; congruence|].
  split.
  { rewrite (kalman_latest_indexed _ Hi2 Hne2).
    unfold farray_last_index, farray_size. rewrite Hf2, Hlen2. f_equal. lia. }
  pose proof (matrix_free_live _ _ F2 Hlive) as HR.
  destruct (kalman_observe_cases _ _ _ _ _ _ Hobs)
    as (p0 & cur & cur' & Hc & Hcur & -> & S1 & _ & S3 & _).
  simpl in Hc. inversion Hc; subst p0. simpl in Hcur.
  rewrite Hp' in Hcur. inversion Hcur; subst cur. clear Hcur.
  set (n := Z.to_nat (si - first (steps k))) in *.
  assert (Hn : (n < length (elems (steps k)))%nat) by (eapply lookup_lt_Some; eauto).
  assert (Hcell : store p cur' (store p s' (heap k)) !! p = Some (Some cur'))
    by (eapply store_lookup_eq; eauto).
  assert (HR2 : Rsupdiag cur' = Freed) by congruence.
  unfold kalman_rollback, farray_append, farray_first_index, farray_last_index,
    farray_size. simpl. rewrite length_app, length_take. simpl.
  destruct (Z.of_nat _ =? 0) eqn:Z0; [apply Z.eqb_eq in Z0; lia|].
  destruct (_ <? si) eqn:Z1; [apply Z.ltb_lt in Z1; lia|].
  destruct (si <? _) eqn:Z2; [apply Z.ltb_lt in Z2; lia|].
  rewrite farray_drop_last_snoc. simpl.
  rewrite (load_lookup _ _ _ Hcell). simpl.
  rewrite S1, E1, Hst, Z.eqb_refl.
  pose proof (rolled_back_fault _ HR2) as Hf. unfold rolled_back in Hf.
  destruct (matrix_free (Rdiag cur')) as [c1|f] eqn:G1; simpl in *;
    [|now inversion Hf].
  rewrite HR2 in *. simpl. reflexivity.
Qed.

(** Three steps, a rollback to step 1 and its observation: step 1 is in the
    window 0..1 of the filter, and a rollback to it does not return. *)
Lemma rollback_keeps_released_pointers_witness :
  kalman_rollback Runs.three 1 = Ok Runs.reopened /\
  kalman_observe (LA := upper_lapack) Runs.reopened None None None "w" = Ok Runs.resealed /\
  kalman_earliest Runs.resealed = Ok 0 /\
  kalman_latest Runs.resealed = Ok 1 /\
  kalman_rollback Runs.resealed 1 = Fault DanglingPointer.
Proof.
  assert (H1 : kalman_rollback Runs.three 1 = Ok Runs.reopened)
    by (vm_compute; reflexivity).
  assert (H2 : kalman_observe (LA := upper_lapack) Runs.reopened None None None "w"
               = Ok Runs.resealed) by (vm_compute; reflexivity).
  split; [exact H1|]. split; [exact H2|].
  assert (Hi : indexed Runs.three) by (apply indexedb_sound; vm_compute; reflexivity).
  destruct (rollback_keeps_released_pointers (LA := upper_lapack)
              Runs.three Runs.reopened 1 (step_of Runs.three 1) Hi)
    as (_ & _ & _ & H).
  - vm_compute. split; discriminate.
  - vm_compute. reflexivity.
  - exact H1.
  - destruct (H None None None "w"%char Runs.resealed) as (_ & He & Hl & Hf).
    + vm_compute. reflexivity.
    + exact H2.
    + split; [exact He|]. split; [exact Hl|exact Hf].
Defined.

(** ** Smoothing and the latest step *)

Lemma set_state_same (s : step_t) : set_state (state s) s = s.
Proof. destruct s; reflexivity. Qed.

(** X13: smoothing does not change the latest step when its state is the
    filtered estimate that [kalman_observe] computed (the triangular solve
    of its [Rdiag] against its [y]): after [kalman_smooth] the log holds the
    very same step under the latest index, so [kalman_estimate] and
    [kalman_covariance] return for it what they returned before. *)
Theorem smooth_keeps_latest_step `{LA : Lapack} (k : kalman_t) (s : step_t)
  (Rd yv : matrix_t) :
  indexed k -> elems (steps k) <> [] ->
  (forall si s, step_at k si = Some s ->
                smoothable (si =? farray_last_index (steps k)) s) ->
  step_at k (farray_last_index (steps k)) = Some s ->
  Rdiag s = Live Rd -> y s = Live yv ->
  state s = Live (matrix_create_trisolve Rd yv) ->
  exists k',
    kalman_smooth k = Ok k' /\
    step_at k' (farray_last_index (steps k')) = Some s /\
    kalman_estimate k' (-1) = kalman_estimate k (-1) /\
    kalman_covariance k' (-1) = kalman_covariance k (-1).
Proof.
  intros Hi Hne Hsm Hat HRd Hy Hst.
  destruct (smooth_spec k Hi Hne) as (k' & Heq & Hsteps & Hcur & Hlen & Hfr & Hrel).
  { intros j p s0 Hp Hs. pose proof (lookup_lt_Some _ _ _ Hp) as Hj.
    rewrite <- (smoothable_last_eqb k j Hj). apply Hsm. eapply step_at_lookup; eauto. }
  exists k'. split; [exact Heq|].
  destruct (step_at_inv _ _ _ Hat) as (j & p & Hj & Hp & Hs).
  pose proof (lookup_lt_Some _ _ _ Hp) as Hjl.
  unfold farray_last_index, farray_size in Hj.
  destruct (Hrel j p s Hp Hs) as (Rd' & yv' & next & c & HRd' & Hy' & Hh' & Hnext & Hc).
  rewrite HRd in HRd'. inversion HRd'; subst Rd'. rewrite Hy in Hy'. inversion Hy'; subst yv'.
  unfold next_of in Hnext. rewrite lookup_ge_None_2 in Hnext by lia. subst next.
  unfold cov_of in Hc. rewrite lookup_ge_None_2 in Hc by lia. subst c.
  assert (Hsame : smoothed_state s Rd yv None = matrix_create_trisolve Rd yv).
  { unfold smoothed_state, state_buffer. rewrite Hst.
    unfold matrix_mutate_copy, matrix_create_trisolve, matrix_mutate_trisolve.
    rewrite (in_place_same_dims (in_place yv (dtrtrs Rd yv)) yv eq_refl eq_refl).
    reflexivity. }
  rewrite Hsame, <- Hst, set_state_same, set_covariance_same in Hh'.
  assert (Hat' : step_at k' (farray_last_index (steps k')) = Some s).
  { rewrite Hsteps. unfold farray_last_index, farray_size.
    replace (first (steps k) + Z.of_nat (length (elems (steps k))) - 1)
      with (first (steps k') + Z.of_nat j) by (rewrite Hsteps; lia).
    apply (step_at_lookup k' j p s); [now rewrite Hsteps|exact Hh']. }
  split; [exact Hat'|].
  assert (Hg : farray_get (steps k) (farray_last_index (steps k)) = Ok p).
  { unfold farray_last_index, farray_size.
    replace (first (steps k) + Z.of_nat (length (elems (steps k))) - 1)
      with (first (steps k) + Z.of_nat j) by lia.
    now apply farray_get_lookup. }
  unfold kalman_estimate, kalman_covariance. rewrite Hsteps.
  destruct (farray_size (steps k) =? 0); [auto|]. simpl.
  rewrite Hg. simpl. rewrite (load_lookup _ _ _ Hs), (load_lookup _ _ _ Hh'). auto.
Qed.

(** ** What the associative smoother writes *)

Lemma for_range_each {T : Type} (R : Z -> T -> T -> Prop)
  (body : list T -> Z -> outcome (list T)) :
  (forall s j s', body s j = Ok s' ->
     0 <= j ->
     length s' = length s /\ (forall i, i <> Z.to_nat j -> s' !! i = s !! i) /\
     exists x0 x, s !! Z.to_nat j = Some x0 /\ s' !! Z.to_nat j = Some x /\ R j x0 x) ->
  forall n j s s',
    0 <= j ->
    Associative.for_range body n j s = Ok s' ->
    length s' = length s /\
    (forall i, (i < Z.to_nat j \/ Z.to_nat j + n <= i)%nat -> s' !! i = s !! i) /\
    forall i, j <= i < j + Z.of_nat n ->
      exists x0 x, s !! Z.to_nat i = Some x0 /\ s' !! Z.to_nat i = Some x /\ R i x0 x.
Proof.
  intros Hb. induction n as [|n IH]; intros j s s' Hj H; simpl in H.
  - inversion H; subst. split; [reflexivity|]. split; [reflexivity|]. intros i Hi. lia.
  - obind H. destruct (Hb _ _ _ E Hj) as (Hlen & Hfr & x0 & x & Hx0 & Hx & HR).
    apply IH in H; [|lia]. destruct H as (Hlen' & Hfr' & Heach).
    split; [congruence|]. split.
    + intros i Hi. rewrite Hfr' by lia. apply Hfr. lia.
    + intros i Hi. destruct (decide (i = j)) as [->|Hne].
      * exists x0, x. split; [exact Hx0|]. split; [|exact HR].
        rewrite Hfr' by lia. exact Hx.
      * destruct (Heach i ltac:(lia)) as (y0 & y & Hy0 & Hy & HRy).
        exists y0, y. split; [|auto]. rewrite <- Hfr by lia. exact Hy0.
Qed.

Lemma put_lookup_eq {T : Type} (a : list T) (i : Z) (x x0 : T) :
  a !! Z.to_nat i = Some x0 -> Associative.put a i x !! Z.to_nat i = Some x.
Proof.
  intros H. unfold Associative.put. apply list_lookup_insert_eq.
  eapply lookup_lt_Some; eauto.
Qed.

Lemma put_lookup_ne {T : Type} (a : list T) (i : Z) (x : T) (j : nat) :
  j <> Z.to_nat i -> Associative.put a i x !! j = a !! j.
Proof. intros H. unfold Associative.put. apply list_lookup_insert_ne. congruence. Qed.

Lemma length_put {T : Type} (a : list T) (i : Z) (x : T) :
  length (Associative.put a i x) = length a.
Proof. apply length_insert. Qed.

(** What [smoothed_to_state_new] does to the array of step equations. *)
Lemma smoothed_to_state_inv `{DK : Dense} (equations result : list Associative.equations_t)
  (smoothed : list (option Associative.step_t)) (l : Z) (n : nat) :
  Associative.for_range
    (fun equations j =>
       equation ← Associative.get equations j;
       smoothed_i ← Associative.get smoothed (l - 2 - j + 1);
       smoothed_i ← nonnull smoothed_i;
       Ok (Associative.put equations j
             (StepEquations.set_estimate
                (matrix_create_copy (Associative.g smoothed_i))
                (matrix_create_copy (Associative.L smoothed_i)) "C" equation)))
    n 0 equations = Ok result ->
  length result = length equations /\
  (forall i, (n <= i)%nat -> result !! i = equations !! i) /\
  forall i, 0 <= i < Z.of_nat n ->
    exists q0 s,
      equations !! Z.to_nat i = Some q0 /\
      Associative.get smoothed (l - 1 - i) = Ok (Some s) /\
      result !! Z.to_nat i
      = Some (StepEquations.set_estimate (matrix_create_copy (Associative.g s))
                (matrix_create_copy (Associative.L s)) "C" q0).
Proof.
  intros H.
  apply (for_range_each
           (fun j q0 q => exists s,
              Associative.get smoothed (l - 1 - j) = Ok (Some s) /\
              q = StepEquations.set_estimate (matrix_create_copy (Associative.g s))
                    (matrix_create_copy (Associative.L s)) "C" q0)) in H.
  - destruct H as (Hlen & Hfr & Heach). split; [exact Hlen|]. split.
    + intros i Hi. apply Hfr. simpl. lia.
    + intros i Hi. destruct (Heach i ltac:(lia)) as (q0 & q & H0 & H1 & s & Hs & ->).
      exists q0, s. auto.
  - clear. intros s j s' Hb Hj. obind Hb. obind Hb. obind Hb.
    inversion Hb; subst s'; clear Hb.
    apply get_inv in E. destruct E as [_ E].
    destruct a0 as [sm|]; [|discriminate]. inversion E1; subst a1; clear E1.
    split; [apply length_put|]. split; [intros i Hi; now apply put_lookup_ne|].
    eexists a, _. split; [exact E|]. split; [eapply put_lookup_eq; eauto|].
    exists sm. split; [|reflexivity].
    replace (l - 1 - j) with (l - 2 - j + 1) by lia. exact E0.
  - lia.
Qed.

(** X14: the associative smoother needs at least two steps, all of them in
    the array it is given: a call that returns has 2 <= l <= the number of
    equations, and it returns the array with as many equations.  With one
    step, or none, the code reads [filtered[l-2]] before the array. *)
Theorem associative_needs_two_steps `{DK : Dense}
  (equations result : list StepEquations.kalman_step_equations_t) (l : Z) :
  Associative.kalman_smooth_associative equations l = Ok result ->
  2 <= l <= Z.of_nat (length equations) /\ length result = length equations.
Proof.
  unfold Associative.kalman_smooth_associative. intros H.
  obind H. obind H. obind H. obind H. rename a2 into last_equation.
  obind H. obind H. obind H. obind H.
  apply get_inv in E2. destruct E2 as [_ E2]. apply lookup_lt_Some in E2.
  apply get_inv in E3. destruct E3 as [E3 _].
  unfold Associative.smoothed_to_state_new in H.
  apply smoothed_to_state_inv in H. destruct H as (Hlen & _).
  rewrite length_put in Hlen. split; [lia|exact Hlen].
Qed.

(** X15: the associative smoother updates the array of step equations in
    place and writes estimates only: every equation keeps its step number,
    its dimension and its inputs [H], [F], [c], [K], [G], [o], [C] with
    their types; the equations of index [l] and more are untouched; each of
    the [l] first ones gets the covariance type 'C'. *)
Theorem associative_writes_only_estimates `{DK : Dense}
  (equations result : list StepEquations.kalman_step_equations_t) (l : Z) :
  Associative.kalman_smooth_associative equations l = Ok result ->
  forall (j : nat) (q0 : StepEquations.kalman_step_equations_t),
    equations !! j = Some q0 ->
    exists q,
      result !! j = Some q /\
      StepEquations.step q = StepEquations.step q0 /\
      StepEquations.dimension q = StepEquations.dimension q0 /\
      StepEquations.H q = StepEquations.H q0 /\
      StepEquations.F q = StepEquations.F q0 /\
      StepEquations.c q = StepEquations.c q0 /\
      StepEquations.K q = StepEquations.K q0 /\
      StepEquations.K_type q = StepEquations.K_type q0 /\
      StepEquations.G q = StepEquations.G q0 /\
      StepEquations.o q = StepEquations.o q0 /\
      StepEquations.C q = StepEquations.C q0 /\
      StepEquations.C_type q = StepEquations.C_type q0 /\
      (l <= Z.of_nat j -> q = q0) /\
      (Z.of_nat j < l -> StepEquations.covariance_type q = "C"%char).
Proof.
  unfold Associative.kalman_smooth_associative. intros H j q0 Hq0.
  obind H. obind H. obind H. obind H. rename a2 into last_equation.
  obind H. obind H. obind H. obind H.
  apply get_inv in E2. destruct E2 as [Hl1 E2].
  apply get_inv in E3. destruct E3 as [Hl2 _].
  unfold Associative.smoothed_to_state_new in H.
  apply smoothed_to_state_inv in H. destruct H as (Hlen & Hout & Hin).
  replace (l - 1 - 0) with (l - 1) in * by lia.
  pose proof (lookup_lt_Some _ _ _ E2) as Hlt.
  destruct (decide (Z.of_nat j < l - 1)) as [Hj|Hj].
  - destruct (Hin (Z.of_nat j) ltac:(lia)) as (q1 & s & H1 & _ & H2).
    rewrite Nat2Z.id in H1, H2.
    rewrite put_lookup_ne in H1 by lia. rewrite Hq0 in H1. inversion H1; subst q1.
    eexists. split; [exact H2|]. simpl. repeat (split; [reflexivity|]).
    split; [intros; exfalso; lia|reflexivity].
  - rewrite Hout by lia.
    destruct (decide (Z.of_nat j = l - 1)) as [Hj1|Hj1].
    + replace j with (Z.to_nat (l - 1)) in * by lia.
      rewrite Hq0 in E2. inversion E2; subst last_equation.
      eexists. split; [eapply put_lookup_eq; eauto|]. simpl.
      repeat (split; [reflexivity|]). split; [intros; exfalso; lia|reflexivity].
    + rewrite put_lookup_ne by lia. exists q0. split; [exact Hq0|].
      repeat (split; [reflexivity|]). intros; exfalso; lia.
Qed.

(** ** Where the backward scan of the associative smoother goes *)

Lemma scan_from_first
  (f : option Associative.step_t -> option Associative.step_t ->
       outcome (option Associative.step_t))
  (input : list Associative.step_t) (x : Associative.step_t)
  (sums : list (option Associative.step_t)) :
  f None (Some x) = Ok (Some x) ->
  last input = Some x ->
  Associative.scan_from f None (rev input) = Ok sums ->
  sums !! 0%nat = Some (Some x).
Proof.
  intros Hf Hl H. apply last_Some in Hl. destruct Hl as [l' ->].
  rewrite rev_unit in H. simpl in H. rewrite Hf in H. simpl in H.
  obind H. inversion H; subst. reflexivity.
Qed.

(** X16: in a call of the associative smoother that returns, the equation
    of index [j < l-1] gets the fields [g] and [L] of element [l-1-j] of
    the backward scan.  Element 0 of that scan, which goes to no equation,
    is the last smoothing element: its [g] and [L] are the state [b] and
    the covariance [Z] of the last filtered element. *)
Theorem associative_scan_to_estimates `{DK : Dense}
  (equations result : list StepEquations.kalman_step_equations_t) (l : Z) :
  Associative.kalman_smooth_associative equations l = Ok result ->
  exists filtered smoothed f s0,
    filtered_elements equations l = Ok filtered /\
    smoothed_elements equations l = Ok smoothed /\
    Associative.get filtered (l - 2) = Ok (Some f) /\
    Associative.get smoothed 0 = Ok (Some s0) /\
    Associative.g s0 = Associative.b f /\
    Associative.L s0 = Associative.Z_ f /\
    forall j, 0 <= j < l - 1 ->
      exists s q0,
        equations !! Z.to_nat j = Some q0 /\
        Associative.get smoothed (l - 1 - j) = Ok (Some s) /\
        result !! Z.to_nat j
        = Some (StepEquations.set_estimate (Associative.g s) (Associative.L s) "C" q0).
Proof.
  intros H.
  unfold Associative.kalman_smooth_associative in H.
  obind H. rename a into elements0. obind H. rename a into filtered.
  obind H. rename a into elements1. obind H. rename a into last_equation.
  obind H. obind H. rename a0 into f. destruct a as [f'|]; [|discriminate].
  inversion E4; subst f'; clear E4.
  pose proof (proj1 (get_inv _ _ _ E3)) as Hl.
  obind H. rename a into elements2. obind H. rename a into smoothed.
  match goal with
  | E : Associative.build_smoothing_elements_new _ _ _ _ = _ |- _ => rename E into Ebs
  end.
  match goal with
  | E : Associative.prefix_sums_pointers Associative.smoothingAssociativeOperation _ _ _ = _ |- _ =>
      rename E into Escan
  end.
  assert (Hfe : filtered_elements equations l = Ok filtered).
  { unfold filtered_elements. rewrite E. simpl. exact E0. }
  assert (Hse : smoothed_elements equations l = Ok smoothed).
  { unfold smoothed_elements. rewrite E. simpl. rewrite E0. simpl. rewrite E1. simpl.
    rewrite Ebs. simpl. exact Escan. }
  exists filtered, smoothed, f.
  (* the lengths of the arrays of elements *)
  assert (Hlen0 : length elements0 = Z.to_nat l).
  { unfold Associative.build_filtering_elements_new in E.
    apply (for_range_invariant (fun s => length s = Z.to_nat l)) in E; [exact E| |].
    - clear. intros s j s' Hs Hb. unfold Associative.build_filtering_element_new in Hb.
      obind Hb. obind Hb.
      destruct (j =? 0); [inversion Hb; subst; now rewrite length_put|].
      obind Hb. rename a1 into elements1.
      assert (H2 : length elements1 = Z.to_nat l).
      { destruct (j =? 1); [|inversion E1; subst; now rewrite length_put].
        obind E1. destruct (matrix_create_mutate_qr' _) as [R Q]. obind E1.
        inversion E1; subst. now rewrite !length_put. }
      obind Hb. obind Hb. obind Hb. inversion Hb; subst. now rewrite length_put.
    - unfold Associative.elements_init. now rewrite length_map, length_seq. }
  (* the last element after [filtered_to_state_new] *)
  unfold Associative.filtered_to_state_new in E1.
  apply (for_range_each
           (fun j x0 x => exists fi,
              Associative.get filtered (j - 1) = Ok (Some fi) /\
              Associative.state x = Associative.b fi /\
              Associative.covariance x = Associative.Z_ fi)) in E1; [| |lia].
  2:{ clear. intros s j s' Hb Hj. obind Hb. obind Hb. obind Hb.
      inversion Hb; subst s'; clear Hb.
      apply get_inv in E. destruct E as [_ E].
      destruct a0 as [fi|]; [|discriminate]. inversion E1; subst a1; clear E1.
      split; [apply length_put|]. split; [intros i Hi; now apply put_lookup_ne|].
      eexists a, _. split; [exact E|]. split; [eapply put_lookup_eq; eauto|].
      exists fi. split; [exact E0|]. split; reflexivity. }
  destruct E1 as (Hlen1 & _ & Heach1).
  destruct (Heach1 (l - 1) ltac:(lia)) as (x0 & x1 & _ & Hx1 & fi & Hfi & Hst & Hcov).
  replace (l - 1 - 1) with (l - 2) in Hfi by lia.
  rewrite E3 in Hfi. inversion Hfi; subst fi; clear Hfi.
  (* the last element after [build_smoothing_elements_new] *)
  unfold Associative.build_smoothing_elements_new in Ebs.
  apply (for_range_each
           (fun j x0 x =>
              j = l - 1 ->
              Associative.g x = Associative.state x0 /\
              Associative.L x = Associative.covariance x0)) in Ebs; [| |lia].
  2:{ clear. intros s j s' Hb Hj. unfold Associative.build_smoothing_element_new in Hb.
      obind Hb. apply get_inv in E. destruct E as [_ E].
      destruct (j =? l - 1) eqn:Ej.
      - inversion Hb; subst s'; clear Hb.
        split; [apply length_put|]. split; [intros i Hi; now apply put_lookup_ne|].
        eexists a, _. split; [exact E|]. split; [eapply put_lookup_eq; eauto|].
        intros _. split; reflexivity.
      - obind Hb. inversion Hb; subst s'; clear Hb.
        split; [apply length_put|]. split; [intros i Hi; now apply put_lookup_ne|].
        eexists a, _. split; [exact E|]. split; [eapply put_lookup_eq; eauto|].
        intros ->. rewrite Z.eqb_refl in Ej. discriminate. }
  destruct Ebs as (Hlen2 & _ & Heach2).
  destruct (Heach2 (l - 1) ltac:(lia)) as (y0 & s0 & Hy0 & Hs0 & HR).
  rewrite Hx1 in Hy0. inversion Hy0; subst y0; clear Hy0.
  destruct (HR eq_refl) as [Hg HL].
  exists s0.
  split; [exact Hfe|]. split; [exact Hse|]. split; [exact E3|].
  (* the first sum of the backward scan *)
  assert (Hfirst : smoothed !! 0%nat = Some (Some s0)).
  { unfold Associative.prefix_sums_pointers in Escan. simpl in Escan.
    apply (scan_from_first _ _ s0) in Escan; [exact Escan|reflexivity|].
    rewrite firstn_all2 by lia. rewrite last_lookup.
    replace (Init.Nat.pred (length elements2)) with (Z.to_nat (l - 1)) by lia.
    exact Hs0. }
  split; [apply get_lookup; [lia|exact Hfirst]|].
  split; [congruence|]. split; [congruence|].
  unfold Associative.smoothed_to_state_new in H.
  apply smoothed_to_state_inv in H. destruct H as (_ & _ & Heach).
  intros j Hj. destruct (Heach j ltac:(lia)) as (q0 & s & Hq0 & Hs & Hr).
  exists s, q0. split; [|split; [exact Hs|exact Hr]].
  rewrite put_lookup_ne in Hq0 by lia. exact Hq0.
Qed.

(** ** The MATLAB filter: the window of steps in memory *)

Lemma cell_inv {T : Type} (c : list T) (i : Z) (x : T) :
  Matlab.cell c i = Ok x -> 1 <= i <= Z.of_nat (length c) /\ c !! Z.to_nat (i - 1) = Some x.
Proof.
  unfold Matlab.cell. destruct (i <? 1) eqn:E; [discriminate|]. apply Z.ltb_ge in E.
  destruct (c !! Z.to_nat (i - 1)) eqn:El; intros H; inversion H; subst.
  apply lookup_lt_Some in El as Hlt. split; [lia|reflexivity].
Qed.

Lemma cell_lookup {T : Type} (c : list T) (i : Z) (x : T) :
  1 <= i -> c !! Z.to_nat (i - 1) = Some x -> Matlab.cell c i = Ok x.
Proof.
  intros Hi H. unfold Matlab.cell. destruct (i <? 1) eqn:E; [apply Z.ltb_lt in E; lia|].
  now rewrite H.
Qed.

Lemma cell_fault {T : Type} (c : list T) (i : Z) :
  i < 1 \/ Z.of_nat (length c) < i -> exists f, Matlab.cell c i = Fault f.
Proof.
  intros H. unfold Matlab.cell. destruct (i <? 1) eqn:E; [eauto|]. apply Z.ltb_ge in E.
  rewrite lookup_ge_None_2 by lia. eauto.
Qed.

Lemma cells_to_end {T : Type} (c : list T) (a : Z) :
  1 <= a ->
  Matlab.cells c a (Z.of_nat (length c)) = Ok (drop (Z.to_nat (a - 1)) c).
Proof.
  intros Ha. unfold Matlab.cells.
  destruct (Z.of_nat (length c) <? a) eqn:E.
  - apply Z.ltb_lt in E. rewrite drop_ge by lia. reflexivity.
  - apply Z.ltb_ge in E.
    replace (a <? 1) with false by (symmetry; apply Z.ltb_ge; lia).
    rewrite Z.ltb_irrefl. simpl. rewrite take_ge; [reflexivity|].
    rewrite length_drop. lia.
Qed.

Lemma cells_from_start {T : Type} (c : list T) (b : Z) :
  b <= Z.of_nat (length c) ->
  Matlab.cells c 1 b = Ok (take (Z.to_nat b) c).
Proof.
  intros Hb. unfold Matlab.cells.
  destruct (b <? 1) eqn:E.
  - apply Z.ltb_lt in E. replace (Z.to_nat b) with 0%nat by lia. reflexivity.
  - apply Z.ltb_ge in E. simpl.
    replace (Z.of_nat (length c) <? b) with false by (symmetry; apply Z.ltb_ge; lia).
    simpl. f_equal. f_equal. lia.
Qed.

Lemma earliest_first (k : Matlab.kalman_t) (s0 : Matlab.step_t) :
  Matlab.steps k !! 0%nat = Some s0 -> Matlab.earliest k = Ok (Matlab.step s0).
Proof.
  unfold Matlab.earliest. destruct (Matlab.steps k) as [|x c]; [discriminate|].
  simpl. intros H. inversion H; subst. reflexivity.
Qed.

Lemma latest_last (k : Matlab.kalman_t) (s : Matlab.step_t) :
  last (Matlab.steps k) = Some s -> Matlab.latest k = Ok (Matlab.step s).
Proof.
  unfold Matlab.latest. intros H. destruct (Matlab.steps k) as [|x c] eqn:E; [discriminate|].
  rewrite last_lookup in H.
  erewrite cell_lookup; [reflexivity| |].
  - simpl. lia.
  - replace (Z.to_nat (Z.of_nat (length (x :: c)) - 1)) with (Init.Nat.pred (length (x :: c))) by lia.
    exact H.
Qed.

Lemma consecutive_drop (c : list Matlab.step_t) (n : nat) :
  Matlab.consecutive c -> Matlab.consecutive (drop n c).
Proof.
  intros Hc i s0 s H0 Hi. rewrite lookup_drop in H0, Hi.
  destruct (c !! 0%nat) as [f|] eqn:Ef.
  - pose proof (Hc _ _ _ Ef H0) as E0. pose proof (Hc _ _ _ Ef Hi) as E1. lia.
  - destruct c; [rewrite lookup_nil in H0|]; discriminate.
Qed.

Lemma consecutive_take (c : list Matlab.step_t) (n : nat) :
  Matlab.consecutive c -> Matlab.consecutive (take n c).
Proof.
  intros Hc i s0 s H0 Hi.
  apply lookup_take_Some in H0, Hi. destruct H0 as [H0 _], Hi as [Hi _]. eauto.
Qed.

(** X17: [forget(s)] of the MATLAB filter on steps with consecutive numbers,
    the earliest [e] and the latest [la].  For [e - 1 <= s < la] the steps
    after [s] stay: the earliest becomes [s + 1], the latest stays.  For
    [la <= s] no step stays, the filter reports -1 for both, and any later
    [forget] is an error.  For [s < e - 1] the call is an error, and without
    an argument only the latest step stays. *)
Theorem matlab_forget_window (kalman : Matlab.kalman_t) (e la : Z) :
  Matlab.consecutive (Matlab.steps kalman) ->
  Matlab.steps kalman <> [] ->
  Matlab.earliest kalman = Ok e ->
  Matlab.latest kalman = Ok la ->
  (forall s, s < e - 1 -> exists f, Matlab.forget kalman (Some s) = Fault f) /\
  (forall s, e - 1 <= s < la ->
     exists k',
       Matlab.forget kalman (Some s) = Ok k' /\
       Matlab.steps k' = drop (Z.to_nat (s - e + 1)) (Matlab.steps kalman) /\
       Matlab.current k' = Matlab.current kalman /\
       Matlab.consecutive (Matlab.steps k') /\
       Matlab.earliest k' = Ok (s + 1) /\
       Matlab.latest k' = Ok la) /\
  (forall s, la <= s ->
     exists k',
       Matlab.forget kalman (Some s) = Ok k' /\
       Matlab.steps k' = [] /\
       Matlab.current k' = Matlab.current kalman /\
       Matlab.earliest k' = Ok (-1) /\
       Matlab.latest k' = Ok (-1) /\
       forall s', exists f, Matlab.forget k' s' = Fault f) /\
  (exists k' st,
     Matlab.forget kalman None = Ok k' /\
     Matlab.steps k' = [st] /\
     last (Matlab.steps kalman) = Some st /\
     Matlab.earliest k' = Ok la /\
     Matlab.latest k' = Ok la).
Proof.
  intros Hc Hne He Hla.
  assert (Hlen : (0 < length (Matlab.steps kalman))%nat)
    by (destruct (Matlab.steps kalman); [congruence|simpl; lia]).
  clear Hne. destruct (lookup_lt_is_Some_2 _ _ Hlen) as [s0 H0].
  rewrite (earliest_first _ _ H0) in He. inversion He; subst e; clear He.
  assert (El : exists sl, last (Matlab.steps kalman) = Some sl).
  { rewrite last_lookup. apply lookup_lt_is_Some_2. lia. }
  destruct El as [sl El].
  rewrite (latest_last _ _ El) in Hla. inversion Hla; subst la; clear Hla.
  rewrite last_lookup in El.
  pose proof (Hc _ _ _ H0 El) as Hsl.
  assert (Hfirst : Matlab.cell (Matlab.steps kalman) 1 = Ok s0)
    by (apply cell_lookup; [lia|exact H0]).
  repeat split.
  - (* too old *)
    intros s Hs. unfold Matlab.forget. rewrite Hfirst. simpl.
    unfold Matlab.cells.
    destruct (_ <? _) eqn:E; [apply Z.ltb_lt in E; lia|].
    replace (s - Matlab.step s0 + 1 + 1 <? 1) with true by (symmetry; apply Z.ltb_lt; lia).
    simpl. eauto.
  - (* a step of the window *)
    intros s Hs. unfold Matlab.forget. rewrite Hfirst. simpl.
    rewrite cells_to_end by lia. simpl. eexists. split; [reflexivity|]. simpl.
    replace (Z.to_nat (s - Matlab.step s0 + 1 + 1 - 1))
      with (Z.to_nat (s - Matlab.step s0 + 1)) by lia.
    split; [reflexivity|]. split; [reflexivity|].
    split; [apply consecutive_drop; exact Hc|].
    set (m := Z.to_nat (s - Matlab.step s0 + 1)).
    assert (Hm : (m < length (Matlab.steps kalman))%nat) by (unfold m; lia).
    destruct (lookup_lt_is_Some_2 _ _ Hm) as [sm Hsm].
    pose proof (Hc _ _ _ H0 Hsm) as Hstep.
    split.
    + erewrite earliest_first.
      * f_equal. rewrite Hstep. unfold m. lia.
      * simpl. rewrite lookup_drop. rewrite Nat.add_0_r. exact Hsm.
    + apply latest_last. simpl. rewrite last_lookup, length_drop, lookup_drop.
      rewrite <- El. f_equal. lia.
  - (* the latest step, or a later one *)
    intros s Hs. unfold Matlab.forget. rewrite Hfirst. simpl.
    rewrite cells_to_end by lia. simpl. eexists. split; [reflexivity|]. simpl.
    rewrite drop_ge by lia.
    repeat split.
    intros s'. unfold Matlab.forget. simpl. eauto.
  - (* no argument *)
    unfold Matlab.forget. rewrite Hfirst. simpl.
    rewrite cells_to_end by lia. simpl.
    assert (Hd : drop (Z.to_nat (Z.of_nat (length (Matlab.steps kalman)) - 1 + 1 - 1))
                   (Matlab.steps kalman) = [sl]).
    { replace (Z.to_nat _) with (Init.Nat.pred (length (Matlab.steps kalman))) by lia.
      rewrite <- last_lookup in El. apply last_Some in El. destruct El as [l' El].
      rewrite El. rewrite length_app. simpl.
      replace (Init.Nat.pred (length l' + 1)) with (length l') by lia.
      now rewrite drop_app_length. }
    eexists _, sl. split; [reflexivity|]. simpl. rewrite Hd.
    split; [reflexivity|]. split; [now rewrite last_lookup|].
    split; reflexivity.
Qed.

(** X18: [rollback(s)] of the MATLAB filter on steps with consecutive
    numbers, the earliest [e] and the latest [la].  Outside [e..la] the call
    only warns and the filter is unchanged.  Inside, it needs the fields
    [Rbar] and [ybar] of step [s], which a step that was evolved without
    leftover rows, as the first one, does not have: then it is an error.
    With them the steps before [s] stay, the latest being [s - 1], and
    the current step is a new struct with the dimension, the number, [Rbar]
    and [ybar] of step [s] only; a rollback to the earliest step leaves no
    step, and the filter reports -1 for the earliest and the latest. *)
Theorem matlab_rollback_window (kalman : Matlab.kalman_t) (e la : Z) :
  Matlab.consecutive (Matlab.steps kalman) ->
  Matlab.steps kalman <> [] ->
  Matlab.earliest kalman = Ok e ->
  Matlab.latest kalman = Ok la ->
  (forall s, s < e \/ la < s -> Matlab.rollback kalman s = Ok kalman) /\
  (forall s, e <= s <= la ->
     exists st,
       Matlab.steps kalman !! Z.to_nat (s - e) = Some st /\
       Matlab.step st = s /\
       ((Matlab.Rbar st = None \/ Matlab.ybar st = None) ->
        exists f, Matlab.rollback kalman s = Fault f) /\
       (forall Rb yb, Matlab.Rbar st = Some Rb -> Matlab.ybar st = Some yb ->
          exists k',
            Matlab.rollback kalman s = Ok k' /\
            Matlab.steps k' = take (Z.to_nat (s - e)) (Matlab.steps kalman) /\
            Matlab.current k'
            = Some {| Matlab.dimension := Matlab.dimension st; Matlab.step := s;
                      Matlab.Rdiag := None; Matlab.Rsupdiag := None;
                      Matlab.y := None;
                      Matlab.Rbar := Some Rb; Matlab.ybar := Some yb;
                      Matlab.estimatedState := None;
                      Matlab.estimatedCovariance := None |} /\
            Matlab.consecutive (Matlab.steps k') /\
            Matlab.earliest k' = Ok (if s =? e then -1 else e) /\
            Matlab.latest k' = Ok (if s =? e then -1 else s - 1))).
Proof.
  intros Hc Hne He Hla.
  assert (Hlen : (0 < length (Matlab.steps kalman))%nat)
    by (destruct (Matlab.steps kalman); [congruence|simpl; lia]).
  clear Hne. destruct (lookup_lt_is_Some_2 _ _ Hlen) as [s0 H0].
  rewrite (earliest_first _ _ H0) in He. inversion He; subst e; clear He.
  assert (El : exists sl, last (Matlab.steps kalman) = Some sl).
  { rewrite last_lookup. apply lookup_lt_is_Some_2. lia. }
  destruct El as [sl El].
  rewrite (latest_last _ _ El) in Hla. inversion Hla; subst la; clear Hla.
  rewrite last_lookup in El.
  pose proof (Hc _ _ _ H0 El) as Hsl.
  assert (Hfirst : Matlab.cell (Matlab.steps kalman) 1 = Ok s0)
    by (apply cell_lookup; [lia|exact H0]).
  split.
  - intros s Hs. unfold Matlab.rollback. rewrite Hfirst. simpl.
    destruct (_ || _) eqn:E; [reflexivity|].
    apply orb_false_iff in E. destruct E as [E1 E2].
    apply Z.ltb_ge in E1, E2. lia.
  - intros s Hs.
    set (m := Z.to_nat (s - Matlab.step s0)).
    assert (Hm : (m < length (Matlab.steps kalman))%nat) by (unfold m; lia).
    destruct (lookup_lt_is_Some_2 _ _ Hm) as [st Hst].
    pose proof (Hc _ _ _ H0 Hst) as Hstep.
    assert (Hstep' : Matlab.step st = s) by (unfold m in Hstep; lia).
    exists st. split; [exact Hst|]. split; [exact Hstep'|].
    assert (Hrange : ((Z.of_nat (length (Matlab.steps kalman)) <? s - Matlab.step s0 + 1)
                      || (s - Matlab.step s0 + 1 <? 1)) = false).
    { apply orb_false_iff. split; apply Z.ltb_ge; lia. }
    assert (Hcell : Matlab.cell (Matlab.steps kalman) (s - Matlab.step s0 + 1) = Ok st).
    { apply cell_lookup; [lia|].
      replace (Z.to_nat (s - Matlab.step s0 + 1 - 1)) with m by (unfold m; lia).
      exact Hst. }
    split.
    + intros Hmiss. unfold Matlab.rollback. rewrite Hfirst. simpl.
      rewrite Hrange, Hcell. simpl.
      destruct (Matlab.Rbar st) as [Rb|]; simpl; [|eauto].
      destruct (Matlab.ybar st) as [yb|]; simpl; [|eauto].
      destruct Hmiss; discriminate.
    + intros Rb yb HRb Hyb. unfold Matlab.rollback. rewrite Hfirst. simpl.
      rewrite Hrange, Hcell. simpl. rewrite HRb, Hyb. simpl.
      rewrite cells_from_start by lia. simpl.
      eexists. split; [reflexivity|]. simpl.
      replace (Z.to_nat (s - Matlab.step s0 + 1 - 1)) with m by (unfold m; lia).
      split; [reflexivity|]. split; [now rewrite Hstep'|].
      split; [apply consecutive_take; exact Hc|].
      destruct (s =? Matlab.step s0) eqn:Es.
      * apply Z.eqb_eq in Es. replace m with 0%nat by (unfold m; lia).
        rewrite take_0. unfold Matlab.earliest, Matlab.latest. simpl.
        split; reflexivity.
      * apply Z.eqb_neq in Es. split.
        -- apply earliest_first. simpl. rewrite lookup_take_lt by (unfold m; lia). exact H0.
        -- assert (Hp : (Init.Nat.pred m < length (Matlab.steps kalman))%nat) by lia.
           destruct (lookup_lt_is_Some_2 _ _ Hp) as [sp Hsp].
           pose proof (Hc _ _ _ H0 Hsp) as Hstepp.
           erewrite latest_last.
           ++ f_equal. rewrite Hstepp. unfold m. lia.
           ++ simpl. rewrite last_lookup, length_take.
              replace (Init.Nat.pred (m `min` length (Matlab.steps kalman)))
                with (Init.Nat.pred m) by lia.
              rewrite lookup_take_lt by (unfold m; lia). exact Hsp.
Qed.

(** ** The MATLAB filter: observing without rows *)

Lemma matlab_evolve_current `{MO : MatlabOps}
  (kalman k1 : Matlab.kalman_t) (n_i : Z) (H_i F_i c_i : matrix_t)
  (K_i : CovarianceMatrix) :
  Matlab.evolve kalman n_i H_i F_i c_i K_i = Ok k1 ->
  exists cur,
    Matlab.current k1 = Some cur /\
    Matlab.dimension cur = n_i /\
    Matlab.Rdiag cur = None /\ Matlab.y cur = None /\
    Matlab.estimatedState cur = None /\ Matlab.estimatedCovariance cur = None /\
    match last (Matlab.steps kalman) with
    | None => Matlab.steps k1 = Matlab.steps kalman /\ Matlab.step cur = 0 /\
              Matlab.Rbar cur = None
    | Some imo =>
        Matlab.step cur = Matlab.step imo + 1 /\
        exists imo', Matlab.steps k1 = removelast (Matlab.steps kalman) ++ [imo'] /\
                     Matlab.step imo' = Matlab.step imo
    end.
Proof.
  unfold Matlab.evolve. intros H.
  destruct (last (Matlab.steps kalman)) as [imo|] eqn:El.
  - obind H. destruct a as [[A B] y0]. destruct (qr A) as [Q R].
    inversion H; subst k1; clear H. simpl.
    destruct (_ <? _); eexists; (split; [reflexivity|]); simpl;
      repeat (split; [reflexivity|]); eexists; split; reflexivity.
  - inversion H; subst k1; clear H. simpl. eexists. split; [reflexivity|]. simpl.
    repeat split.
Qed.

(** X19: a step that [evolve] leaves without the field [Rbar], as it does
    the first step, has no rows at all when [observe] is called without
    observations: [observe] then reads the field [Rdiag], which nothing has
    set, and the call is an error. *)
Theorem matlab_observe_needs_rows `{MO : MatlabOps} `{OO : Matlab.ObserveOps}
  (kalman k1 : Matlab.kalman_t) (n_i : Z) (H_i F_i c_i : matrix_t)
  (K_i : CovarianceMatrix) :
  Matlab.evolve kalman n_i H_i F_i c_i K_i = Ok k1 ->
  exists cur,
    Matlab.current k1 = Some cur /\
    (Matlab.steps kalman = [] -> Matlab.Rbar cur = None) /\
    (Matlab.Rbar cur = None ->
     forall args, Matlab.unobserved args -> exists f, Matlab.observe k1 args = Fault f).
Proof.
  intros H. apply matlab_evolve_current in H.
  destruct H as (cur & Hcur & _ & HRd & _ & _ & _ & Hlast).
  exists cur. split; [exact Hcur|]. split.
  - intros Hs. rewrite Hs in Hlast. simpl in Hlast. tauto.
  - intros HRb args Hargs. unfold Matlab.observe. rewrite Hcur. simpl.
    rewrite HRb, HRd.
    destruct args as [[[G_i o_i] C_i]|]; simpl in Hargs; [rewrite Hargs|]; simpl; eauto.
Qed.

(** ** The MATLAB filter: a step, from [evolve] to [observe] *)

Lemma matlab_observe_inv `{MO : MatlabOps} `{OO : Matlab.ObserveOps}
  (k k2 : Matlab.kalman_t) (args : option (matrix_t * matrix_t * CovarianceMatrix)) :
  Matlab.observe k args = Ok k2 ->
  exists cur st Rd,
    Matlab.current k = Some cur /\
    Matlab.current k2 = Some st /\
    Matlab.steps k2 = Matlab.steps k ++ [st] /\
    Matlab.step st = Matlab.step cur /\
    Matlab.dimension st = Matlab.dimension cur /\
    Matlab.Rbar st = Matlab.Rbar cur /\
    Matlab.ybar st = Matlab.ybar cur /\
    Matlab.Rsupdiag st = Matlab.Rsupdiag cur /\
    Matlab.Rdiag st = Some Rd.
Proof.
  unfold Matlab.observe. intros H.
  obind H. rename a into cur. destruct (Matlab.current k) as [c|]; [|discriminate].
  inversion E; subst c; clear E.
  obind H. destruct a as [Rdiag_i y_i]. obind H. rename a into Rd.
  destruct Rdiag_i as [Rd'|]; [|discriminate]. inversion E0; subst Rd'; clear E0.
  obind H. destruct a as [es ec]. inversion H; subst k2; clear H. simpl.
  eexists cur, _, Rd. repeat (split; [reflexivity|]). reflexivity.
Qed.

Lemma matlab_rollback_missing (k : Matlab.kalman_t) (s0 st : Matlab.step_t) (m : nat) :
  Matlab.steps k !! 0%nat = Some s0 ->
  Matlab.steps k !! m = Some st ->
  Matlab.Rbar st = None \/ Matlab.ybar st = None ->
  exists f, Matlab.rollback k (Matlab.step s0 + Z.of_nat m) = Fault f.
Proof.
  intros H0 Hm Hmiss. unfold Matlab.rollback.
  rewrite (cell_lookup _ 1 s0) by (try lia; exact H0). simpl.
  apply lookup_lt_Some in Hm as Hlt.
  replace (_ || _) with false
    by (symmetry; apply orb_false_iff; split; apply Z.ltb_ge; lia).
  rewrite (cell_lookup _ _ st); [|lia|].
  - simpl. destruct (Matlab.Rbar st) as [Rb|]; simpl; [|eauto].
    destruct (Matlab.ybar st) as [yb|]; simpl; [|eauto].
    destruct Hmiss; discriminate.
  - replace (Z.to_nat _) with m by lia. exact Hm.
Qed.

Lemma matlab_advance_steps `{MO : MatlabOps} `{OO : Matlab.ObserveOps}
  (kalman k1 k2 : Matlab.kalman_t) (n_i : Z) (H_i F_i c_i : matrix_t)
  (K_i : CovarianceMatrix) (args : option (matrix_t * matrix_t * CovarianceMatrix)) :
  Matlab.consecutive (Matlab.steps kalman) ->
  Matlab.evolve kalman n_i H_i F_i c_i K_i = Ok k1 ->
  Matlab.observe k1 args = Ok k2 ->
  exists cur st,
    Matlab.current k1 = Some cur /\
    Matlab.current k2 = Some st /\
    Matlab.steps k2 !! length (Matlab.steps kalman) = Some st /\
    length (Matlab.steps k2) = S (length (Matlab.steps kalman)) /\
    Matlab.step st = Matlab.step cur /\
    Matlab.dimension st = n_i /\
    Matlab.Rbar st = Matlab.Rbar cur /\
    Matlab.ybar st = Matlab.ybar cur /\
    (Matlab.steps kalman = [] -> Matlab.step st = 0 /\ Matlab.Rbar cur = None) /\
    (forall i x, Matlab.steps kalman !! i = Some x ->
       exists x', Matlab.steps k2 !! i = Some x' /\ Matlab.step x' = Matlab.step x) /\
    Matlab.consecutive (Matlab.steps k2).
Proof.
  intros Hc He Ho.
  apply matlab_evolve_current in He.
  destruct He as (cur & Hcur & Hdim & _ & _ & _ & _ & Hlast).
  apply matlab_observe_inv in Ho.
  destruct Ho as (cur' & st & Rd & Hcur' & Hst & Hsteps & Hstep & Hdim' & HRb & Hyb & _ & _).
  rewrite Hcur in Hcur'. inversion Hcur'; subst cur'; clear Hcur'.
  exists cur, st. split; [exact Hcur|]. split; [exact Hst|].
  destruct (last (Matlab.steps kalman)) as [imo|] eqn:El.
  - destruct Hlast as (Hscur & imo' & Hs1 & Himo').
    apply last_Some in El. destruct El as [c El].
    rewrite El in *. rewrite removelast_last in Hs1.
    assert (Hlen1 : length (Matlab.steps k1) = length (c ++ [imo]))
      by (rewrite Hs1, !length_app; reflexivity).
    assert (Hfr : forall i x, (c ++ [imo]) !! i = Some x ->
              exists x', Matlab.steps k2 !! i = Some x' /\ Matlab.step x' = Matlab.step x).
    { intros i x Hi. rewrite Hsteps, Hs1.
      apply lookup_app_Some in Hi. destruct Hi as [Hi|[Hge Hi]].
      - exists x. split; [|reflexivity].
        rewrite <- app_assoc. apply lookup_app_l_Some. exact Hi.
      - apply list_lookup_singleton_Some in Hi. destruct Hi as [Hi ->].
        exists imo'. split; [|exact Himo'].
        rewrite lookup_app_l by (rewrite length_app; simpl; lia).
        rewrite lookup_app_r by lia. replace (i - length c)%nat with 0%nat by lia.
        reflexivity. }
    split; [rewrite Hsteps, <- Hlen1; apply list_lookup_middle; reflexivity|].
    split; [rewrite Hsteps, length_app, Hlen1; simpl; lia|].
    split; [exact Hstep|]. split; [congruence|]. split; [exact HRb|]. split; [exact Hyb|].
    split; [intros Hnil; destruct c; discriminate|].
    split; [exact Hfr|].
    (* the numbers of the steps *)
    intros i y0 y H0 Hi.
    assert (Hlen2 : length (Matlab.steps k2) = S (length (c ++ [imo])))
      by (rewrite Hsteps, length_app, Hlen1; simpl; lia).
    assert (Hpos : (0 < length (c ++ [imo]))%nat) by (rewrite length_app; simpl; lia).
    destruct (lookup_lt_is_Some_2 _ _ Hpos) as [z0 Hz0].
    destruct (Hfr _ _ Hz0) as (z0' & Hz0' & Ez0). rewrite H0 in Hz0'.
    inversion Hz0'; subst z0'; clear Hz0'.
    assert (Himo : (c ++ [imo]) !! length c = Some imo)
      by (apply list_lookup_middle; reflexivity).
    pose proof (Hc _ _ _ Hz0 Himo) as Estep.
    apply lookup_lt_Some in Hi as Hlt.
    destruct (decide (i < length (c ++ [imo]))%nat) as [Hin|Hout].
    + destruct (lookup_lt_is_Some_2 _ _ Hin) as [z Hz].
      destruct (Hfr _ _ Hz) as (z' & Hz' & Ez). rewrite Hi in Hz'.
      inversion Hz'; subst z'; clear Hz'.
      pose proof (Hc _ _ _ Hz0 Hz). lia.
    + assert (i = length (c ++ [imo])) by lia. subst i.
      rewrite Hsteps, <- Hlen1 in Hi. rewrite list_lookup_middle in Hi by reflexivity.
      inversion Hi; subst y. rewrite length_app in *. simpl in *. lia.
  - apply last_None in El. destruct Hlast as (Hs1 & Hscur & HRbc).
    rewrite El in *. rewrite Hs1 in Hsteps. simpl in Hsteps.
    split; [now rewrite Hsteps|]. split; [now rewrite Hsteps|].
    split; [exact Hstep|]. split; [congruence|]. split; [exact HRb|]. split; [exact Hyb|].
    split; [intros _; split; [congruence|exact HRbc]|].
    split; [intros i x Hi; rewrite lookup_nil in Hi; discriminate|].
    rewrite Hsteps. intros i y0 y H0 Hi.
    destruct i; [simpl in *; inversion H0; inversion Hi; subst; lia|].
    simpl in Hi. rewrite lookup_nil in Hi. discriminate.
Qed.

(** X20: [evolve] and then [observe] of the MATLAB filter, on steps with
    consecutive numbers, add one step: the numbers stay consecutive, the
    earliest stays and the latest grows by one; from the empty filter both
    become 0.  The step added is the current one, of the dimension given to
    [evolve]. *)
Theorem matlab_advance_window `{MO : MatlabOps} `{OO : Matlab.ObserveOps}
  (kalman k1 k2 : Matlab.kalman_t) (n_i : Z) (H_i F_i c_i : matrix_t)
  (K_i : CovarianceMatrix) (args : option (matrix_t * matrix_t * CovarianceMatrix)) :
  Matlab.consecutive (Matlab.steps kalman) ->
  Matlab.evolve kalman n_i H_i F_i c_i K_i = Ok k1 ->
  Matlab.observe k1 args = Ok k2 ->
  Matlab.consecutive (Matlab.steps k2) /\
  length (Matlab.steps k2) = S (length (Matlab.steps kalman)) /\
  (exists st, Matlab.current k2 = Some st /\ last (Matlab.steps k2) = Some st /\
              Matlab.dimension st = n_i) /\
  (Matlab.steps kalman = [] ->
   Matlab.earliest k2 = Ok 0 /\ Matlab.latest k2 = Ok 0) /\
  (forall e la, Matlab.steps kalman <> [] ->
     Matlab.earliest kalman = Ok e -> Matlab.latest kalman = Ok la ->
     Matlab.earliest k2 = Ok e /\ Matlab.latest k2 = Ok (la + 1)).
Proof.
  intros Hc He Ho.
  destruct (matlab_advance_steps _ _ _ _ _ _ _ _ _ Hc He Ho)
    as (cur & st & Hcur & Hst & Hlk & Hlen & Hstep & Hdim & _ & _ & Hnil & Hfr & Hc2).
  assert (Hlast : last (Matlab.steps k2) = Some st).
  { rewrite last_lookup, Hlen. simpl. exact Hlk. }
  split; [exact Hc2|]. split; [exact Hlen|].
  split; [exists st; auto|]. split.
  - intros Hs. destruct (Hnil Hs) as [H0 _]. rewrite Hs in Hlk. simpl in Hlk.
    rewrite (earliest_first _ _ Hlk), (latest_last _ _ Hlast). rewrite H0. auto.
  - intros e la Hne Hearly Hlate.
    assert (Hpos : (0 < length (Matlab.steps kalman))%nat)
      by (destruct (Matlab.steps kalman); [congruence|simpl; lia]).
    destruct (lookup_lt_is_Some_2 _ _ Hpos) as [s0 H0].
    rewrite (earliest_first _ _ H0) in Hearly. inversion Hearly; subst e; clear Hearly.
    assert (El : exists sl, last (Matlab.steps kalman) = Some sl).
    { rewrite last_lookup. apply lookup_lt_is_Some_2. lia. }
    destruct El as [sl El].
    rewrite (latest_last _ _ El) in Hlate. inversion Hlate; subst la; clear Hlate.
    rewrite last_lookup in El.
    destruct (Hfr _ _ H0) as (s0' & H0' & E0).
    rewrite (earliest_first _ _ H0'), (latest_last _ _ Hlast).
    split; [congruence|]. f_equal.
    pose proof (Hc2 _ _ _ H0' Hlk). pose proof (Hc _ _ _ H0 El). lia.
Qed.

(** X21: the MATLAB filter cannot roll back to a step that [evolve] left
    without the field [Rbar]: once [observe] has stored the step,
    [rollback] to its number reads that field and is an error.  The first
    step of a filter, number 0, is such a step. *)
Theorem matlab_rollback_needs_Rbar `{MO : MatlabOps} `{OO : Matlab.ObserveOps}
  (kalman k1 k2 : Matlab.kalman_t) (n_i : Z) (H_i F_i c_i : matrix_t)
  (K_i : CovarianceMatrix) (args : option (matrix_t * matrix_t * CovarianceMatrix)) :
  Matlab.consecutive (Matlab.steps kalman) ->
  Matlab.evolve kalman n_i H_i F_i c_i K_i = Ok k1 ->
  Matlab.observe k1 args = Ok k2 ->
  exists cur,
    Matlab.current k1 = Some cur /\
    (Matlab.steps kalman = [] -> Matlab.step cur = 0 /\ Matlab.Rbar cur = None) /\
    (Matlab.Rbar cur = None ->
     exists f, Matlab.rollback k2 (Matlab.step cur) = Fault f).
Proof.
  intros Hc He Ho.
  destruct (matlab_advance_steps _ _ _ _ _ _ _ _ _ Hc He Ho)
    as (cur & st & Hcur & Hst & Hlk & Hlen & Hstep & Hdim & HRb & _ & Hnil & Hfr & Hc2).
  exists cur. split; [exact Hcur|]. split.
  - intros Hs. destruct (Hnil Hs). split; [congruence|assumption].
  - intros Hmiss.
    assert (Hpos : (0 < length (Matlab.steps k2))%nat) by lia.
    destruct (lookup_lt_is_Some_2 _ _ Hpos) as [s0 H0].
    pose proof (Hc2 _ _ _ H0 Hlk) as Hnum.
    rewrite <- Hstep, Hnum.
    eapply matlab_rollback_missing; [exact H0|exact Hlk|].
    left. congruence.
Qed.

(** ** The example program: the choice of the algorithm *)

Lemma N_of_ascii_zero (c : ascii) : N_of_ascii c = 0%N -> c = Ascii.zero.
Proof.
  intros H. rewrite <- (ascii_N_embedding c), H. reflexivity.
Qed.

Lemma strncmp_same (s : Rotation.c_string) (n : nat) : Rotation.strncmp s s n = 0.
Proof.
  revert n. induction s as [|c s IH]; intros [|n]; simpl; try reflexivity.
  rewrite Ascii.eqb_refl. apply IH.
Qed.

Lemma strncmp_prefix (s1 : Rotation.c_string) :
  forall s2 : Rotation.c_string,
    Rotation.is_c_string s1 ->
    Rotation.strncmp s1 s2 (length s1) = 0 ->
    exists r, s2 = s1 ++ r.
Proof.
  unfold Rotation.is_c_string.
  induction s1 as [|c1 r1 IH]; intros s2 H1 H; [exists s2; reflexivity|].
  apply not_elem_of_cons in H1. destruct H1 as [Hc1 H1].
  simpl in H. destruct s2 as [|c2 r2].
  - exfalso. apply Hc1. symmetry. apply N_of_ascii_zero. lia.
  - destruct (Ascii.eqb c1 c2) eqn:E.
    + apply Ascii.eqb_eq in E. subst c2. destruct (IH r2 H1 H) as [r ->].
      exists r. reflexivity.
    + exfalso. apply Ascii.eqb_neq in E. apply E.
      rewrite <- (ascii_N_embedding c1), <- (ascii_N_embedding c2). f_equal. lia.
Qed.

Lemma streq_cases (constant value : Rotation.c_string) :
  Rotation.is_c_string constant ->
  (constant = value -> Rotation.streq constant value = 1) /\
  (constant <> value -> Rotation.streq constant value = 0).
Proof.
  intros Hc. unfold Rotation.streq, Rotation.strlen. rewrite Nat2Z.id. split.
  - intros <-. rewrite strncmp_same, !Z.eqb_refl. reflexivity.
  - intros Hne.
    destruct (Rotation.strncmp constant value (length constant) =? 0) eqn:E1; [|reflexivity].
    destruct (Z.of_nat (length value) =? Z.of_nat (length constant)) eqn:E2; [|reflexivity].
    exfalso. apply Hne. apply Z.eqb_eq in E1, E2.
    destruct (strncmp_prefix _ _ Hc E1) as [r ->].
    rewrite length_app in E2. destruct r; [now rewrite app_nil_r|simpl in E2; lia].
Qed.

(** X22: [streq] compares two C strings exactly: it returns 1 when the
    value is the constant, character for character, and 0 otherwise, also
    when one is a proper prefix of the other. *)
Theorem streq_exact (constant value : Rotation.c_string) :
  Rotation.is_c_string constant ->
  Rotation.is_c_string value ->
  (Rotation.streq constant value = 1 <-> constant = value) /\
  (Rotation.streq constant value = 0 <-> constant <> value).
Proof.
  intros Hc _. destruct (streq_cases constant value Hc) as [H1 H0].
  destruct (List.list_eq_dec Ascii.ascii_dec constant value) as [E|E].
  - split; split; intros H; try assumption; [auto|rewrite (H1 E) in H; discriminate|contradiction].
  - split; split; intros H; try assumption; [rewrite (H0 E) in H; discriminate|contradiction|auto].
Qed.

(** X23: the example program selects an algorithm by its exact name.  Any
    other value of the parameter, a misspelt name or a longer one, selects
    the default, KALMAN_ALGORITHM_ULTIMATE, as the name "ultimate" does. *)
Theorem options_of_name (algorithm : Rotation.c_string) :
  Rotation.is_c_string algorithm ->
  (algorithm = Rotation.conventional_name ->
   Rotation.options_of algorithm = Rotation.KALMAN_ALGORITHM_CONVENTIONAL) /\
  (algorithm = Rotation.oddeven_name ->
   Rotation.options_of algorithm = Rotation.KALMAN_ALGORITHM_ODDEVEN) /\
  (algorithm = Rotation.associative_name ->
   Rotation.options_of algorithm = Rotation.KALMAN_ALGORITHM_ASSOCIATIVE) /\
  (algorithm <> Rotation.conventional_name ->
   algorithm <> Rotation.oddeven_name ->
   algorithm <> Rotation.associative_name ->
   Rotation.options_of algorithm = Rotation.KALMAN_ALGORITHM_ULTIMATE).
Proof.
  intros _.
  assert (Hcs : forall s, s = Rotation.conventional_name \/ s = Rotation.oddeven_name \/
                          s = Rotation.associative_name ->
                          Rotation.is_c_string s).
  { intros s Hs. destruct Hs as [Hs|[Hs|Hs]]; subst s; unfold Rotation.is_c_string; intros H;
      repeat (apply elem_of_cons in H; destruct H as [H|H]; [discriminate|]);
      apply elem_of_nil in H; exact H. }
  repeat split.
  - intros ->. reflexivity.
  - intros ->. reflexivity.
  - intros ->. reflexivity.
  - intros H1 H2 H3. unfold Rotation.options_of.
    rewrite (proj2 (streq_cases Rotation.conventional_name algorithm (Hcs _ (or_introl eq_refl))))
      by congruence.
    rewrite (proj2 (streq_cases Rotation.oddeven_name algorithm
                      (Hcs _ (or_intror (or_introl eq_refl))))) by congruence.
    rewrite (proj2 (streq_cases Rotation.associative_name algorithm
                      (Hcs _ (or_intror (or_intror eq_refl))))) by congruence.
    simpl. destruct (negb _); reflexivity.
Qed.

(** ** The properties on concrete runs *)

Lemma consecutive_from_sound (c : list Matlab.step_t) :
  forall e, Matlab.consecutive_from e c = true ->
            forall (i : nat) s, c !! i = Some s -> Matlab.step s = e + Z.of_nat i.
Proof.
  induction c as [|x c IH]; intros e H i s Hi; [rewrite lookup_nil in Hi; discriminate|].
  simpl in H. apply andb_prop in H. destruct H as [H1 H2]. apply Z.eqb_eq in H1.
  destruct i as [|i]; simpl in Hi.
  - inversion Hi; subst. lia.
  - rewrite (IH _ H2 _ _ Hi). lia.
Qed.

Lemma consecutive_from_consecutive (c : list Matlab.step_t) (e : Z) :
  Matlab.consecutive_from e c = true -> Matlab.consecutive c.
Proof.
  intros H i s0 s H0 Hi.
  rewrite (consecutive_from_sound _ _ H _ _ H0), (consecutive_from_sound _ _ H _ _ Hi). lia.
Qed.

Lemma is_c_stringb_sound (s : Rotation.c_string) :
  is_c_stringb s = true -> Rotation.is_c_string s.
Proof.
  unfold is_c_stringb, Rotation.is_c_string. intros H Hin.
  rewrite forallb_forall in H. apply list_elem_of_In in Hin.
  specialize (H _ Hin). rewrite Ascii.eqb_refl in H. discriminate.
Qed.

(** The second [kalman_evolve] of the one-step run. *)
Lemma evolve_opens_next_step_witness :
  exists k',
    kalman_evolve (LA := upper_lapack) Runs.one 1
      (scalar 1) (scalar 0) (scalar 1) (scalar 1) "w" = Ok k' /\
    steps k' = steps Runs.one /\ kalman_latest k' = Ok 0.
Proof.
  assert (H : exists k', kalman_evolve (LA := upper_lapack) Runs.one 1
                           (scalar 1) (scalar 0) (scalar 1) (scalar 1) "w" = Ok k')
    by (eexists; vm_compute; reflexivity).
  destruct H as [k' H]. exists k'. split; [exact H|].
  assert (Hi : indexed Runs.one) by (apply indexedb_sound; vm_compute; reflexivity).
  destruct (evolve_opens_next_step (LA := upper_lapack) _ _ _ _ _ _ _ _ Hi H)
    as (_ & Hs & _ & l & p & s & Hl & Hl' & _).
  split; [exact Hs|]. rewrite Hl', <- Hl. vm_compute. reflexivity.
Defined.

(** The estimate of step 0 across the second [kalman_evolve] of the one-step run. *)
Lemma evolve_keeps_estimates_witness :
  exists k',
    kalman_evolve (LA := upper_lapack) Runs.one 1
      (scalar 1) (scalar 0) (scalar 1) (scalar 1) "w" = Ok k' /\
    kalman_estimate k' 0 = kalman_estimate Runs.one 0.
Proof.
  assert (H : exists k', kalman_evolve (LA := upper_lapack) Runs.one 1
                           (scalar 1) (scalar 0) (scalar 1) (scalar 1) "w" = Ok k')
    by (eexists; vm_compute; reflexivity).
  destruct H as [k' H]. exists k'. split; [exact H|].
  assert (Hi : indexed Runs.one) by (apply indexedb_sound; vm_compute; reflexivity).
  exact (proj1 (evolve_keeps_estimates (LA := upper_lapack) _ _ _ _ _ _ _ _ Hi H) 0).
Defined.

(** The first observation of the one-step run, and the step it appends. *)
Lemma observe_then_estimate_witness :
  exists cur',
    heap Runs.one !! 0%nat = Some (Some cur') /\ dimension cur' = 1.
Proof.
  assert (H : kalman_observe (LA := upper_lapack) Runs.evolved
                (scalar 1) (scalar 3) (scalar 1) "w" = Ok Runs.one)
    by (vm_compute; reflexivity).
  destruct (observe_then_estimate (LA := upper_lapack) _ _ _ _ _ _ 0%nat
              (open_step Runs.evolved) H)
    as (cur' & Hc & Hd & _).
  - vm_compute. reflexivity.
  - vm_compute. reflexivity.
  - vm_compute. reflexivity.
  - vm_compute. reflexivity.
  - exists cur'. split; [exact Hc|]. rewrite Hd. vm_compute. reflexivity.
Defined.

(** Forgetting step 0 of the three-step run, twice. *)
Lemma forget_twice_witness :
  exists k', kalman_forget Runs.three 0 = Ok k' /\ kalman_forget k' 0 = Ok k'.
Proof.
  assert (H : exists k', kalman_forget Runs.three 0 = Ok k')
    by (eexists; vm_compute; reflexivity).
  destruct H as [k' H]. exists k'. split; [exact H|].
  exact (forget_twice _ _ _ H).
Defined.

(** Forgetting step 0 of the three-step run keeps the latest step, 2. *)
Lemma forget_keeps_recent_steps_witness :
  exists k', kalman_forget Runs.three 0 = Ok k' /\ kalman_latest k' = Ok 2.
Proof.
  assert (H : exists k', kalman_forget Runs.three 0 = Ok k')
    by (eexists; vm_compute; reflexivity).
  destruct H as [k' H]. exists k'. split; [exact H|].
  assert (Hi : indexed Runs.three) by (apply indexedb_sound; vm_compute; reflexivity).
  destruct (forget_keeps_recent_steps _ _ _ Hi H) as (_ & Hl & _).
  rewrite Hl. vm_compute. reflexivity.
Defined.

(** The three-step run is released whole. *)
Lemma free_releases_the_log_witness :
  exists h', kalman_free Runs.three = Ok h' /\ h' !! 0%nat = Some None.
Proof.
  destruct (free_releases_the_log Runs.three) as (h' & H1 & H2 & _).
  - apply indexedb_sound. vm_compute. reflexivity.
  - intros si s Hs.
    apply (steps_check_sound Runs.three (fun _ s => freeableb s)) in Hs;
      [|vm_compute; reflexivity].
    now apply freeableb_sound.
  - exists h'. split; [exact H1|]. apply H2. vm_compute.
    apply list_elem_of_here.
Defined.

(** Step 1 of the three-step run, rolled back to and observed again, cannot
    be released any more. *)
Lemma rollback_leaves_dangling_Rsupdiag_witness :
  kalman_rollback Runs.three 1 = Ok Runs.reopened /\
  kalman_observe (LA := upper_lapack) Runs.reopened None None None "w" = Ok Runs.resealed /\
  kalman_free Runs.resealed = Fault DanglingPointer.
Proof.
  assert (H1 : kalman_rollback Runs.three 1 = Ok Runs.reopened)
    by (vm_compute; reflexivity).
  assert (H2 : kalman_observe (LA := upper_lapack) Runs.reopened None None None "w"
               = Ok Runs.resealed) by (vm_compute; reflexivity).
  split; [exact H1|]. split; [exact H2|].
  assert (Hi : indexed Runs.three) by (apply indexedb_sound; vm_compute; reflexivity).
  refine (proj2 (proj2 (rollback_leaves_dangling_Rsupdiag (LA := upper_lapack)
                          Runs.three Runs.reopened Runs.resealed 1
                          (step_of Runs.three 1) None None None "w"
                          Hi _ _ _ H1 H2))).
  - vm_compute. split; discriminate.
  - vm_compute. reflexivity.
  - vm_compute. reflexivity.
Defined.

(** Smoothing the three-step run leaves its log. *)
Lemma smooth_writes_only_estimates_witness :
  exists k', kalman_smooth (LA := upper_lapack) Runs.three = Ok k' /\
             steps k' = steps Runs.three.
Proof.
  assert (H : exists k', kalman_smooth (LA := upper_lapack) Runs.three = Ok k')
    by (eexists; vm_compute; reflexivity).
  destruct H as [k' H]. exists k'. split; [exact H|].
  exact (proj1 (smooth_writes_only_estimates (LA := upper_lapack) _ _ H)).
Defined.

(** Smoothing the three-step run leaves step 2 as it is. *)
Lemma smooth_keeps_latest_step_witness :
  exists k', kalman_smooth (LA := upper_lapack) Runs.three = Ok k' /\
             kalman_estimate k' (-1) = kalman_estimate Runs.three (-1).
Proof.
  destruct (smooth_keeps_latest_step (LA := upper_lapack) Runs.three
              (step_of Runs.three 2)
              (block (Rdiag (step_of Runs.three 2)))
              (block (y (step_of Runs.three 2))))
    as (k' & H1 & _ & H2 & _).
  - apply indexedb_sound. vm_compute. reflexivity.
  - vm_compute. discriminate.
  - intros si s Hs.
    apply (steps_check_sound Runs.three
             (fun si s => smoothableb (si =? farray_last_index (steps Runs.three)) s))
      in Hs; [|vm_compute; reflexivity].
    now apply smoothableb_sound.
  - vm_compute. reflexivity.
  - vm_compute. reflexivity.
  - vm_compute. reflexivity.
  - vm_compute. reflexivity.
  - exists k'. split; assumption.
Defined.

(** Step 0 is observed, the filter advances to step 1, rolls back to step 0
    and observes it with o = 5: the log is the one of a filter whose step 0
    was observed with o = 5 at once. *)
Lemma rollback_then_observe_witness :
  exists k3 k4 kd,
    kalman_rollback Runs.two 0 = Ok k3 /\
    kalman_observe (LA := upper_lapack) k3 (scalar 1) (scalar 5) (scalar 1) "w" = Ok k4 /\
    kalman_observe (LA := upper_lapack) Runs.evolved (scalar 1) (scalar 5) (scalar 1) "w"
    = Ok kd /\
    steps k4 = steps kd /\
    kalman_estimate k4 0 = kalman_estimate kd 0.
Proof.
  assert (H1 : kalman_observe (LA := upper_lapack) Runs.evolved
                 (scalar 1) (scalar 3) (scalar 1) "w" = Ok Runs.one)
    by (vm_compute; reflexivity).
  assert (H2 : run (LA := upper_lapack)
                 (Session.session
                    [Session.Advance 1 (scalar 1) (scalar 0) (scalar 1) (scalar 1) "w"
                       None None None "w"]) Runs.one = Ok Runs.two)
    by (vm_compute; reflexivity).
  assert (H3 : exists k3, kalman_rollback Runs.two 0 = Ok k3)
    by (eexists; vm_compute; reflexivity).
  destruct H3 as [k3 H3].
  assert (H4 : exists k4, kalman_observe (LA := upper_lapack) k3
                            (scalar 1) (scalar 5) (scalar 1) "w" = Ok k4).
  { vm_compute in H3. inversion H3; subst k3. eexists. vm_compute. reflexivity. }
  destruct H4 as [k4 H4].
  assert (Hi : indexed Runs.evolved) by (apply indexedb_sound; vm_compute; reflexivity).
  destruct (rollback_then_observe (LA := upper_lapack)
              Runs.evolved Runs.one Runs.two k3 k4 0%nat (open_step Runs.evolved)
              (scalar 1) (scalar 3) (scalar 1) "w"
              [Session.Advance 1 (scalar 1) (scalar 0) (scalar 1) (scalar 1) "w"
                 None None None "w"]
              (scalar 1) (scalar 5) (scalar 1) "w" Hi)
    as (kd & Hd & Hs & _ & _ & He).
  - vm_compute. reflexivity.
  - vm_compute. apply not_elem_of_nil.
  - vm_compute. reflexivity.
  - vm_compute. reflexivity.
  - right. discriminate.
  - exact H1.
  - reflexivity.
  - exact H2.
  - exact H3.
  - exact H4.
  - exists k3, k4, kd. split; [exact H3|]. split; [exact H4|].
    split; [exact Hd|]. split; [exact Hs|]. exact (proj1 (He 0)).
Defined.

(** Two filter steps from the new filter: the window is (0, 1). *)
Lemma session_window_witness :
  indexed Runs.two /\ kalman_earliest Runs.two = Ok 0 /\ kalman_latest Runs.two = Ok 1.
Proof.
  exact (session_window (LA := upper_lapack)
           [Session.Advance 1 None None None None "w"
              (scalar 1) (scalar 3) (scalar 1) "w";
            Session.Advance 1 (scalar 1) (scalar 0) (scalar 1) (scalar 1) "w"
              None None None "w"]
           Runs.two (0, 1)
           ltac:(vm_compute; reflexivity) ltac:(vm_compute; reflexivity)).
Defined.

(** The associative smoother on two steps. *)
Lemma associative_needs_two_steps_witness :
  2 <= 2 <= Z.of_nat (length Runs.equations2) /\
  length Runs.smoothed2 = length Runs.equations2.
Proof.
  exact (associative_needs_two_steps (DK := diagonal_dense)
           Runs.equations2 Runs.smoothed2 2 ltac:(vm_compute; reflexivity)).
Defined.

(** The associative smoother on two steps keeps the observation of step 0. *)
Lemma associative_writes_only_estimates_witness :
  exists q, Runs.smoothed2 !! 0%nat = Some q /\
            StepEquations.o q = StepEquations.o Runs.equation0.
Proof.
  destruct (associative_writes_only_estimates (DK := diagonal_dense)
              Runs.equations2 Runs.smoothed2 2 ltac:(vm_compute; reflexivity)
              0%nat Runs.equation0 eq_refl)
    as (q & Hq & _ & _ & _ & _ & _ & _ & _ & _ & Ho & _).
  exists q. split; assumption.
Defined.

(** The associative smoother on two steps: the backward scan. *)
Lemma associative_scan_to_estimates_witness :
  exists filtered smoothed f s0,
    filtered_elements (DK := diagonal_dense) Runs.equations2 2 = Ok filtered /\
    smoothed_elements (DK := diagonal_dense) Runs.equations2 2 = Ok smoothed /\
    Associative.get filtered 0 = Ok (Some f) /\
    Associative.get smoothed 0 = Ok (Some s0) /\
    Associative.L s0 = Associative.Z_ f.
Proof.
  destruct (associative_scan_to_estimates (DK := diagonal_dense)
              Runs.equations2 Runs.smoothed2 2 ltac:(vm_compute; reflexivity))
    as (filtered & smoothed & f & s0 & H1 & H2 & H3 & H4 & _ & H5 & _).
  exists filtered, smoothed, f, s0. auto.
Defined.

(** The MATLAB filter of two steps, numbered 0 and 1: forgetting step 0
    leaves step 1, forgetting step 1 leaves nothing. *)
Lemma matlab_forget_window_witness :
  (exists k', Matlab.forget MatlabRuns.two (Some 0) = Ok k' /\
              Matlab.earliest k' = Ok 1 /\ Matlab.latest k' = Ok 1) /\
  (exists k', Matlab.forget MatlabRuns.two (Some 1) = Ok k' /\ Matlab.steps k' = []).
Proof.
  destruct (matlab_forget_window MatlabRuns.two 0 1) as (_ & H1 & H2 & _).
  - apply (consecutive_from_consecutive _ 0). vm_compute. reflexivity.
  - vm_compute. discriminate.
  - vm_compute. reflexivity.
  - vm_compute. reflexivity.
  - split.
    + destruct (H1 0 ltac:(lia)) as (k' & Hf & _ & _ & _ & He & Hl).
      exists k'. auto.
    + destruct (H2 1 ltac:(lia)) as (k' & Hf & Hs & _).
      exists k'. auto.
Defined.

(** The MATLAB filter of two steps: step 1 has the rows that [evolve] left
    over, step 0 has none. *)
Lemma matlab_rollback_window_witness :
  (exists f, Matlab.rollback MatlabRuns.two 0 = Fault f) /\
  (exists k', Matlab.rollback MatlabRuns.two 1 = Ok k' /\ Matlab.latest k' = Ok 0).
Proof.
  destruct (matlab_rollback_window MatlabRuns.two 0 1) as (_ & H).
  - apply (consecutive_from_consecutive _ 0). vm_compute. reflexivity.
  - vm_compute. discriminate.
  - vm_compute. reflexivity.
  - vm_compute. reflexivity.
  - split.
    + destruct (H 0 ltac:(lia)) as (st & Hst & _ & Hmiss & _).
      apply Hmiss. left. vm_compute in Hst. inversion Hst; subst st. reflexivity.
    + destruct (H 1 ltac:(lia)) as (st & Hst & _ & _ & Hok).
      vm_compute in Hst. inversion Hst; subst st; clear Hst.
      destruct (Hok _ _ eq_refl eq_refl) as (k' & Hr & _ & _ & _ & _ & Hl).
      exists k'. split; [exact Hr|exact Hl].
Defined.

(** The first step of the MATLAB filter, observed with no observation. *)
Lemma matlab_observe_needs_rows_witness :
  exists f,
    Matlab.observe (MO := upper_matlab) (OO := upper_observe) MatlabRuns.evolved None
    = Fault f.
Proof.
  destruct (matlab_observe_needs_rows (MO := upper_matlab) (OO := upper_observe)
              Matlab.UltimateKalman MatlabRuns.evolved 1
              Matlab.empty Matlab.empty Matlab.empty (MatlabRuns.block1 1)
              ltac:(vm_compute; reflexivity))
    as (cur & _ & Hnil & Hfault).
  exact (Hfault (Hnil eq_refl) None I).
Defined.

(** The first step of the MATLAB filter. *)
Lemma matlab_advance_window_witness :
  Matlab.earliest MatlabRuns.one = Ok 0 /\ Matlab.latest MatlabRuns.one = Ok 0.
Proof.
  destruct (matlab_advance_window (MO := upper_matlab) (OO := upper_observe)
              Matlab.UltimateKalman MatlabRuns.evolved MatlabRuns.one 1
              Matlab.empty Matlab.empty Matlab.empty (MatlabRuns.block1 1)
              (Some (MatlabRuns.block1 1, MatlabRuns.block1 3, MatlabRuns.block1 1)))
    as (_ & _ & _ & H & _).
  - intros i s0 s H0. discriminate H0.
  - vm_compute. reflexivity.
  - vm_compute. reflexivity.
  - exact (H eq_refl).
Defined.

(** The first step of the MATLAB filter cannot be rolled back to. *)
Lemma matlab_rollback_needs_Rbar_witness :
  exists f, Matlab.rollback MatlabRuns.one 0 = Fault f.
Proof.
  destruct (matlab_rollback_needs_Rbar (MO := upper_matlab) (OO := upper_observe)
              Matlab.UltimateKalman MatlabRuns.evolved MatlabRuns.one 1
              Matlab.empty Matlab.empty Matlab.empty (MatlabRuns.block1 1)
              (Some (MatlabRuns.block1 1, MatlabRuns.block1 3, MatlabRuns.block1 1)))
    as (cur & _ & Hnil & Hfault).
  - intros i s0 s H0. discriminate H0.
  - vm_compute. reflexivity.
  - vm_compute. reflexivity.
  - destruct (Hnil eq_refl) as [Hstep HRb]. rewrite <- Hstep. exact (Hfault HRb).
Defined.

(** "oddeven" is not "ultimate". *)
Lemma streq_exact_witness :
  Rotation.streq Rotation.ultimate_name Rotation.ultimate_name = 1 /\
  Rotation.streq Rotation.ultimate_name Rotation.oddeven_name = 0.
Proof.
  split.
  - apply (streq_exact Rotation.ultimate_name Rotation.ultimate_name);
      [apply is_c_stringb_sound; reflexivity ..|reflexivity].
  - apply (streq_exact Rotation.ultimate_name Rotation.oddeven_name);
      [apply is_c_stringb_sound; reflexivity ..|discriminate].
Defined.

(** A misspelt name selects the default algorithm. *)
Lemma options_of_name_witness :
  Rotation.options_of misspelt_name = Rotation.KALMAN_ALGORITHM_ULTIMATE.
Proof.
  apply (options_of_name misspelt_name); [apply is_c_stringb_sound; reflexivity | ..];
    discriminate.
Defined.
